(** * AccManager: the client-side vault and its server-side counterparts

    A shallow embedding of the cryptographic core of AccManager:

    - [worker/src/crypto.ts]: [toBase64], [fromBase64], [timingSafeEqual],
      [hashToken], [encrypt], [decrypt], [hashPassword], [verifyPassword];
    - [frontend/src/lib/crypto.ts]: [deriveKey], [encryptData], [decryptData],
      [encryptObject], [decryptObject];
    - [frontend/src/store.ts]: [storeVaultSession], [retrieveVaultSession],
      the [useVaultStore] actions;
    - [worker/src/routes/auth.ts]: [resetPassword].

    The functions of the JavaScript platform that this code calls ([btoa],
    [atob], [TextEncoder], [TextDecoder], [crypto.subtle.exportKey]) are
    modelled from their standards; the cryptographic primitives themselves
    (AES-GCM, PBKDF2, SHA-256) are an interface with its laws. *)

From Stdlib Require Import ZArith List Lia Bool Permutation.
From Stdlib.Strings Require Import String Ascii Byte.
From Stdlib Require Import DecimalString.
From stdpp Require Import base option list gmap.
Import ListNotations.

Local Open Scope Z_scope.

(** ** Exceptions and completions *)

(** The exceptions the platform raises in the modelled code. *)
Inductive exn : Type :=
  | InvalidCharacterError   (* DOMException of [btoa] and [atob] *)
  | OperationError          (* DOMException of [crypto.subtle]: tag mismatch, bad parameters *)
  | InvalidAccessError      (* DOMException of [crypto.subtle.exportKey] on a non-extractable key *)
  | DataError               (* DOMException of [crypto.subtle.importKey] on malformed key data *)
  | TypeError.              (* WebIDL conversion failure *)

(** How a call completes: it returns a value or throws. For an [async]
    function, [Return] is the fulfilled promise and [Throw] the rejected one. *)
Inductive completion (A : Type) : Type :=
  | Return (a : A)
  | Throw (e : exn).
Arguments Return {A} a.
Arguments Throw {A} e.

Definition cbind {A B} (c : completion A) (k : A -> completion B) : completion B :=
  match c with
  | Return a => k a
  | Throw e => Throw e
  end.

Notation "'let*' x := c 'in' k" := (cbind c (fun x => k))
  (at level 10, x pattern, c at level 100, k at level 200).

(** ** Bytes and JavaScript strings *)

(** A [Uint8Array] is a list of bytes. *)
Abbreviation bytes := (list byte).

#[global] Instance byte_eq_decision : EqDecision byte := Byte.byte_eq_dec.

Definition Z_of_byte (b : byte) : Z := Z.of_N (Byte.to_N b).

(** Storing a number into a [Uint8Array] keeps it modulo 256. *)
Definition byte_of_Z (z : Z) : byte :=
  match Byte.of_N (Z.to_N (z mod 256)) with
  | Some b => b
  | None => x00
  end.

(** The numbers a byte holds. *)
Definition is_octet (z : Z) : Prop := 0 <= z < 256.

(** A JavaScript string is a sequence of UTF-16 code units. *)
Abbreviation jsstring := (list Z).

(** The code units of an ASCII literal. *)
Definition js (s : string) : jsstring :=
  map (fun a => Z.of_N (N_of_ascii a)) (list_ascii_of_string s).

(** The decimal digits of an integer, after a minus sign if it is
    negative. *)
Definition decimal (n : Z) : jsstring :=
  js (NilZero.string_of_int (Z.to_int n)).

(** [s.startsWith(p)] *)
Fixpoint startsWith (s p : jsstring) : bool :=
  match p, s with
  | [], _ => true
  | _ :: _, [] => false
  | a :: p', b :: s' => (a =? b) && startsWith s' p'
  end.

(** [s.endsWith(p)] *)
Definition endsWith (s p : jsstring) : bool :=
  startsWith (rev s) (rev p).

(** [s.replace(p, '')] with a string pattern: the first occurrence of [p]
    is removed, and [s] is returned unchanged when there is none. *)
Fixpoint remove_first (p s : jsstring) : jsstring :=
  if startsWith s p then skipn (length p) s
  else match s with
       | [] => []
       | c :: s' => c :: remove_first p s'
       end.

(** ** Base64: [btoa] and [atob] *)

Module Base64.

(** The standards state base64 and UTF-8 with shifts and masks; here
    [x >> k] is written [x / 2^k] and [x & (2^k - 1)] is written
    [x mod 2^k]. *)

(** The base64 alphabet (RFC 4648, table 1). *)
Definition char_of_sextet (s : Z) : Z :=
  if s <? 26 then 65 + s
  else if s <? 52 then 97 + (s - 26)
  else if s <? 62 then 48 + (s - 52)
  else if s =? 62 then 43
  else 47.

Definition sextet_of_char (c : Z) : option Z :=
  if (65 <=? c) && (c <=? 90) then Some (c - 65)
  else if (97 <=? c) && (c <=? 122) then Some (c - 97 + 26)
  else if (48 <=? c) && (c <=? 57) then Some (c - 48 + 52)
  else if c =? 43 then Some 62
  else if c =? 47 then Some 63
  else None.

Definition is_sextet (z : Z) : Prop := 0 <= z < 64.

(** A code unit of the alphabet: neither whitespace nor [=]. *)
Definition in_alphabet (c : Z) : Prop := is_Some (sextet_of_char c).

(** Three bytes become four sextets; a final group of one or two bytes
    becomes two or three sextets, the unused low bits being zero. *)
Fixpoint sextets_of_bytes (l : list Z) : list Z :=
  match l with
  | a :: b :: c :: r =>
      a / 4 :: (a mod 4) * 16 + b / 16 :: (b mod 16) * 4 + c / 64 :: c mod 64
        :: sextets_of_bytes r
  | [a; b] => [a / 4; (a mod 4) * 16 + b / 16; (b mod 16) * 4]
  | [a] => [a / 4; (a mod 4) * 16]
  | [] => []
  end.

Definition padding (n : nat) : list Z :=
  match (n mod 3)%nat with
  | 1%nat => [61; 61]
  | 2%nat => [61]
  | _ => []
  end.

(** forgiving-base64 encode (WHATWG Infra): RFC 4648 base64 with padding. *)
Definition encode (l : list Z) : jsstring :=
  map char_of_sextet (sextets_of_bytes l) ++ padding (length l).

Definition is_ascii_whitespace (c : Z) : bool :=
  (c =? 9) || (c =? 10) || (c =? 12) || (c =? 13) || (c =? 32).

(** [data] without its last code unit, when that is U+003D (=). *)
Definition strip_equals (data : jsstring) : option jsstring :=
  match rev data with
  | c :: r => if c =? 61 then Some (rev r) else None
  | [] => None
  end.

(** "If data ends with one or two U+003D (=) code points, remove them." *)
Definition strip_padding (data : jsstring) : jsstring :=
  match strip_equals data with
  | None => data
  | Some data1 =>
      match strip_equals data1 with
      | None => data1
      | Some data2 => data2
      end
  end.

(** Four sextets become three bytes; of a final group of two or three
    sextets the last four or two bits are discarded. *)
Fixpoint bytes_of_sextets (l : list Z) : list Z :=
  match l with
  | a :: b :: c :: d :: r =>
      a * 4 + b / 16 :: (b mod 16) * 16 + c / 4 :: (c mod 4) * 64 + d
        :: bytes_of_sextets r
  | [a; b; c] => [a * 4 + b / 16; (b mod 16) * 16 + c / 4]
  | [a; b] => [a * 4 + b / 16]
  | _ => []
  end.

Fixpoint sextets_of_chars (s : jsstring) : option (list Z) :=
  match s with
  | [] => Some []
  | c :: r =>
      match sextet_of_char c, sextets_of_chars r with
      | Some x, Some xs => Some (x :: xs)
      | _, _ => None
      end
  end.

(** forgiving-base64 decode (WHATWG Infra), [None] for failure:
    ASCII whitespace is removed; padding is removed when the length is a
    multiple of 4; a length of 1 modulo 4 fails; a code point outside the
    alphabet fails. *)
Definition decode (data : jsstring) : option (list Z) :=
  let data := filter (fun c => negb (is_ascii_whitespace c)) data in
  let data := if (length data mod 4 =? 0)%nat then strip_padding data else data in
  if (length data mod 4 =? 1)%nat then None
  else option_map bytes_of_sextets (sextets_of_chars data).

End Base64.

(** [btoa(data)]: throws when [data] has a code unit above U+00FF. *)
Definition btoa (data : jsstring) : completion jsstring :=
  if forallb (fun c => (0 <=? c) && (c <=? 255)) data
  then Return (Base64.encode data)
  else Throw InvalidCharacterError.

(** [atob(data)]: throws when [data] is not forgiving-base64. *)
Definition atob (data : jsstring) : completion jsstring :=
  match Base64.decode data with
  | Some l => Return l
  | None => Throw InvalidCharacterError
  end.

(** crypto.ts, [toBase64]: the bytes become a binary string, then [btoa].
    The client's [btoa(String.fromCharCode(...combined))] builds the same
    binary string. *)
Definition toBase64 (bs : bytes) : completion jsstring :=
  btoa (map Z_of_byte bs).

(** crypto.ts, [fromBase64]: [atob], then the code units become bytes.
    The client's [Uint8Array.from(atob(s), c => c.charCodeAt(0))] does the same. *)
Definition fromBase64 (value : jsstring) : completion bytes :=
  let* binary := atob value in
  Return (map byte_of_Z binary).

(** ** [TextEncoder] and [TextDecoder] *)

Module Utf8.

Definition is_lead (c : Z) : bool := (0xD800 <=? c) && (c <=? 0xDBFF).
Definition is_trail (c : Z) : bool := (0xDC00 <=? c) && (c <=? 0xDFFF).

(** A Unicode scalar value: a code point that is not a surrogate. *)
Definition is_scalar (c : Z) : Prop :=
  (0 <= c < 0xD800) \/ (0xDFFF < c <= 0x10FFFF).

(** Conversion of a JavaScript string to scalar values (WebIDL
    [USVString]): a surrogate pair is one scalar value, a surrogate that is
    not part of a pair becomes U+FFFD. *)
Fixpoint scalars_of_units (s : jsstring) : list Z :=
  match s with
  | [] => []
  | c :: r =>
      if is_lead c then
        match r with
        | d :: r' =>
            if is_trail d
            then 0x10000 + (c - 0xD800) * 0x400 + (d - 0xDC00) :: scalars_of_units r'
            else 0xFFFD :: scalars_of_units r
        | [] => [0xFFFD]
        end
      else if is_trail c then 0xFFFD :: scalars_of_units r
      else c :: scalars_of_units r
  end.

(** A scalar value as UTF-16 code units. *)
Definition units_of_scalar (c : Z) : jsstring :=
  if c <? 0x10000 then [c]
  else [0xD800 + (c - 0x10000) / 0x400; 0xDC00 + (c - 0x10000) mod 0x400].

(** The UTF-8 encoder (WHATWG Encoding): one to four bytes per scalar value. *)
Definition encode_scalar (c : Z) : bytes :=
  if c <=? 0x7F then [byte_of_Z c]
  else if c <=? 0x7FF then
    [byte_of_Z (0xC0 + c / 64); byte_of_Z (0x80 + c mod 64)]
  else if c <=? 0xFFFF then
    [byte_of_Z (0xE0 + c / 4096); byte_of_Z (0x80 + (c / 64) mod 64);
     byte_of_Z (0x80 + c mod 64)]
  else
    [byte_of_Z (0xF0 + c / 262144); byte_of_Z (0x80 + (c / 4096) mod 64);
     byte_of_Z (0x80 + (c / 64) mod 64); byte_of_Z (0x80 + c mod 64)].

(** The state of the UTF-8 decoder (WHATWG Encoding). *)
Record decoder : Type := {
  code_point : Z;
  bytes_seen : Z;
  bytes_needed : Z;
  lower_boundary : Z;
  upper_boundary : Z
}.

Definition initial : decoder :=
  {| code_point := 0; bytes_seen := 0; bytes_needed := 0;
     lower_boundary := 0x80; upper_boundary := 0xBF |}.

(** The handler on a byte when no continuation byte is awaited: the code
    points emitted and the next state. *)
Definition lead_byte (b : Z) : list Z * decoder :=
  if b <=? 0x7F then ([b], initial)
  else if (0xC2 <=? b) && (b <=? 0xDF) then
    ([], {| code_point := b mod 32; bytes_seen := 0; bytes_needed := 1;
            lower_boundary := 0x80; upper_boundary := 0xBF |})
  else if (0xE0 <=? b) && (b <=? 0xEF) then
    ([], {| code_point := b mod 16; bytes_seen := 0; bytes_needed := 2;
            lower_boundary := if b =? 0xE0 then 0xA0 else 0x80;
            upper_boundary := if b =? 0xED then 0x9F else 0xBF |})
  else if (0xF0 <=? b) && (b <=? 0xF4) then
    ([], {| code_point := b mod 8; bytes_seen := 0; bytes_needed := 3;
            lower_boundary := if b =? 0xF0 then 0x90 else 0x80;
            upper_boundary := if b =? 0xF4 then 0x8F else 0xBF |})
  else ([0xFFFD], initial).

(** The handler on a byte. A byte outside the awaited range is an error:
    U+FFFD is emitted and the byte is handled again from the initial state. *)
Definition step (d : decoder) (b : Z) : list Z * decoder :=
  if bytes_needed d =? 0 then lead_byte b
  else if negb ((lower_boundary d <=? b) && (b <=? upper_boundary d)) then
    let '(out, d') := lead_byte b in (0xFFFD :: out, d')
  else
    let cp := code_point d * 64 + b mod 64 in
    if bytes_seen d + 1 =? bytes_needed d then ([cp], initial)
    else ([], {| code_point := cp; bytes_seen := bytes_seen d + 1;
                 bytes_needed := bytes_needed d;
                 lower_boundary := 0x80; upper_boundary := 0xBF |}).

(** At the end of the input an unfinished sequence is an error. *)
Fixpoint run (d : decoder) (l : list Z) : list Z :=
  match l with
  | [] => if bytes_needed d =? 0 then [] else [0xFFFD]
  | b :: r => let '(out, d') := step d b in out ++ run d' r
  end.

Definition decode_scalars (bs : bytes) : list Z :=
  run initial (map Z_of_byte bs).

(** A [TextDecoder] made without options has [ignoreBOM] false: a first
    code point U+FEFF is not part of the output. *)
Definition strip_bom (cs : list Z) : list Z :=
  match cs with
  | c :: r => if c =? 0xFEFF then r else cs
  | [] => []
  end.

(** A string that is its own [USVString] conversion: every code unit is
    16 bits wide and every surrogate is part of a pair. *)
Fixpoint well_formed (s : jsstring) : bool :=
  match s with
  | [] => true
  | c :: r =>
      if is_lead c then
        match r with
        | d :: r' => is_trail d && well_formed r'
        | [] => false
        end
      else negb (is_trail c) && (0 <=? c) && (c <=? 0xFFFF) && well_formed r
  end.

End Utf8.

(** [new TextEncoder().encode(s)] *)
Definition TextEncoder_encode (s : jsstring) : bytes :=
  flat_map Utf8.encode_scalar (Utf8.scalars_of_units s).

(** [new TextDecoder().decode(bs)]: UTF-8, not fatal, [ignoreBOM] false. *)
Definition TextDecoder_decode (bs : bytes) : jsstring :=
  flat_map Utf8.units_of_scalar (Utf8.strip_bom (Utf8.decode_scalars bs)).

(** The first code unit of [s] is U+FEFF. *)
Definition starts_with_bom (s : jsstring) : bool :=
  match s with
  | c :: _ => c =? 0xFEFF
  | [] => false
  end.

(** ** The cryptographic primitives *)

(** An AES-GCM [CryptoKey] with usages encrypt and decrypt: its key bytes
    (the internal slot no script can read) and its [extractable] attribute. *)
Record CryptoKey : Type := {
  key_bytes : bytes;
  extractable : bool
}.

(** The primitives behind [crypto.subtle]. *)
Class Primitives : Type := {
  (** AES-GCM with a 128-bit tag: key, iv and plaintext give ciphertext and tag. *)
  aes_gcm_encrypt : bytes -> bytes -> bytes -> bytes;
  (** [None] when the tag does not validate. *)
  aes_gcm_decrypt : bytes -> bytes -> bytes -> option bytes;
  (** PBKDF2 with HMAC-SHA-256: password, salt, iterations, 256 bits out. *)
  pbkdf2_sha256 : bytes -> bytes -> Z -> bytes;
  sha256 : bytes -> bytes
}.

(** What the code relies on: decryption inverts encryption, the tag has
    16 bytes, and 256 bits of derived key material are 32 bytes. *)
Class PrimitivesLaws (P : Primitives) : Prop := {
  aes_gcm_decrypt_encrypt :
    forall k iv pt, aes_gcm_decrypt k iv (aes_gcm_encrypt k iv pt) = Some pt;
  aes_gcm_encrypt_length :
    forall k iv pt, length (aes_gcm_encrypt k iv pt) = (length pt + 16)%nat;
  pbkdf2_sha256_length :
    forall password salt iterations,
      length (pbkdf2_sha256 password salt iterations) = 32%nat
}.

(** What becomes of a payload whose base64 text had one code unit
    replaced, when it is still base64: one of its groups of six bits
    changed; one group lost, the later bits moving up (a digit of an
    unpadded text that became whitespace); its last byte lost (a digit that
    became padding); or a byte added at its end (padding that became a
    digit). *)
Inductive tampered (genuine : list Z) : list Z -> Prop :=
  | group_changed (pre : list Z) (s s' : Z) (post : list Z) :
      Base64.sextets_of_bytes genuine = pre ++ s :: post ->
      Base64.is_sextet s' ->
      tampered genuine (Base64.bytes_of_sextets (pre ++ s' :: post))
  | group_lost (pre : list Z) (s : Z) (post : list Z) :
      (length genuine mod 3 = 0)%nat ->
      Base64.sextets_of_bytes genuine = pre ++ s :: post ->
      tampered genuine (Base64.bytes_of_sextets (pre ++ post))
  | byte_lost (x : Z) (rest : list Z) :
      genuine = rest ++ [x] -> tampered genuine rest
  | byte_added (x : Z) :
      is_octet x -> tampered genuine (genuine ++ [x]).

(** The authenticity of AES-GCM, as far as the code relies on it: a
    payload of nonce, ciphertext and tag that was tampered with, and is not
    the payload it was, does not validate under the key. *)
Class Authenticity (P : Primitives) : Prop := {
  aes_gcm_rejects_tampered :
    forall (k iv pt : bytes) (altered : list Z),
      length iv = 12%nat ->
      tampered (map Z_of_byte (iv ++ aes_gcm_encrypt k iv pt)) altered ->
      altered <> map Z_of_byte (iv ++ aes_gcm_encrypt k iv pt) ->
      aes_gcm_decrypt k (firstn 12 (map byte_of_Z altered))
        (skipn 12 (map byte_of_Z altered)) = None
}.

(** [crypto.getRandomValues]: the source of randomness is a tape of bytes;
    a call reads its first [n] bytes and leaves the rest. *)
Definition entropy : Type := nat -> byte.

Definition getRandomValues (n : nat) (e : entropy) : bytes * entropy :=
  (map e (seq 0 n), fun i => e (n + i)%nat).

(** [crypto.subtle.exportKey('raw', key)] *)
Definition subtle_exportKey (key : CryptoKey) : completion bytes :=
  if extractable key then Return (key_bytes key) else Throw InvalidAccessError.

(** [crypto.subtle.importKey('raw', data, {name: 'AES-GCM', length: 256},
    false, ['encrypt', 'decrypt'])]: AES keys have 128, 192 or 256 bits. *)
Definition subtle_importKey_aes (data : bytes) : completion CryptoKey :=
  if (length data =? 16)%nat || (length data =? 24)%nat || (length data =? 32)%nat
  then Return {| key_bytes := data; extractable := false |}
  else Throw DataError.

Section WithPrimitives.

Context {P : Primitives}.

(** [crypto.subtle.deriveBits({name: 'PBKDF2', salt, iterations, hash:
    'SHA-256'}, keyMaterial, 256)]: [iterations] is an [EnforceRange]
    unsigned long, and zero iterations are an [OperationError]. *)
Definition subtle_deriveBits (password salt : bytes) (iterations : Z)
  : completion bytes :=
  if (iterations <? 0) || (4294967295 <? iterations) then Throw TypeError
  else if iterations =? 0 then Throw OperationError
  else Return (pbkdf2_sha256 password salt iterations).

(** *** Key derivation (frontend/src/lib/crypto.ts) *)

Definition PBKDF2_ITERATIONS : Z := 300000.
Definition NONCE_BYTES : nat := 12.

(** [deriveKey(password, salt)]: the derived key is not extractable. *)
Definition deriveKey (password salt : jsstring) : completion CryptoKey :=
  let passwordBuffer := TextEncoder_encode password in
  let saltBuffer := TextEncoder_encode salt in
  let* derived := subtle_deriveBits passwordBuffer saltBuffer PBKDF2_ITERATIONS in
  Return {| key_bytes := derived; extractable := false |}.

(** *** The field cipher of the worker (worker/src/crypto.ts) *)

Definition AES_GCM_NONCE_BYTES : nat := 12.

(** [encrypt(key, plaintext)] *)
Definition encrypt (key : CryptoKey) (plaintext : jsstring) (e : entropy)
  : completion jsstring * entropy :=
  let '(nonce, e') := getRandomValues AES_GCM_NONCE_BYTES e in
  let ciphertext :=
    aes_gcm_encrypt (key_bytes key) nonce (TextEncoder_encode plaintext) in
  let combined := nonce ++ ciphertext in
  (toBase64 combined, e').

(** [decrypt(key, encryptedData)] *)
Definition decrypt (key : CryptoKey) (encryptedData : jsstring)
  : completion jsstring :=
  let* combined := fromBase64 encryptedData in
  let nonce := firstn AES_GCM_NONCE_BYTES combined in
  let ciphertext := skipn AES_GCM_NONCE_BYTES combined in
  match aes_gcm_decrypt (key_bytes key) nonce ciphertext with
  | Some plaintext => Return (TextDecoder_decode plaintext)
  | None => Throw OperationError
  end.

(** *** The field cipher of the client (frontend/src/lib/crypto.ts) *)

(** The calls a function makes to the cipher, in the order it makes them. *)
Inductive subtle_call : Type :=
  | SubtleEncrypt (key : CryptoKey) (iv data : bytes)
  | SubtleDecrypt (key : CryptoKey) (iv data : bytes).

(** [encryptData(data, key)]: the wire string, the randomness left and the
    one call to [crypto.subtle.encrypt]. *)
Definition encryptData (data : jsstring) (key : CryptoKey) (e : entropy)
  : completion jsstring * entropy * list subtle_call :=
  let dataBuffer := TextEncoder_encode data in
  let '(nonce, e') := getRandomValues NONCE_BYTES e in
  let ciphertext := aes_gcm_encrypt (key_bytes key) nonce dataBuffer in
  let combined := nonce ++ ciphertext in
  (toBase64 combined, e', [SubtleEncrypt key nonce dataBuffer]).

(** [decryptData(encryptedData, key)]: when [atob] throws, the cipher is
    not reached. *)
Definition decryptData (encryptedData : jsstring) (key : CryptoKey)
  : completion jsstring * list subtle_call :=
  match fromBase64 encryptedData with
  | Throw err => (Throw err, [])
  | Return combined =>
      let nonce := firstn NONCE_BYTES combined in
      let ciphertext := skipn NONCE_BYTES combined in
      (match aes_gcm_decrypt (key_bytes key) nonce ciphertext with
       | Some decrypted => Return (TextDecoder_decode decrypted)
       | None => Throw OperationError
       end,
       [SubtleDecrypt key nonce ciphertext])
  end.

End WithPrimitives.

(** ** The record codec (frontend/src/lib/crypto.ts) *)

(** The values a field of a record or of a wire record holds:
    [undefined], [null], a string, the Number value for an integer [n]
    ([n] itself up to 2^53 in absolute value, the nearest double beyond),
    or any other value whose conversion to a string returns — a boolean,
    another Number, a BigInt, an array, an object — told by the string
    [str] that [String(value)] returns for it: [''] for [[]],
    ['true'] for [true], ['[object Object]'] for [{}]. *)
Inductive jsvalue : Type :=
  | VUndefined
  | VNull
  | VString (s : jsstring)
  | VNumber (n : Z)
  | VOther (str : jsstring).

#[global] Instance jsvalue_eq_decision : EqDecision jsvalue.
Proof. solve_decision. Defined.

(** *** [Number::toString] for the Number value of an integer *)

(** The Number value for a non-negative integer [a]: [a] itself below
    2^53; from there on the nearest integer with 53 significant bits, the
    one with an even significand when two are as near; [None] is
    [Infinity]. *)
Definition nearest_double (a : Z) : option Z :=
  if a <? 2 ^ 53 then Some a
  else
    let ulp := 2 ^ (Z.log2 a - 52) in
    let q := a / ulp in
    let r := a mod ulp in
    let m := if 2 * r <? ulp then q
             else if ulp <? 2 * r then q + 1
             else if Z.even q then q else q + 1 in
    if 2 ^ 1024 <=? m * ulp then None else Some (m * ulp).

(** The Number value for [v] is [x]. *)
Definition prints_as (v x : Z) : bool :=
  match nearest_double v with
  | Some y => y =? x
  | None => false
  end.

(** The integer whose digits [Number::toString] prints for the Number
    [x], an integer from 2^53 on with [digits] decimal digits: of the
    integers with [k] significant digits whose Number value is [x], for
    the least [k] that has one, the one nearest to [x], and of two as near
    the one whose last significant digit is even. *)
Fixpoint shortest (x : Z) (digits fuel k : nat) : Z :=
  match fuel with
  | O => x
  | S fuel' =>
      let p := 10 ^ Z.of_nat (digits - k) in
      let below := x / p * p in
      let above := below + p in
      match prints_as below x, prints_as above x with
      | true, true =>
          if x - below <? above - x then below
          else if above - x <? x - below then above
          else if Z.even (below / p) then below else above
      | true, false => below
      | false, true => above
      | false, false => shortest x digits fuel' (S k)
      end
  end.

Fixpoint strip_zeros (reversed : jsstring) : jsstring :=
  match reversed with
  | 48 :: rest => strip_zeros rest
  | _ => reversed
  end.

(** The exponential notation of an integer [v] of more than 21 digits:
    its first digit, after a point its other digits up to the last that is
    not 0, and the exponent. *)
Definition exponential (v : Z) : jsstring :=
  let all := decimal v in
  match rev (strip_zeros (rev all)) with
  | [] => all
  | [d] => [d] ++ js "e+" ++ decimal (Z.of_nat (length all) - 1)
  | d :: more => [d] ++ js "." ++ more ++ js "e+" ++ decimal (Z.of_nat (length all) - 1)
  end.

(** [String(x)] for the Number value [x] for the integer [n]. *)
Definition Number_toString (n : Z) : jsstring :=
  let sign := if n <? 0 then js "-" else [] in
  match nearest_double (Z.abs n) with
  | None => sign ++ js "Infinity"
  | Some x =>
      if x <? 2 ^ 53 then sign ++ decimal x
      else
        let digits := length (decimal x) in
        let v := shortest x digits digits 1 in
        if (length (decimal v) <=? 21)%nat then sign ++ decimal v
        else sign ++ exponential v
  end.

(** [String(value)] *)
Definition ToString (v : jsvalue) : jsstring :=
  match v with
  | VUndefined => js "undefined"
  | VNull => js "null"
  | VString s => s
  | VNumber n => Number_toString n
  | VOther str => str
  end.

Definition ENCRYPTED_SUFFIX : jsstring := js "_encrypted".
Definition DECRYPTION_FAILED : jsstring := js "[DECRYPTION FAILED]".

(** [['id', 'user_id', 'date_modified'].includes(fieldKey)] *)
Definition is_passthrough (fieldKey : jsstring) : bool :=
  bool_decide (fieldKey = js "id")
  || bool_decide (fieldKey = js "user_id")
  || bool_decide (fieldKey = js "date_modified").

(** [fieldKey.replace('_encrypted', '')] *)
Definition originalKey (fieldKey : jsstring) : jsstring :=
  remove_first ENCRYPTED_SUFFIX fieldKey.

(** An object is a finite map from the names of its own properties to
    their values; [Object.entries] lists them. *)
Abbreviation jsobject := (gmap jsstring jsvalue).

Section RecordCodec.

Context {P : Primitives}.

(** The loop of [encryptObject] over [Object.entries(obj)]: an [undefined]
    value is skipped, [null] and [''] become [null] without a call of
    [encryptData], anything else is encrypted. *)
Fixpoint encryptObject_loop (entries : list (jsstring * jsvalue))
    (key : CryptoKey) (e : entropy) (encrypted : jsobject)
  : completion jsobject * entropy * list subtle_call :=
  match entries with
  | [] => (Return encrypted, e, [])
  | (fieldKey, value) :: rest =>
      match value with
      | VUndefined => encryptObject_loop rest key e encrypted
      | VNull | VString [] =>
          encryptObject_loop rest key e
            (<[fieldKey ++ ENCRYPTED_SUFFIX := VNull]> encrypted)
      | _ =>
          let '(wire, e', calls) := encryptData (ToString value) key e in
          match wire with
          | Throw err => (Throw err, e', calls)
          | Return w =>
              let '(result, e'', calls') :=
                encryptObject_loop rest key e'
                  (<[fieldKey ++ ENCRYPTED_SUFFIX := VString w]> encrypted) in
              (result, e'', calls ++ calls')
          end
      end
  end.

(** [encryptObject(obj, key)], [entries] being [Object.entries(obj)]. *)
Definition encryptObject (entries : list (jsstring * jsvalue))
    (key : CryptoKey) (e : entropy)
  : completion jsobject * entropy * list subtle_call :=
  encryptObject_loop entries key e ∅.

(** What the callback of [decryptObject] does for one entry. The callback
    is [async]: what comes before its [await] runs while [map] runs, what
    comes after it runs once [decryptData] has settled. A value that is no
    string, or the empty string, gives [null] at once. *)
Inductive field_effect : Type :=
  | WriteNow (name : jsstring) (v : jsvalue)
  | WriteLater (name : jsstring) (v : jsvalue)
  | NoWrite.

(** The value a field of the result gets from a non-empty wire string:
    the plaintext, or the marker when [decryptData] throws. *)
Definition decrypted_value (value : jsstring) (key : CryptoKey) : jsvalue :=
  match fst (decryptData value key) with
  | Return plaintext => VString plaintext
  | Throw _ => VString DECRYPTION_FAILED
  end.

Definition decrypt_field (key : CryptoKey) (entry : jsstring * jsvalue)
  : field_effect :=
  let '(fieldKey, value) := entry in
  if endsWith fieldKey ENCRYPTED_SUFFIX then
    match value with
    | VString ((_ :: _) as s) => WriteLater (originalKey fieldKey) (decrypted_value s key)
    | _ => WriteNow (originalKey fieldKey) VNull
    end
  else if is_passthrough fieldKey then WriteNow fieldKey value
  else NoWrite.

(** The calls of [crypto.subtle.decrypt] that [decryptObject] makes. *)
Definition decrypt_field_calls (key : CryptoKey) (entry : jsstring * jsvalue)
  : list subtle_call :=
  let '(fieldKey, value) := entry in
  if endsWith fieldKey ENCRYPTED_SUFFIX then
    match value with
    | VString ((_ :: _) as s) => snd (decryptData s key)
    | _ => []
    end
  else [].

(** The property of the result that the callback assigns for the input
    property [fieldKey], if it assigns any, and the value it assigns. *)
Definition target (fieldKey : jsstring) : option jsstring :=
  if endsWith fieldKey ENCRYPTED_SUFFIX then Some (originalKey fieldKey)
  else if is_passthrough fieldKey then Some fieldKey
  else None.

Definition written_value (key : CryptoKey) (entry : jsstring * jsvalue) : jsvalue :=
  if endsWith (fst entry) ENCRYPTED_SUFFIX then
    match snd entry with
    | VString ((_ :: _) as s) => decrypted_value s key
    | _ => VNull
    end
  else snd entry.

Definition writes_now (key : CryptoKey) (entries : list (jsstring * jsvalue))
  : list (jsstring * jsvalue) :=
  omap (fun entry => match decrypt_field key entry with
                     | WriteNow k v => Some (k, v)
                     | _ => None
                     end) entries.

Definition writes_later (key : CryptoKey) (entries : list (jsstring * jsvalue))
  : list (jsstring * jsvalue) :=
  omap (fun entry => match decrypt_field key entry with
                     | WriteLater k v => Some (k, v)
                     | _ => None
                     end) entries.

(** Of the assignments that wait for [decryptData]: those whose
    [decryptData] throws in [atob], before it has called the cipher, and
    those whose [decryptData] has called [crypto.subtle.decrypt]. The
    promise of the first kind is rejected when it is returned, and the
    [catch] block runs as a microtask, before any answer of the cipher is
    delivered. *)
Definition reaches_cipher (key : CryptoKey) (entry : jsstring * jsvalue) : bool :=
  match decrypt_field_calls key entry with
  | [] => false
  | _ :: _ => true
  end.

Definition writes_rejected (key : CryptoKey) (entries : list (jsstring * jsvalue))
  : list (jsstring * jsvalue) :=
  writes_later key (filter (fun entry => reaches_cipher key entry = false) entries).

Definition writes_decrypted (key : CryptoKey) (entries : list (jsstring * jsvalue))
  : list (jsstring * jsvalue) :=
  writes_later key (filter (fun entry => reaches_cipher key entry = true) entries).

(** [decrypted[k] = v] on [const decrypted = {}]. For ['__proto__'] the
    assignment finds the accessor that [decrypted] inherits from
    [Object.prototype] and runs its setter, which makes [null] the
    prototype of [decrypted], ignores a string, and creates no property in
    either case. ([decryptObject] assigns to ['__proto__'] at most once,
    and [null] or a string: of the keys of the input only
    ['__proto___encrypted'] has that bare name.) *)
Definition assign (decrypted : jsobject) (w : jsstring * jsvalue) : jsobject :=
  if bool_decide (fst w = js "__proto__") then decrypted
  else <[fst w := snd w]> decrypted.

(** The assignments [ws], one after the other. *)
Definition assign_all (ws : list (jsstring * jsvalue)) (decrypted : jsobject)
  : jsobject :=
  fold_left assign ws decrypted.

(** [decryptObject(encryptedObj, key)], [entries] being
    [Object.entries(encryptedObj)], when the answers of the cipher are
    delivered in the order of the calls. *)
Definition decryptObject (entries : list (jsstring * jsvalue)) (key : CryptoKey)
  : jsobject :=
  assign_all (writes_now key entries ++ writes_rejected key entries
              ++ writes_decrypted key entries) ∅.

(** [decryptObject] when the answers of the cipher are delivered in any
    order: [Promise.all] waits for all of them. *)
Definition decryptObject_settles (entries : list (jsstring * jsvalue))
    (key : CryptoKey) (decrypted : jsobject) : Prop :=
  exists settled,
    Permutation (writes_decrypted key entries) settled
    /\ decrypted = assign_all (writes_now key entries ++ writes_rejected key entries
                               ++ settled) ∅.

End RecordCodec.

(** ** The vault session (frontend/src/store.ts) *)

Record VaultState : Type := {
  masterKey : option CryptoKey;
  userSalt : option jsstring;
  isUnlocked : bool;
  unlockExpiry : option Z
}.

(** What [storeVaultSession] writes under [VAULT_STORAGE_KEY]: the JSON text
    of [{ key: keyArray, expiry }]. *)
Record StoredSession : Type := {
  stored_key : list Z;
  stored_expiry : Z
}.

(** The store and the item of [sessionStorage] under [VAULT_STORAGE_KEY]. *)
Record Tab : Type := {
  vault : VaultState;
  storage : option StoredSession
}.

Definition DEFAULT_UNLOCK_DURATION : Z := 15 * 60 * 1000.

(** The state [create] starts from, at every load of the page. *)
Definition initial_vault : VaultState :=
  {| masterKey := None; userSalt := None; isUnlocked := false; unlockExpiry := None |}.

(** [storeVaultSession(key, duration)]; [now] is what [Date.now()] returns
    once [exportKey] has settled. A failure of [exportKey] is caught and
    logged, and nothing is written. *)
Definition storeVaultSession (key : CryptoKey) (duration now : Z)
    (stored : option StoredSession) : option StoredSession :=
  match subtle_exportKey key with
  | Return exported =>
      Some {| stored_key := map Z_of_byte exported; stored_expiry := now + duration |}
  | Throw _ => stored
  end.

(** [retrieveVaultSession()]: the key, if any, and the item afterwards. *)
Definition retrieveVaultSession (now : Z) (stored : option StoredSession)
  : option CryptoKey * option StoredSession :=
  match stored with
  | None => (None, None)
  | Some s =>
      if stored_expiry s <? now then (None, None)
      else match subtle_importKey_aes (map byte_of_Z (stored_key s)) with
           | Return key => (Some key, stored)
           | Throw _ => (None, None)
           end
  end.

(** [clearVaultSession()] *)
Definition clearVaultSession (stored : option StoredSession) : option StoredSession :=
  None.

(** [setMasterKey(key, rememberFor)]: [now] is what [Date.now()] returns in
    [set], [now'] what it returns in [storeVaultSession]. *)
Definition setMasterKey (key : CryptoKey) (rememberFor : Z) (now now' : Z)
    (t : Tab) : Tab :=
  {| vault := {| masterKey := Some key;
                 userSalt := userSalt (vault t);
                 isUnlocked := true;
                 unlockExpiry := Some (now + rememberFor) |};
     storage := storeVaultSession key rememberFor now' (storage t) |}.

(** [clearMasterKey()] *)
Definition clearMasterKey (t : Tab) : Tab :=
  {| vault := {| masterKey := None;
                 userSalt := userSalt (vault t);
                 isUnlocked := false;
                 unlockExpiry := None |};
     storage := clearVaultSession (storage t) |}.

(** A number is truthy unless it is zero (or NaN). *)
Definition truthy (n : Z) : bool := negb (n =? 0).

(** The condition of [checkUnlockStatus]:
    [state.masterKey && state.unlockExpiry && Date.now() < state.unlockExpiry]. *)
Definition still_unlocked (now : Z) (st : VaultState) : bool :=
  match masterKey st, unlockExpiry st with
  | Some _, Some expiry => truthy expiry && (now <? expiry)
  | _, _ => false
  end.

(** [checkUnlockStatus()]: what it returns, and the tab once the promise of
    [retrieveVaultSession] has settled and its [then] has run. [now] is what
    [Date.now()] returns in [checkUnlockStatus], [now'] what it returns in
    [retrieveVaultSession]. *)
Definition checkUnlockStatus (now now' : Z) (t : Tab) : bool * Tab :=
  let state := vault t in
  if still_unlocked now state then (true, t)
  else
    let '(retrieved, stored) := retrieveVaultSession now' (storage t) in
    (false,
     {| vault := match retrieved with
                 | Some key =>
                     {| masterKey := Some key;
                        userSalt := userSalt state;
                        isUnlocked := true;
                        unlockExpiry := unlockExpiry state |}
                 | None => state
                 end;
        storage := stored |}).

(** A reload of the page: the store starts again, [sessionStorage] is kept. *)
Definition reload (t : Tab) : Tab :=
  {| vault := initial_vault; storage := storage t |}.

(** ** Password hashing and tokens (worker/src/crypto.ts) *)

Definition PBKDF2_ITERATIONS_DEFAULT : Z := 100.
Definition SALT_BYTES : nat := 16.

(** [timingSafeEqual(a, b)] *)
Definition timingSafeEqual (a b : bytes) : bool :=
  if negb (length a =? length b)%nat then false
  else
    let mismatch :=
      fold_left (fun m xy => Z.lor m (Z.lxor (Z_of_byte (fst xy)) (Z_of_byte (snd xy))))
                (combine a b) 0 in
    mismatch =? 0.

(** [b.toString(16).padStart(2, '0')] *)
Definition hex_digit (d : Z) : Z := if d <? 10 then 48 + d else 97 + (d - 10).
Definition hex_byte (b : byte) : jsstring :=
  [hex_digit (Z_of_byte b / 16); hex_digit (Z_of_byte b mod 16)].

Definition is_digit (c : Z) : bool := (48 <=? c) && (c <=? 57).
Definition not_dollar (c : Z) : bool := negb (c =? 36).

(** The longest prefix of [s] whose code units satisfy [p], and the rest. *)
Fixpoint span (p : Z -> bool) (s : jsstring) : jsstring * jsstring :=
  match s with
  | [] => ([], [])
  | c :: r => if p c then let '(a, b) := span p r in (c :: a, b) else ([], s)
  end.

Fixpoint strip_prefix (p s : jsstring) : option jsstring :=
  match p, s with
  | [], _ => Some s
  | _ :: _, [] => None
  | a :: p', b :: s' => if a =? b then strip_prefix p' s' else None
  end.

(** [storedHash.match(/^\$pbkdf2\$(\d+)\$([^$]+)\$([^$]+)$/)]: the three
    groups. No group can give back a code unit to what follows it, so the
    longest spans are the only match. *)
Definition match_pbkdf2 (storedHash : jsstring)
  : option (jsstring * jsstring * jsstring) :=
  match strip_prefix (js "$pbkdf2$") storedHash with
  | None => None
  | Some r1 =>
      let '(iterationsStr, r2) := span is_digit r1 in
      match iterationsStr, r2 with
      | _ :: _, 36 :: r3 =>
          let '(saltB64, r4) := span not_dollar r3 in
          match saltB64, r4 with
          | _ :: _, 36 :: r5 =>
              let '(hashB64, r6) := span not_dollar r5 in
              match hashB64, r6 with
              | _ :: _, [] => Some (iterationsStr, saltB64, hashB64)
              | _, _ => None
              end
          | _, _ => None
          end
      | _, _ => None
      end
  end.

(** [Number(s)] on a string of decimal digits; it is never NaN. *)
Definition Number_of_digits (s : jsstring) : Z :=
  fold_left (fun n c => n * 10 + (c - 48)) s 0.

Section PasswordHasher.

Context {P : Primitives}.

(** [hashToken(token)] *)
Definition hashToken (token : jsstring) : jsstring :=
  flat_map hex_byte (sha256 (TextEncoder_encode token)).

(** [hashPassword(password)] *)
Definition hashPassword (password : jsstring) (e : entropy)
  : completion jsstring * entropy :=
  let '(salt, e') := getRandomValues SALT_BYTES e in
  let passwordBytes := TextEncoder_encode password in
  (let* hashBytes := subtle_deriveBits passwordBytes salt PBKDF2_ITERATIONS_DEFAULT in
   let* saltB64 := toBase64 salt in
   let* hashB64 := toBase64 hashBytes in
   Return (js "$pbkdf2$" ++ decimal PBKDF2_ITERATIONS_DEFAULT ++ js "$"
             ++ saltB64 ++ js "$" ++ hashB64),
   e').

(** The hash string that [hashPassword] returns with the randomness [e]. *)
Definition hash_of (password : jsstring) (e : entropy) : jsstring :=
  match fst (hashPassword password e) with
  | Return h => h
  | Throw _ => []
  end.

(** [verifyPassword(password, storedHash)] *)
Definition verifyPassword (password storedHash : jsstring) : completion bool :=
  if negb (startsWith storedHash (js "$pbkdf2$")) then Return false
  else
    match match_pbkdf2 storedHash with
    | None => Return false
    | Some (iterationsStr, saltB64, hashB64) =>
        let iterations := Number_of_digits iterationsStr in
        let* salt := fromBase64 saltB64 in
        let* expectedHash := fromBase64 hashB64 in
        let* calculated :=
          subtle_deriveBits (TextEncoder_encode password) salt iterations in
        Return (timingSafeEqual calculated expectedHash)
    end.

End PasswordHasher.

(** ** Password reset (worker/src/routes/auth.ts) *)

(** A row of [password_reset_tokens]; [row_expires_at] is
    [new Date(expires_at).getTime()], [None] when that is NaN. *)
Record TokenRow : Type := {
  row_user_id : Z;
  row_expires_at : option Z;
  row_used : Z
}.

(** The tables [resetPassword] reads and writes: [users] by [id] (the
    column [password_hash]), [sessions] by [token] (the column [user_id]),
    [password_reset_tokens] by [token_hash]. *)
Record Database : Type := {
  users : gmap Z jsstring;
  sessions : gmap jsstring Z;
  password_reset_tokens : gmap jsstring TokenRow
}.

(** [c.json(body, status)] *)
Record response : Type := {
  status : Z;
  body : string
}.

(** A request inside [resetPassword]. Every [await] on the database is a
    point where another request can run. *)
Inductive request : Type :=
  | Received (token newPassword : jsstring)
  | Expired (tokenHash : jsstring)
  | Validated (tokenHash : jsstring) (tokenRecord : TokenRow) (newPassword : jsstring)
  | Responded (r : response).

(** The three statements of [c.env.DB.batch], one transaction. *)
Definition reset_batch (passwordHash tokenHash : jsstring) (user_id : Z)
    (db : Database) : Database :=
  {| users := alter (fun _ => passwordHash) user_id (users db);
     sessions := filter (fun s => snd s <> user_id) (sessions db);
     password_reset_tokens :=
       alter (fun r => {| row_user_id := row_user_id r;
                          row_expires_at := row_expires_at r;
                          row_used := 1 |})
             tokenHash (password_reset_tokens db) |}.

Section ResetPassword.

Context {P : Primitives}.

(** [resetPassword] from one [await] on the database to the next:
    - [Received]: the body is validated, the token hashed, the row
      selected and checked;
    - [Expired]: the row is deleted;
    - [Validated]: the new password is hashed and the batch runs. *)
Definition resetPassword_step (now : Z) (req : request) (db : Database)
    (e : entropy) : request * Database * entropy :=
  match req with
  | Received token newPassword =>
      if (length token <? 10)%nat || (length newPassword <? 12)%nat then
        (Responded {| status := 400; body := "Validation failed" |}, db, e)
      else
        let tokenHash := hashToken token in
        match password_reset_tokens db !! tokenHash with
        | None =>
            (Responded {| status := 400; body := "Invalid or expired token" |}, db, e)
        | Some tokenRecord =>
            if truthy (row_used tokenRecord) then
              (Responded {| status := 400; body := "Token already used" |}, db, e)
            else
              match row_expires_at tokenRecord with
              | None => (Expired tokenHash, db, e)
              | Some expires =>
                  if expires <? now then (Expired tokenHash, db, e)
                  else (Validated tokenHash tokenRecord newPassword, db, e)
              end
        end
  | Expired tokenHash =>
      (Responded {| status := 400; body := "Token has expired" |},
       {| users := users db;
          sessions := sessions db;
          password_reset_tokens := delete tokenHash (password_reset_tokens db) |},
       e)
  | Validated tokenHash tokenRecord newPassword =>
      let '(hashed, e') := hashPassword newPassword e in
      match hashed with
      | Throw _ =>
          (Responded {| status := 500; body := "Failed to reset password" |}, db, e')
      | Return passwordHash =>
          (Responded {| status := 200; body := "Password reset successfully." |},
           reset_batch passwordHash tokenHash (row_user_id tokenRecord) db,
           e')
      end
  | Responded r => (req, db, e)
  end.

(** One request run alone, from the body to the response. *)
Definition resetPassword (now : Z) (token newPassword : jsstring)
    (db : Database) (e : entropy) : request * Database * entropy :=
  let '(r1, db1, e1) := resetPassword_step now (Received token newPassword) db e in
  resetPassword_step now r1 db1 e1.

(** Several requests in flight: the schedule names, step by step, the
    request that runs to its next [await]. *)
Fixpoint interleave (schedule : list nat) (now : Z) (reqs : list request)
    (db : Database) (e : entropy) : list request * Database * entropy :=
  match schedule with
  | [] => (reqs, db, e)
  | i :: rest =>
      match reqs !! i with
      | None => interleave rest now reqs db e
      | Some req =>
          let '(req', db', e') := resetPassword_step now req db e in
          interleave rest now (<[i := req']> reqs) db' e'
      end
  end.

End ResetPassword.

(** ** A reference instance of the primitives *)

(** Primitives without any secrecy, to run the code on: the ciphertext is
    the plaintext followed by a 16-byte tag, which is a checksum of key, iv
    and plaintext; key derivation and digest are 32-byte checksums. *)
Module Reference.

Definition checksum (l : bytes) : Z :=
  fold_left (fun acc b => (acc * 31 + Z_of_byte b + 1) mod 65521) l 7.

Definition tag (n : nat) (seed : Z) : bytes :=
  map (fun i => byte_of_Z (seed * (Z.of_nat i + 3) + Z.of_nat i)) (seq 0 n).

Definition gcm_tag (k iv pt : bytes) : bytes :=
  tag 16 (checksum k + 3 * checksum iv + 5 * checksum pt).

Definition gcm_encrypt (k iv pt : bytes) : bytes := pt ++ gcm_tag k iv pt.

Definition gcm_decrypt (k iv c : bytes) : option bytes :=
  let pt := firstn (length c - 16) c in
  if (16 <=? length c)%nat && bool_decide (skipn (length c - 16) c = gcm_tag k iv pt)
  then Some pt else None.

Definition pbkdf2 (password salt : bytes) (iterations : Z) : bytes :=
  tag 32 (checksum password + 3 * checksum salt + iterations).

Definition digest (data : bytes) : bytes := tag 32 (checksum data).

#[export] Instance primitives : Primitives :=
  {| aes_gcm_encrypt := gcm_encrypt;
     aes_gcm_decrypt := gcm_decrypt;
     pbkdf2_sha256 := pbkdf2;
     sha256 := digest |}.

(** A key and a tape of randomness to run examples with. *)
Definition key : CryptoKey :=
  {| key_bytes := tag 32 1; extractable := false |}.
Definition tape : entropy := fun i => byte_of_Z (Z.of_nat i * 7 + 1).

(** The wire string of ["GitHub"] under [key], with the nonce from [tape]. *)
Definition wire_GitHub : jsstring :=
  Eval vm_compute in
    match fst (encrypt key (js "GitHub") tape) with
    | Return w => w
    | Throw _ => []
    end.

(** A wire record with a valid field and a corrupted one. *)
Definition example_record : list (jsstring * jsvalue) :=
  [(js "id", VNumber 7);
   (js "name_encrypted", VString wire_GitHub);
   (js "password_encrypted", VString (js "!!!"));
   (js "note_encrypted", VNull);
   (js "owner", VString (js "root"))].

(** A database with one user, who has a session and an unused reset
    token that expires at time 10000. *)
Definition reset_token : jsstring := js "0123456789abcdef".

Definition database : Database :=
  {| users := {[ 7 := js "$pbkdf2$100$b2xk$b2xk" ]};
     sessions := {[ js "session-of-7" := 7 ]};
     password_reset_tokens :=
       {[ hashToken reset_token :=
            {| row_user_id := 7; row_expires_at := Some 10000; row_used := 0 |} ]} |}.

End Reference.

(** [flip_bit s i b]: the string [s] with bit [b] of its code unit [i] flipped. *)
Definition flip_bit (s : jsstring) (i : nat) (b : Z) : jsstring :=
  alter (fun c => Z.lxor c (2 ^ b)) i s.

(** ** An instance of the primitives that is authentic *)

(** Primitives without any secrecy whose tag notices every payload that
    was tampered with: the tag is a frame of fixed bytes around the
    number that key, nonce and plaintext spell, taken modulo an odd number
    above 2^24. Key derivation and digest are those of [Reference]. *)
Module Framed.

Definition modulus : Z := 4294967291.

(** The number that the bytes spell, the first byte being the most
    significant. *)
Definition number (l : bytes) : Z :=
  fold_left (fun acc b => acc * 256 + Z_of_byte b) l 0.

Definition syndrome (k iv pt : bytes) : Z :=
  (number k + number (iv ++ pt)) mod modulus.

Definition frame_tag (k iv pt : bytes) : bytes :=
  let s := syndrome k iv pt in
  [x03; x04]
    ++ map byte_of_Z [s / 2 ^ 24; s / 2 ^ 16; s / 2 ^ 8; s]
    ++ repeat x00 8
    ++ [x02; x01].

Definition frame_encrypt (k iv pt : bytes) : bytes := pt ++ frame_tag k iv pt.

Definition frame_decrypt (k iv c : bytes) : option bytes :=
  let pt := firstn (length c - 16) c in
  if (16 <=? length c)%nat && bool_decide (skipn (length c - 16) c = frame_tag k iv pt)
  then Some pt else None.

#[export] Instance framed_primitives : Primitives :=
  {| aes_gcm_encrypt := frame_encrypt;
     aes_gcm_decrypt := frame_decrypt;
     pbkdf2_sha256 := Reference.pbkdf2;
     sha256 := Reference.digest |}.

(** The wire string of ["GitHub"] under the key and with the nonce of
    [Reference]. *)
Definition framed_wire : jsstring :=
  Eval vm_compute in
    match fst (encrypt Reference.key (js "GitHub") Reference.tape) with
    | Return w => w
    | Throw _ => []
    end.

End Framed.

(** * More of the code *)

(** ** More of the worker's crypto.ts *)

(** A code unit of [0-9a-f]. *)
Definition is_lower_hex (c : Z) : bool :=
  ((48 <=? c) && (c <=? 57)) || ((97 <=? c) && (c <=? 102)).

(** [generateToken(length)]; [length] defaults to 32, and is at most
    65536, the most that [getRandomValues] fills. The token and the
    randomness left. *)
Definition generateToken (len : nat) (e : entropy) : jsstring * entropy :=
  let '(buffer, e') := getRandomValues len e in
  (flat_map hex_byte buffer, e').

Module Worker.

Section KeyDerivation.

Context {P : Primitives}.

(** [deriveKey(password, salt, iterations)] of the worker; [iterations]
    defaults to [PBKDF2_ITERATIONS_DEFAULT]. *)
Definition deriveKey (password salt : jsstring) (iterations : Z)
  : completion CryptoKey :=
  let* derived :=
    subtle_deriveBits (TextEncoder_encode password) (TextEncoder_encode salt)
                      iterations in
  Return {| key_bytes := derived; extractable := false |}.

End KeyDerivation.

End Worker.

(** ** What the routes accept as an encrypted field (worker/src/routes) *)

(** [encryptedField = z.string().min(1).max(8192)]: whether [value] passes.
    Of the values that are no strings, [jsvalue] has [undefined], [null] and
    the numbers. *)
Definition encryptedField (value : jsvalue) : bool :=
  match value with
  | VString s => (1 <=? Z.of_nat (length s)) && (Z.of_nat (length s) <=? 8192)
  | _ => false
  end.

(** [nullableEncryptedField = z.string().min(1).max(8192).nullable().optional()] *)
Definition nullableEncryptedField (value : jsvalue) : bool :=
  match value with
  | VUndefined | VNull => true
  | _ => encryptedField value
  end.

(** [normalizeEncrypted(value)]; [None] is [null]. *)
Definition normalizeEncrypted (value : jsvalue) : option jsstring :=
  match value with
  | VNull | VUndefined => None
  | VString [] => None
  | VString s => Some s
  | VNumber _ | VOther _ => None
  end.

(** A column that holds a string or NULL, as a value. *)
Definition column (c : option jsstring) : jsvalue :=
  match c with
  | Some s => VString s
  | None => VNull
  end.

(** [s.includes(p)] *)
Fixpoint includes (s p : jsstring) : bool :=
  startsWith s p
  || match s with
     | [] => false
     | _ :: s' => includes s' p
     end.

(** A property of an object; an absent one is [undefined]. *)
Definition member (o : jsobject) (name : string) : jsvalue :=
  default VUndefined (o !! js name).

(** [a ?? b] *)
Definition nullish (a b : jsvalue) : jsvalue :=
  match a with
  | VUndefined | VNull => b
  | _ => a
  end.

(** ** The secrets of a user (worker/src/routes/secrets.ts) *)

Module Secrets.

(** A row of [secrets]. *)
Record SecretRow : Type := {
  user_id : Z;
  secret_name_encrypted : jsstring;
  description_encrypted : option jsstring;
  account_linked_encrypted : option jsstring;
  value_encrypted : jsstring;
  date_modified : jsstring
}.

(** The table by [id], and the largest [id] it ever held: the row that
    [AUTOINCREMENT] keeps in [sqlite_sequence]. *)
Record Table : Type := {
  rows : gmap Z SecretRow;
  sequence : Z
}.

(** What a handler answers: the status, and of the JSON body the members
    that are read here. *)
Inductive reply : Type :=
  | Failure (status : Z) (error : string)
  | Created (id : Z)                                     (* [{ success: true, id }] *)
  | Success                                              (* [{ success: true }] *)
  | Listed (secrets : list (list (jsstring * jsvalue)))  (* [{ secrets }] *)
  | Found (secret : list (jsstring * jsvalue)).          (* [{ secret }] *)

(** [createSecretSchema.parse(body)] succeeds. *)
Definition createSecretSchema (body : jsobject) : bool :=
  encryptedField (member body "secret_name_encrypted")
  && nullableEncryptedField (member body "description_encrypted")
  && nullableEncryptedField (member body "account_linked_encrypted")
  && encryptedField (member body "value_encrypted").

(** A field of [createSecretSchema.partial()]: absent, or as in
    [createSecretSchema]. *)
Definition optional (check : jsvalue -> bool) (value : jsvalue) : bool :=
  match value with
  | VUndefined => true
  | _ => check value
  end.

(** [updateSecretSchema.parse(body)] succeeds. *)
Definition updateSecretSchema (body : jsobject) : bool :=
  optional encryptedField (member body "secret_name_encrypted")
  && nullableEncryptedField (member body "description_encrypted")
  && nullableEncryptedField (member body "account_linked_encrypted")
  && optional encryptedField (member body "value_encrypted").

(** The string of a value that passed [encryptedField]. *)
Definition text (value : jsvalue) : jsstring :=
  match value with
  | VString s => s
  | _ => []
  end.

(** The row object of [SELECT id, secret_name_encrypted,
    description_encrypted, account_linked_encrypted, value_encrypted,
    date_modified]. *)
Definition listed_columns (ir : Z * SecretRow) : list (jsstring * jsvalue) :=
  [(js "id", VNumber (fst ir));
   (js "secret_name_encrypted", VString (secret_name_encrypted (snd ir)));
   (js "description_encrypted", column (description_encrypted (snd ir)));
   (js "account_linked_encrypted", column (account_linked_encrypted (snd ir)));
   (js "value_encrypted", VString (value_encrypted (snd ir)));
   (js "date_modified", VString (date_modified (snd ir)))].

(** The row object of [SELECT *]. *)
Definition all_columns (id : Z) (r : SecretRow) : list (jsstring * jsvalue) :=
  [(js "id", VNumber id);
   (js "user_id", VNumber (user_id r));
   (js "secret_name_encrypted", VString (secret_name_encrypted r));
   (js "description_encrypted", column (description_encrypted r));
   (js "account_linked_encrypted", column (account_linked_encrypted r));
   (js "value_encrypted", VString (value_encrypted r));
   (js "date_modified", VString (date_modified r))].

(** The largest [id] of the table, 0 if it is empty. *)
Definition largest_id (m : gmap Z SecretRow) : Z :=
  map_fold (fun id _ acc => Z.max id acc) 0 m.

(** The [id] that [AUTOINCREMENT] gives the next row: one more than the
    largest the table ever held (which stays below 2^63 - 1). *)
Definition next_id (t : Table) : Z :=
  Z.max (sequence t) (largest_id (rows t)) + 1.

Section Routes.

(** [c.get('userId')] is the number that [isAuthenticated] attached, the
    [id] of a row of [users], or nothing. The path parameter [:id] is a string, bound as it is;
    [id_of_param secretId] is the [id] that SQLite finds equal to it, if
    there is one. The rows of [getSecrets] come in the order [ordered]
    puts them in ([ORDER BY date_modified DESC]). [timestamp] is
    [CURRENT_TIMESTAMP]. *)
Variable id_of_param : jsstring -> option Z.
Variable ordered : list (Z * SecretRow) -> list (Z * SecretRow).

(** The row [WHERE id = ? AND user_id = ?]. *)
Definition owned (secretId : jsstring) (userId : Z) (t : Table)
  : option (Z * SecretRow) :=
  match id_of_param secretId with
  | None => None
  | Some id =>
      match rows t !! id with
      | Some r => if bool_decide (user_id r = userId) then Some (id, r) else None
      | None => None
      end
  end.

(** [getSecrets] *)
Definition getSecrets (userId : option Z) (t : Table) : reply :=
  match userId with
  | None => Failure 401 "Unauthorized"
  | Some userId =>
      Listed (map listed_columns
                  (ordered (map_to_list
                              (filter (fun ir => user_id (snd ir) = userId) (rows t)))))
  end.

(** [getSecret] *)
Definition getSecret (userId : option Z) (secretId : jsstring) (t : Table) : reply :=
  match userId with
  | None => Failure 401 "Unauthorized"
  | Some userId =>
      match owned secretId userId t with
      | None => Failure 404 "Secret not found"
      | Some (id, r) => Found (all_columns id r)
      end
  end.

(** [createSecret]; the body is [None] when [c.req.json()] rejects. The
    body is parsed before the user is looked at. *)
Definition createSecret (userId : option Z) (body : option jsobject)
    (timestamp : jsstring) (t : Table) : reply * Table :=
  match body with
  | None => (Failure 500 "Failed to create secret", t)
  | Some body =>
      if negb (createSecretSchema body) then (Failure 400 "Validation failed", t)
      else
        match userId with
        | None => (Failure 401 "Unauthorized", t)
        | Some userId =>
            let id := next_id t in
            (Created id,
             {| rows :=
                  <[id := {| user_id := userId;
                             secret_name_encrypted :=
                               text (member body "secret_name_encrypted");
                             description_encrypted :=
                               normalizeEncrypted (member body "description_encrypted");
                             account_linked_encrypted :=
                               normalizeEncrypted (member body "account_linked_encrypted");
                             value_encrypted := text (member body "value_encrypted");
                             date_modified := timestamp |}]> (rows t);
                sequence := id |})
        end
  end.

(** The [SET] clauses that [updateSecret] collects, applied to a row. *)
Definition updated (body : jsobject) (timestamp : jsstring) (r : SecretRow)
  : SecretRow :=
  {| user_id := user_id r;
     secret_name_encrypted :=
       match member body "secret_name_encrypted" with
       | VUndefined => secret_name_encrypted r
       | v => text v
       end;
     description_encrypted :=
       match member body "description_encrypted" with
       | VUndefined => description_encrypted r
       | v => normalizeEncrypted v
       end;
     account_linked_encrypted :=
       match member body "account_linked_encrypted" with
       | VUndefined => account_linked_encrypted r
       | v => normalizeEncrypted v
       end;
     value_encrypted :=
       match member body "value_encrypted" with
       | VUndefined => value_encrypted r
       | v => text v
       end;
     date_modified := timestamp |}.

(** [Object.keys(payload)]: of the four fields, those the body has. *)
Definition payload_keys (body : jsobject) : list string :=
  filter (fun name => member body name <> VUndefined)
         ["secret_name_encrypted"; "description_encrypted";
          "account_linked_encrypted"; "value_encrypted"]%string.

(** [updateSecret] *)
Definition updateSecret (userId : option Z) (secretId : jsstring)
    (body : option jsobject) (timestamp : jsstring) (t : Table) : reply * Table :=
  match body with
  | None => (Failure 500 "Failed to update secret", t)
  | Some body =>
      if negb (updateSecretSchema body) then (Failure 400 "Validation failed", t)
      else
        match userId with
        | None => (Failure 401 "Unauthorized", t)
        | Some userId =>
            match owned secretId userId t with
            | None => (Failure 404 "Secret not found", t)
            | Some (id, r) =>
                if bool_decide (payload_keys body = [])
                then (Failure 400 "No updates provided", t)
                else
                  (Success,
                   {| rows := <[id := updated body timestamp r]> (rows t);
                      sequence := sequence t |})
            end
        end
  end.

(** [deleteSecret] *)
Definition deleteSecret (userId : option Z) (secretId : jsstring) (t : Table)
  : reply * Table :=
  match userId with
  | None => (Failure 401 "Unauthorized", t)
  | Some userId =>
      (Success,
       match owned secretId userId t with
       | None => t
       | Some (id, _) => {| rows := delete id (rows t); sequence := sequence t |}
       end)
  end.

End Routes.

End Secrets.

(** ** The page of the secrets (frontend/src/pages/Secrets.tsx) *)

Module SecretsPage.

Record SecretFormData : Type := {
  form_secret_name : jsstring;
  form_description : jsstring;
  form_account_linked : jsstring;
  form_value : jsstring
}.

Record SecretRow : Type := {
  id : jsvalue;
  secret_name : jsstring;
  description : jsstring;
  account_linked : jsstring;
  value : jsstring;
  date_modified : jsstring
}.

(** The object that [onSubmit] hands to [encryptObject]. *)
Definition form_entries (data : SecretFormData) : list (jsstring * jsvalue) :=
  [(js "secret_name", VString (form_secret_name data));
   (js "description", VString (form_description data));
   (js "account_linked", VString (form_account_linked data));
   (js "value", VString (form_value data))].

Section WithPrimitives.

Context {P : Primitives}.

(** [onSubmit(data)]: the payload it sends, when the vault is unlocked;
    nothing is sent when it is not. *)
Definition onSubmit (data : SecretFormData) (masterKey : option CryptoKey)
    (e : entropy) : option (completion jsobject) * entropy :=
  match masterKey with
  | None => (None, e)
  | Some key =>
      let '(payload, e', _) := encryptObject (form_entries data) key e in
      (Some payload, e')
  end.

(** The row that [decryptSecrets] pushes for [secret], [decrypted] being
    what [decryptObject] returned for it. *)
Definition decrypted_row (secret decrypted : jsobject) : SecretRow :=
  {| id := member secret "id";
     secret_name := ToString (nullish (member decrypted "secret_name") (VString []));
     description := ToString (nullish (member decrypted "description") (VString []));
     account_linked :=
       ToString (nullish (member decrypted "account_linked") (VString []));
     value := ToString (nullish (member decrypted "value") (VString []));
     date_modified :=
       ToString (nullish (member decrypted "date_modified")
                         (member secret "date_modified")) |}.

(** [decryptSecrets()]: the rows it sets, the calls of [decryptData]
    settling in the order they were made. *)
Definition decryptSecrets (masterKey : option CryptoKey)
    (encryptedSecrets : list (list (jsstring * jsvalue))) : list SecretRow :=
  match masterKey with
  | None => []
  | Some key =>
      map (fun secret => decrypted_row (list_to_map secret) (decryptObject secret key))
          encryptedSecrets
  end.

End WithPrimitives.

End SecretsPage.

(** ** More of the store (frontend/src/store.ts) and its callers *)

Module AuthStore.

Record User : Type := {
  id : Z;
  username : jsstring;
  email : jsstring;
  role : jsstring
}.

Record AuthState : Type := {
  user : option User;
  token : option jsstring;
  isAuthenticated : bool
}.

(** [clearAuth()] *)
Definition clearAuth (a : AuthState) : AuthState :=
  {| user := None; token := None; isAuthenticated := false |}.

End AuthStore.

(** [setUserSalt(salt)] *)
Definition setUserSalt (salt : option jsstring) (t : Tab) : Tab :=
  {| vault := {| masterKey := masterKey (vault t);
                 userSalt := salt;
                 isUnlocked := isUnlocked (vault t);
                 unlockExpiry := unlockExpiry (vault t) |};
     storage := storage t |}.

(** Layout.tsx, [handleLogout]: [logout] tells whether [api.logout()] was
    fulfilled. The [finally] block runs in either case; a rejection goes
    on to the caller. *)
Definition handleLogout (logout : bool) (a : AuthStore.AuthState) (t : Tab)
  : bool * AuthStore.AuthState * Tab :=
  (logout, AuthStore.clearAuth a, setUserSalt None (clearMasterKey t)).

(** Calls of [checkUnlockStatus], one after the other, each with the two
    times it reads; the promise of one has settled before the next. *)
Fixpoint checkUnlockStatus_all (times : list (Z * Z)) (t : Tab) : list bool * Tab :=
  match times with
  | [] => ([], t)
  | (now, now') :: rest =>
      let '(unlocked, t1) := checkUnlockStatus now now' t in
      let '(answers, t2) := checkUnlockStatus_all rest t1 in
      (unlocked :: answers, t2)
  end.

(** ** Unlocking the vault (frontend/src/components/UnlockVaultModal.tsx) *)

Module UnlockVaultModal.

(** The code units that [trim] removes: WhiteSpace and LineTerminator. *)
Definition is_whitespace (c : Z) : bool :=
  (c =? 0x09) || (c =? 0x0A) || (c =? 0x0B) || (c =? 0x0C) || (c =? 0x0D)
  || (c =? 0x20) || (c =? 0xA0) || (c =? 0x1680)
  || ((0x2000 <=? c) && (c <=? 0x200A))
  || (c =? 0x2028) || (c =? 0x2029) || (c =? 0x202F) || (c =? 0x205F)
  || (c =? 0x3000) || (c =? 0xFEFF).

Fixpoint trimStart (s : jsstring) : jsstring :=
  match s with
  | c :: r => if is_whitespace c then trimStart r else s
  | [] => []
  end.

(** [s.trim()] *)
Definition trim (s : jsstring) : jsstring :=
  rev (trimStart (rev (trimStart s))).

(** The state of the component. *)
Record State : Type := {
  masterPassword : jsstring;
  error : option string;
  isSubmitting : bool
}.

Section WithPrimitives.

Context {P : Primitives}.

(** [handleSubmit], with the [onUnlock] that the pages pass:
    [setMasterKey(key)], then a fetch that catches its own errors. [now]
    and [now'] are the times that [setMasterKey] reads. *)
Definition handleSubmit (st : State) (userSalt : jsstring) (now now' : Z) (t : Tab)
  : State * Tab :=
  match trim (masterPassword st) with
  | [] =>
      ({| masterPassword := masterPassword st;
          error := Some "Master password is required."%string;
          isSubmitting := isSubmitting st |}, t)
  | _ :: _ =>
      match deriveKey (masterPassword st) userSalt with
      | Return key =>
          ({| masterPassword := []; error := None; isSubmitting := false |},
           setMasterKey key DEFAULT_UNLOCK_DURATION now now' t)
      | Throw _ =>
          ({| masterPassword := masterPassword st;
              error := Some "Unable to unlock vault. Please double-check your master password."%string;
              isSubmitting := false |}, t)
      end
  end.

End WithPrimitives.

End UnlockVaultModal.

(** ** The countdown of a code (frontend/src/components/TOTPDisplay.tsx) *)

Module TOTPDisplay.

(** [Math.ceil(a / b)] for integers [a] and [b], [b] positive. *)
Definition ceil_div (a b : Z) : Z := - ((- a) / b).

(** What [updateCode] hands to [setTimeLeft]; [now] is [Date.now()], and
    [%] keeps the sign of [now]. *)
Definition timeLeft (now : Z) : Z :=
  let period := 30000 in
  ceil_div (period - Z.rem now period) 1000.

End TOTPDisplay.

(** ** The mail (worker/src/utils/email.ts) *)

(** Of the bindings of the worker, those that are strings. *)
Record Env : Type := {
  SMTP_FROM : option jsstring;
  APP_BASE_URL : option jsstring
}.

Module Email.

Record SendEmailOptions : Type := {
  to : jsstring;
  subject : jsstring;
  text : jsstring;
  html : option jsstring;
  replyTo : option jsstring
}.

(** A member of [content]. *)
Record Part : Type := {
  part_type : string;
  part_value : jsstring
}.

(** The payload: of [personalizations] the address in [to], the address in
    [from], [subject], [content], and the address in [reply_to]. *)
Record Payload : Type := {
  personalizations_to : jsstring;
  from_email : jsstring;
  payload_subject : jsstring;
  content : list Part;
  reply_to : option jsstring
}.

(** A string that is not empty, if it is there at all. *)
Definition truthy_string (s : option jsstring) : option jsstring :=
  match s with
  | Some (_ :: _) => s
  | _ => None
  end.

(** [buildMailChannelsPayload(from, options)] *)
Definition buildMailChannelsPayload (from : jsstring) (options : SendEmailOptions)
  : Payload :=
  {| personalizations_to := to options;
     from_email := from;
     payload_subject := subject options;
     content :=
       {| part_type := "text/plain"; part_value := text options |}
       :: match truthy_string (html options) with
          | Some h => [{| part_type := "text/html"; part_value := h |}]
          | None => []
          end;
     reply_to := truthy_string (replyTo options) |}.

(** [sendEmail(env, options)]: whether it returns ([false] when it
    throws), and the requests it made. [fetch] is the network: for a
    request, whether the response is [ok], or [None] when [fetch]
    rejects. *)
Definition sendEmail (fetch : Payload -> option bool) (env : Env)
    (options : SendEmailOptions) : bool * list Payload :=
  match truthy_string (SMTP_FROM env) with
  | None => (false, [])
  | Some from =>
      let payload := buildMailChannelsPayload from options in
      (match fetch payload with
       | Some ok => ok
       | None => false
       end,
       [payload])
  end.

End Email.

(** ** The administrator's routes (worker/src/routes/admin.ts) *)

Module Admin.

Definition RESET_TOKEN_EXPIRY_MINUTES : Z := 60.

(** [s.replace(/\/$/, '')] *)
Definition strip_slash (s : jsstring) : jsstring :=
  match rev s with
  | c :: r => if c =? 47 then rev r else s
  | [] => s
  end.

(** [resolveBaseUrl(env, requestOrigin)] *)
Definition resolveBaseUrl (env : Env) (requestOrigin : option jsstring)
  : option jsstring :=
  match Email.truthy_string (APP_BASE_URL env) with
  | Some url => Some (strip_slash url)
  | None =>
      match Email.truthy_string requestOrigin with
      | Some origin => Some (strip_slash origin)
      | None => None
      end
  end.

(** The columns [email] and [username] of a row of [users]; [Database]
    has its column [password_hash]. *)
Record Contact : Type := {
  email : jsstring;
  username : jsstring
}.

(** The link, and the two bodies of the mail. *)
Definition resetLink (baseUrl resetToken : jsstring) : jsstring :=
  baseUrl ++ js "/reset-password?token=" ++ resetToken.

Definition textBody (user : Contact) (link : jsstring) : jsstring :=
  js "Hello " ++ username user ++ js ",

A password reset request was initiated for your AccManager account. If you made this request, follow the secure link below to set a new password:

" ++ link ++ js "

This link expires in " ++ decimal RESET_TOKEN_EXPIRY_MINUTES
  ++ js " minutes. If you did not request this reset, you can safely ignore this email.

Stay secure,
AccManager".

(** U+0022, the quotation mark. *)
Definition quote : jsstring := [34].

Definition htmlBody (user : Contact) (link : jsstring) : jsstring :=
  js "
      <p>Hello " ++ username user ++ js ",</p>
      <p>A password reset request was initiated for your AccManager account. If you made this request, click the button below to choose a new password.</p>
      <p><a href=" ++ quote ++ link ++ quote ++ js " style=" ++ quote
  ++ js "display:inline-block;padding:12px 20px;background-color:#2563eb;color:#ffffff;text-decoration:none;border-radius:6px;"
  ++ quote ++ js ">Reset Password</a></p>
      <p>This link expires in " ++ decimal RESET_TOKEN_EXPIRY_MINUTES
  ++ js " minutes.</p>
      <p>If you did not request this reset, you can ignore this email.</p>
      <p>Stay secure,<br/>AccManager</p>
    ".

Section WithPrimitives.

Context {P : Primitives}.

(** [forceResetPassword]; [userId] is [Number(userIdParam)], an integer,
    or [None] when that is NaN, and [newPassword] the member of the body,
    a string. The three statements run one after the other. *)
Definition forceResetPassword (userId : option Z) (newPassword : jsstring)
    (db : Database) (e : entropy) : response * Database * entropy :=
  match userId with
  | None => ({| status := 400; body := "Invalid user ID" |}, db, e)
  | Some userId =>
      if (length newPassword <? 12)%nat
      then ({| status := 400; body := "Validation failed" |}, db, e)
      else
        let '(hashed, e') := hashPassword newPassword e in
        match hashed with
        | Throw _ => ({| status := 500; body := "Failed to reset password" |}, db, e')
        | Return passwordHash =>
            ({| status := 200; body := "Password reset successfully" |},
             {| users := alter (fun _ => passwordHash) userId (users db);
                sessions := filter (fun s => snd s <> userId) (sessions db);
                password_reset_tokens :=
                  filter (fun r => row_user_id (snd r) <> userId)
                         (password_reset_tokens db) |},
             e')
        end
  end.

(** [sendResetLink]; [userId] is [Number(userIdParam)], an integer, or
    [None] when that is NaN; [origin] and [referer] are the headers of the request; [now]
    is [Date.now()]. The batch is one transaction: when the new row
    cannot be inserted, because its [token_hash] is that of a row of
    another user, nothing is deleted either. *)
Definition sendResetLink (fetch : Email.Payload -> option bool) (env : Env)
    (userId : option Z) (origin referer : option jsstring) (now : Z)
    (contacts : gmap Z Contact) (db : Database) (e : entropy)
  : response * Database * entropy * list Email.Payload :=
  match userId with
  | None => ({| status := 400; body := "Invalid user ID" |}, db, e, [])
  | Some userId =>
      match contacts !! userId with
      | None => ({| status := 404; body := "User not found" |}, db, e, [])
      | Some user =>
          let '(resetToken, e') := generateToken 48 e in
          let resetTokenHash := hashToken resetToken in
          let expiresAt := now + RESET_TOKEN_EXPIRY_MINUTES * 60 * 1000 in
          let others :=
            filter (fun r => row_user_id (snd r) <> userId) (password_reset_tokens db) in
          match others !! resetTokenHash with
          | Some _ =>
              ({| status := 500; body := "Failed to send reset link" |}, db, e', [])
          | None =>
              let db' :=
                {| users := users db;
                   sessions := sessions db;
                   password_reset_tokens :=
                     <[resetTokenHash := {| row_user_id := userId;
                                            row_expires_at := Some expiresAt;
                                            row_used := 0 |}]> others |} in
              match Email.truthy_string
                      (resolveBaseUrl env (match origin with
                                           | Some _ => origin
                                           | None => referer
                                           end)) with
              | None =>
                  ({| status := 500;
                      body := "Unable to resolve application base URL for reset link sending." |},
                   db', e', [])
              | Some baseUrl =>
                  let link := resetLink baseUrl resetToken in
                  let '(sent, requests) :=
                    Email.sendEmail fetch env
                      {| Email.to := email user;
                         Email.subject := js "AccManager Password Reset";
                         Email.text := textBody user link;
                         Email.html := Some (htmlBody user link);
                         Email.replyTo := None |} in
                  if sent
                  then ({| status := 200; body := "Reset link sent successfully." |},
                        db', e', requests)
                  else ({| status := 500; body := "Failed to send reset link" |},
                        db', e', requests)
              end
          end
      end
  end.

End WithPrimitives.

End Admin.

(** ** Sessions (worker/src/routes/auth.ts, worker/src/middleware.ts) *)

Module Auth.

(** A row of [users], by [id]. *)
Record UserRow : Type := {
  username : jsstring;
  email : jsstring;
  password_hash : jsstring;
  role : jsstring
}.

(** A row of [sessions], by [token]; [expires_at] is
    [new Date(expires_at).getTime()], [None] when that is NaN. *)
Record SessionRow : Type := {
  user_id : Z;
  expires_at : option Z
}.

Record Tables : Type := {
  users : gmap Z UserRow;
  sessions : gmap jsstring SessionRow
}.

(** What [login] answers. *)
Inductive login_reply : Type :=
  | LoginFailure (r : response)
  | LoggedIn (token : jsstring) (id : Z) (username email role : jsstring).

(** What [isAuthenticated] sets in the context. *)
Record Variables : Type := {
  userId : Z;
  ctx_username : jsstring;
  ctx_email : jsstring;
  ctx_role : jsstring
}.

(** What a middleware does with a request: it answers, or it calls
    [next()]. *)
Inductive passage (A : Type) : Type :=
  | Answer (r : response)
  | Next (a : A).
Arguments Answer {A} r.
Arguments Next {A} a.

(** The row [WHERE username = ?]; the column is [UNIQUE]. *)
Definition by_username (name : jsstring) (us : gmap Z UserRow) : option (Z * UserRow) :=
  head (map_to_list (filter (fun ir => username (snd ir) = name) us)).

(** A week, in a clock without daylight saving ([setDate(getDate() + 7)]). *)
Definition SESSION_MS : Z := 7 * 24 * 60 * 60 * 1000.

(** [authHeader.substring(7)] of a header that starts with ['Bearer ']. *)
Definition bearer (authHeader : option jsstring) : option jsstring :=
  match authHeader with
  | Some h => if startsWith h (js "Bearer ") then Some (skipn 7 h) else None
  | None => None
  end.

Section WithPrimitives.

Context {P : Primitives}.

(** [login]; [name] and [password] are the members [username] and
    [password] of the body, two strings as [loginSchema] asks; [now] is
    [new Date()]. *)
Definition login (name password : jsstring) (now : Z) (t : Tables) (e : entropy)
  : login_reply * Tables * entropy :=
  match by_username name (users t) with
  | None => (LoginFailure {| status := 401; body := "Invalid credentials" |}, t, e)
  | Some (id, user) =>
      match verifyPassword password (password_hash user) with
      | Throw _ => (LoginFailure {| status := 500; body := "Login failed" |}, t, e)
      | Return false =>
          (LoginFailure {| status := 401; body := "Invalid credentials" |}, t, e)
      | Return true =>
          let '(sessionToken, e') := generateToken 32 e in
          match sessions t !! sessionToken with
          | Some _ =>
              (LoginFailure {| status := 500; body := "Login failed" |}, t, e')
          | None =>
              (LoggedIn sessionToken id (username user) (email user) (role user),
               {| users := users t;
                  sessions :=
                    <[sessionToken := {| user_id := id;
                                         expires_at := Some (now + SESSION_MS) |}]>
                      (sessions t) |},
               e')
          end
      end
  end.

End WithPrimitives.

(** [logout] *)
Definition logout (authHeader : option jsstring) (t : Tables) : response * Tables :=
  match bearer authHeader with
  | None => ({| status := 400; body := "No session to logout" |}, t)
  | Some token =>
      ({| status := 200; body := "Logged out successfully" |},
       {| users := users t; sessions := delete token (sessions t) |})
  end.

(** [isAuthenticated]; [now] is [new Date()]. A session whose date cannot
    be read is not expired: [now > expiresAt] is false for it. *)
Definition isAuthenticated (authHeader : option jsstring) (now : Z) (t : Tables)
  : passage Variables * Tables :=
  match bearer authHeader with
  | None => (Answer {| status := 401; body := "Unauthorized" |}, t)
  | Some token =>
      match sessions t !! token with
      | None => (Answer {| status := 401; body := "Invalid or expired session" |}, t)
      | Some session =>
          match users t !! user_id session with
          | None =>
              (Answer {| status := 401; body := "Invalid or expired session" |}, t)
          | Some user =>
              if match expires_at session with
                 | Some expiresAt => expiresAt <? now
                 | None => false
                 end
              then (Answer {| status := 401; body := "Session expired" |},
                    {| users := users t; sessions := delete token (sessions t) |})
              else (Next {| userId := user_id session;
                            ctx_username := username user;
                            ctx_email := email user;
                            ctx_role := role user |}, t)
          end
      end
  end.

(** [isAdmin] *)
Definition isAdmin (v : Variables) : passage Variables :=
  if bool_decide (ctx_role v = js "admin") then Next v
  else Answer {| status := 403; body := "Forbidden: Admin access required" |}.

(** A route of the administrator: [isAuthenticated], then [isAdmin]. *)
Definition admin_route (authHeader : option jsstring) (now : Z) (t : Tables)
  : passage Variables * Tables :=
  match isAuthenticated authHeader now t with
  | (Next v, t') => (isAdmin v, t')
  | refused => refused
  end.

End Auth.

(** ** Data to run the routes and the pages on *)

Module Examples.

(** A key that can be exported. *)
Definition exportable_key : CryptoKey :=
  {| key_bytes := Reference.tag 32 1; extractable := true |}.

(** A record as a form holds it. *)
Definition record : list (jsstring * jsvalue) :=
  [(js "name", VString (js "GitHub"));
   (js "note", VString []);
   (js "issuer", VNull);
   (js "digits", VNumber 6);
   (js "serial", VNumber (10 ^ 21));
   (js "tags", VOther []);
   (js "__proto__", VString (js "x"))].

Definition form : SecretsPage.SecretFormData :=
  {| SecretsPage.form_secret_name := js "deploy key";
     SecretsPage.form_description := [];
     SecretsPage.form_account_linked := js "GitHub";
     SecretsPage.form_value := js "s3cret" |}.

(** A table with a secret of user 8. *)
Definition secrets : Secrets.Table :=
  {| Secrets.rows :=
       {[ 1 := {| Secrets.user_id := 8;
                  Secrets.secret_name_encrypted := Reference.wire_GitHub;
                  Secrets.description_encrypted := None;
                  Secrets.account_linked_encrypted := None;
                  Secrets.value_encrypted := Reference.wire_GitHub;
                  Secrets.date_modified := js "2024-05-01 10:00:00" |} ]};
     Secrets.sequence := 1 |}.

(** The path parameter ["1"] is the [id] 1. *)
Definition id_of_param (secretId : jsstring) : option Z :=
  if bool_decide (secretId = js "1") then Some 1 else None.

Definition env : Env :=
  {| SMTP_FROM := Some (js "vault@example.org");
     APP_BASE_URL := Some (js "https://vault.example.org/") |}.

Definition contacts : gmap Z Admin.Contact :=
  {[ 7 := {| Admin.email := js "root@example.org"; Admin.username := js "root" |} ]}.

(** What [hashPassword] stores for the password of user 7. *)
Definition password : jsstring := js "correct horse battery".

Definition password_hash : jsstring :=
  Eval vm_compute in
    match fst (@hashPassword Reference.primitives password Reference.tape) with
    | Return h => h
    | Throw _ => []
    end.

Definition tables : Auth.Tables :=
  {| Auth.users :=
       {[ 7 := {| Auth.username := js "root";
                  Auth.email := js "root@example.org";
                  Auth.password_hash := password_hash;
                  Auth.role := js "admin" |} ]};
     Auth.sessions := ∅ |}.

End Examples.

(** * Facts *)

(** ** Bytes *)

Lemma Z_of_byte_range (b : byte) : 0 <= Z_of_byte b < 256.
Proof.
  unfold Z_of_byte. pose proof (Byte.to_N_bounded b). lia.
Qed.

Lemma byte_of_Z_of_byte (b : byte) : byte_of_Z (Z_of_byte b) = b.
Proof.
  unfold byte_of_Z. pose proof (Z_of_byte_range b).
  rewrite Z.mod_small by lia. unfold Z_of_byte.
  rewrite N2Z.id, Byte.of_to_N. reflexivity.
Qed.

Lemma Z_of_byte_of_Z (z : Z) : 0 <= z < 256 -> Z_of_byte (byte_of_Z z) = z.
Proof.
  intros Hz. unfold byte_of_Z, Z_of_byte. rewrite Z.mod_small by lia.
  destruct (Byte.of_N (Z.to_N z)) as [b|] eqn:Hb.
  - apply Byte.to_of_N in Hb. lia.
  - apply Byte.of_N_None_iff in Hb. lia.
Qed.

Lemma map_byte_of_Z_of_byte (bs : bytes) : map byte_of_Z (map Z_of_byte bs) = bs.
Proof.
  induction bs as [|b bs IH]; simpl; [reflexivity|].
  now rewrite byte_of_Z_of_byte, IH.
Qed.

Lemma Forall_octet (bs : bytes) : Forall is_octet (map Z_of_byte bs).
Proof.
  induction bs; simpl; constructor; [apply Z_of_byte_range | assumption].
Qed.

(** ** Base64 *)

Module Base64Facts.
Import Base64.

(** Induction over a list three elements at a time. *)
Lemma list_ind3 {A} (Q : list A -> Prop) :
  Q [] -> (forall a, Q [a]) -> (forall a b, Q [a; b]) ->
  (forall a b c r, Q r -> Q (a :: b :: c :: r)) ->
  forall l, Q l.
Proof.
  intros H0 H1 H2 H3.
  fix IH 1. intros [|a [|b [|c r]]];
    [apply H0 | apply H1 | apply H2 | apply H3, IH].
Qed.

Lemma sextet_of_char_of_sextet s :
  is_sextet s -> sextet_of_char (char_of_sextet s) = Some s.
Proof.
  unfold is_sextet, sextet_of_char, char_of_sextet. intros Hs.
  repeat match goal with
         | |- context [?a <? ?b] => destruct (Z.ltb_spec a b)
         | |- context [?a =? ?b] => destruct (Z.eqb_spec a b)
         | |- context [?a <=? ?b] => destruct (Z.leb_spec a b)
         end; simpl; try (f_equal; lia); lia.
Qed.

Lemma sextets_of_bytes_range l :
  Forall is_octet l -> Forall is_sextet (sextets_of_bytes l).
Proof.
  unfold is_octet, is_sextet.
  induction l as [|a|a b|a b c r IH] using list_ind3; intros Hl; simpl.
  - constructor.
  - inversion_clear Hl. repeat constructor; Z.div_mod_to_equations; lia.
  - inversion_clear Hl as [|? ? ? Hb]. inversion_clear Hb.
    repeat constructor; Z.div_mod_to_equations; lia.
  - inversion_clear Hl as [|? ? ? Hb]. inversion_clear Hb as [|? ? ? Hc].
    inversion_clear Hc.
    repeat (constructor; [Z.div_mod_to_equations; lia|]). auto.
Qed.

Lemma bytes_of_sextets_of_bytes l :
  Forall is_octet l -> bytes_of_sextets (sextets_of_bytes l) = l.
Proof.
  unfold is_octet.
  induction l as [|a|a b|a b c r IH] using list_ind3; intros Hl; simpl.
  - reflexivity.
  - inversion_clear Hl. f_equal. Z.div_mod_to_equations; lia.
  - inversion_clear Hl as [|? ? ? Hb]. inversion_clear Hb.
    f_equal; [|f_equal]; Z.div_mod_to_equations; lia.
  - inversion_clear Hl as [|? ? ? Hb]. inversion_clear Hb as [|? ? ? Hc].
    inversion_clear Hc.
    rewrite IH by assumption.
    f_equal; [|f_equal; [|f_equal]]; Z.div_mod_to_equations; lia.
Qed.

Lemma sextets_of_chars_of_sextets ss :
  Forall is_sextet ss -> sextets_of_chars (map char_of_sextet ss) = Some ss.
Proof.
  induction 1 as [|s ss Hs _ IH]; simpl; [reflexivity|].
  now rewrite sextet_of_char_of_sextet, IH.
Qed.

Lemma in_alphabet_char_of_sextet s : is_sextet s -> in_alphabet (char_of_sextet s).
Proof. intros Hs. red. rewrite sextet_of_char_of_sextet; eauto. Qed.

Lemma in_alphabet_inv c :
  in_alphabet c -> is_ascii_whitespace c = false /\ c <> 61 /\ c <> 36.
Proof.
  unfold in_alphabet, sextet_of_char, is_ascii_whitespace. intros [s Hs].
  repeat match type of Hs with
         | context [?a <=? ?b] => destruct (Z.leb_spec a b)
         | context [?a =? ?b] => destruct (Z.eqb_spec a b)
         end; simpl in Hs; try discriminate;
    (split; [|lia]);
    repeat match goal with
           | |- context [?a =? ?b] => destruct (Z.eqb_spec a b); try lia
           end; reflexivity.
Qed.

Lemma body_in_alphabet l :
  Forall is_octet l -> Forall in_alphabet (map char_of_sextet (sextets_of_bytes l)).
Proof.
  intros Hl. apply sextets_of_bytes_range in Hl.
  induction Hl; simpl; constructor; auto using in_alphabet_char_of_sextet.
Qed.

Lemma padding_cases n : padding n = [] \/ padding n = [61] \/ padding n = [61; 61].
Proof.
  unfold padding. destruct (n mod 3)%nat as [|[|[|?]]]; auto.
Qed.

Lemma filter_whitespace_id (s : jsstring) :
  Forall (fun c => is_ascii_whitespace c = false) s ->
  filter (fun c => negb (is_ascii_whitespace c)) s = s.
Proof.
  induction 1 as [|c s Hc _ IH]; [reflexivity|].
  rewrite filter_cons_True by (rewrite Hc; exact I). now rewrite IH.
Qed.

Lemma strip_equals_snoc (s : jsstring) : strip_equals (s ++ [61]) = Some s.
Proof.
  unfold strip_equals. rewrite rev_app_distr. simpl. now rewrite rev_involutive.
Qed.

Lemma strip_equals_alphabet (s : jsstring) :
  Forall in_alphabet s -> strip_equals s = None.
Proof.
  intros Hs. unfold strip_equals.
  destruct (rev s) as [|c r] eqn:Hrev; [reflexivity|].
  assert (Hin : In c s) by (apply in_rev; rewrite Hrev; now left).
  rewrite Forall_forall in Hs.
  assert (Hc : in_alphabet c) by (apply Hs, list_elem_of_In, Hin).
  apply in_alphabet_inv in Hc as (_ & Hc & _).
  destruct (Z.eqb_spec c 61); [contradiction|reflexivity].
Qed.

Lemma strip_padding_encode (s pad : jsstring) :
  Forall in_alphabet s ->
  pad = [] \/ pad = [61] \/ pad = [61; 61] ->
  strip_padding (s ++ pad) = s.
Proof.
  intros Hs [-> | [-> | ->]]; unfold strip_padding.
  - rewrite app_nil_r. now rewrite strip_equals_alphabet.
  - rewrite strip_equals_snoc. now rewrite strip_equals_alphabet.
  - change [61; 61] with ([61] ++ [61]). rewrite app_assoc.
    rewrite !strip_equals_snoc. reflexivity.
Qed.

(** The length of the sextets and of the padding, by the length modulo 3. *)
Lemma encode_lengths l :
  ((length (sextets_of_bytes l) + length (padding (length l))) mod 4 = 0
   /\ (length (sextets_of_bytes l)) mod 4 <> 1)%nat.
Proof.
  induction l as [|a|a b|a b c r [IH1 IH2]] using list_ind3;
    [split; [reflexivity|discriminate].. |].
  assert (Hpad : padding (length (a :: b :: c :: r)) = padding (length r)).
  { unfold padding. cbn [length].
    replace (S (S (S (length r)))) with (length r + 1 * 3)%nat by lia.
    now rewrite Nat.Div0.mod_add. }
  rewrite Hpad. cbn [sextets_of_bytes length].
  split.
  - replace (S (S (S (S (length (sextets_of_bytes r)))))
             + length (padding (length r)))%nat
      with ((length (sextets_of_bytes r) + length (padding (length r)))
            + 1 * 4)%nat by lia.
    now rewrite Nat.Div0.mod_add.
  - replace (S (S (S (S (length (sextets_of_bytes r))))))
      with (length (sextets_of_bytes r) + 1 * 4)%nat by lia.
    now rewrite Nat.Div0.mod_add.
Qed.

(** Decoding inverts encoding. *)
Lemma decode_encode l : Forall is_octet l -> decode (encode l) = Some l.
Proof.
  intros Hl. unfold decode, encode.
  pose proof (body_in_alphabet l Hl) as Hbody.
  pose proof (padding_cases (length l)) as Hpad.
  destruct (encode_lengths l) as [Hlen4 Hlen1].
  rewrite filter_whitespace_id.
  2:{ apply Forall_app. split.
      - eapply Forall_impl; [exact Hbody|]. intros c Hc.
        now apply in_alphabet_inv in Hc.
      - destruct Hpad as [-> | [-> | ->]]; repeat constructor. }
  rewrite length_app, length_map, Hlen4, Nat.eqb_refl.
  rewrite strip_padding_encode by assumption.
  rewrite length_map.
  destruct (Nat.eqb_spec (length (sextets_of_bytes l) mod 4) 1); [contradiction|].
  rewrite sextets_of_chars_of_sextets by now apply sextets_of_bytes_range.
  simpl. now rewrite bytes_of_sextets_of_bytes.
Qed.

End Base64Facts.

(** *** Bits that base64 decoding discards *)

Module Base64Flip.
Import Base64 Base64Facts.

Lemma mod3_step (n : nat) : (S (S (S n)) mod 3 = n mod 3)%nat.
Proof.
  replace (S (S (S n))) with (n + 1 * 3)%nat by lia. apply Nat.Div0.mod_add.
Qed.

Lemma sextets_of_bytes_app (pre t : list Z) :
  (length pre mod 3 = 0)%nat ->
  sextets_of_bytes (pre ++ t) = sextets_of_bytes pre ++ sextets_of_bytes t.
Proof.
  induction pre as [|a|a b|a b c r IH] using list_ind3; intros Hlen.
  - reflexivity.
  - discriminate.
  - discriminate.
  - cbn [length] in Hlen. rewrite mod3_step in Hlen.
    cbn [app sextets_of_bytes]. now rewrite IH.
Qed.

Lemma bytes_of_sextets_app (pre t : list Z) :
  Forall is_octet pre -> (length pre mod 3 = 0)%nat ->
  bytes_of_sextets (sextets_of_bytes pre ++ t) = pre ++ bytes_of_sextets t.
Proof.
  unfold is_octet.
  induction pre as [|a|a b|a b c r IH] using list_ind3; intros Hpre Hlen.
  - reflexivity.
  - discriminate.
  - discriminate.
  - cbn [length] in Hlen. rewrite mod3_step in Hlen.
    inversion_clear Hpre as [|? ? ? Hb]. inversion_clear Hb as [|? ? ? Hc].
    inversion_clear Hc.
    cbn [app sextets_of_bytes bytes_of_sextets]. rewrite IH by assumption.
    f_equal; [|f_equal; [|f_equal]]; Z.div_mod_to_equations; lia.
Qed.

(** For each value of the last, half-used digit there is a bit whose flip
    gives another digit with the same two data bits. *)
Lemma spare_bit (x : Z) :
  is_octet x ->
  exists b s',
    Z.lxor (char_of_sextet ((x mod 4) * 16)) (2 ^ b) = char_of_sextet s'
    /\ is_sextet s' /\ s' / 16 = x mod 4
    /\ char_of_sextet s' <> char_of_sextet ((x mod 4) * 16).
Proof.
  intros Hx. unfold is_octet in Hx.
  assert (Hcases : x mod 4 = 0 \/ x mod 4 = 1 \/ x mod 4 = 2 \/ x mod 4 = 3)
    by (Z.div_mod_to_equations; lia).
  unfold is_sextet.
  destruct Hcases as [-> | [-> | [-> | ->]]].
  - exists 1, 2. vm_compute. repeat split; congruence.
  - exists 1, 18. vm_compute. repeat split; congruence.
  - exists 3, 40. vm_compute. repeat split; congruence.
  - exists 6, 59. vm_compute. repeat split; congruence.
Qed.

(** Base64 text of bytes that leave a half-used last digit has a bit
    whose flip [atob] does not see. *)
Lemma undetected_flip (bs : list Z) :
  Forall is_octet bs -> (length bs mod 3 = 1)%nat ->
  exists i b,
    flip_bit (encode bs) i b <> encode bs
    /\ decode (flip_bit (encode bs) i b) = Some bs.
Proof.
  intros Hbs Hlen.
  destruct (encode_lengths bs) as [Hlen4 Hlen1].
  destruct bs as [|x0 bs0] using rev_ind; [discriminate|]. clear IHbs0.
  rename bs0 into pre, x0 into x.
  apply Forall_app in Hbs as [Hpre Hx]. inversion_clear Hx as [|? ? Hx' _].
  assert (Hpre3 : (length pre mod 3 = 0)%nat).
  { rewrite length_app in Hlen. cbn [length] in Hlen.
    pose proof (Nat.div_mod_eq (length pre + 1) 3).
    pose proof (Nat.div_mod_eq (length pre) 3).
    pose proof (Nat.mod_upper_bound (length pre) 3). lia. }
  destruct (spare_bit x Hx') as (b & s' & Hflip & Hs' & Hdata & Hdiff).
  assert (Henc : encode (pre ++ [x])
                 = map char_of_sextet (sextets_of_bytes pre)
                     ++ [char_of_sextet (x / 4); char_of_sextet ((x mod 4) * 16);
                         61; 61]).
  { unfold encode. rewrite sextets_of_bytes_app by assumption.
    unfold padding. rewrite Hlen. cbn [sextets_of_bytes].
    now rewrite map_app, <- app_assoc. }
  exists (length (map char_of_sextet (sextets_of_bytes pre)) + 1)%nat, b.
  assert (Hflipped :
            flip_bit (encode (pre ++ [x]))
              (length (map char_of_sextet (sextets_of_bytes pre)) + 1) b
            = map char_of_sextet (sextets_of_bytes pre ++ [x / 4; s']) ++ [61; 61]).
  { rewrite Henc. unfold flip_bit. rewrite alter_app_r. cbn [alter list_alter].
    rewrite Hflip. now rewrite map_app, <- app_assoc. }
  split.
  - rewrite Hflipped, Henc, map_app, <- app_assoc. intros Heq.
    apply app_inv_head in Heq. cbn in Heq. congruence.
  - rewrite Hflipped.
    assert (Hsx : Forall is_sextet (sextets_of_bytes pre ++ [x / 4; s'])).
    { apply Forall_app. split; [now apply sextets_of_bytes_range|].
      unfold is_octet in Hx'.
      constructor; [|constructor; [exact Hs'|constructor]].
      unfold is_sextet. Z.div_mod_to_equations; lia. }
    assert (Hbody : Forall in_alphabet
                      (map char_of_sextet (sextets_of_bytes pre ++ [x / 4; s']))).
    { apply Forall_forall. intros c Hc.
      apply list_elem_of_fmap in Hc as (y & -> & Hy).
      apply in_alphabet_char_of_sextet. rewrite Forall_forall in Hsx. auto. }
    assert (Hsame : length (sextets_of_bytes pre ++ [x / 4; s'])
                    = length (sextets_of_bytes (pre ++ [x]))).
    { rewrite sextets_of_bytes_app by assumption. now rewrite !length_app. }
    unfold decode. rewrite filter_whitespace_id.
    2:{ apply Forall_app. split; [|repeat constructor].
        eapply Forall_impl; [exact Hbody|]. intros c Hc.
        now apply in_alphabet_inv in Hc. }
    replace (length (map char_of_sextet (sextets_of_bytes pre ++ [x / 4; s'])
                     ++ [61; 61]))
      with (length (sextets_of_bytes (pre ++ [x]))
            + length (padding (length (pre ++ [x]))))%nat.
    2:{ rewrite (length_app (map char_of_sextet _) [61; 61]), length_map, Hsame.
        unfold padding. now rewrite Hlen. }
    rewrite Hlen4, Nat.eqb_refl.
    rewrite strip_padding_encode by auto.
    rewrite length_map, Hsame.
    destruct (Nat.eqb_spec (length (sextets_of_bytes (pre ++ [x])) mod 4) 1);
      [contradiction|].
    rewrite sextets_of_chars_of_sextets by assumption. cbn [option_map].
    rewrite bytes_of_sextets_app by assumption. cbn [bytes_of_sextets].
    do 2 f_equal. unfold is_octet in Hx'. f_equal.
    Z.div_mod_to_equations; lia.
Qed.

End Base64Flip.

(** *** What a changed code unit does to the decoded bytes *)

Module Base64Tamper.
Import Base64 Base64Facts.

Lemma mod4 (q r : nat) : (r < 4 -> (4 * q + r) mod 4 = r)%nat.
Proof.
  intros Hr. rewrite Nat.add_comm, Nat.mul_comm, Nat.Div0.mod_add.
  now apply Nat.mod_small.
Qed.

Lemma alter_out_of_range {A} (f : A -> A) (l : list A) (i : nat) :
  (length l <= i)%nat -> alter f i l = l.
Proof.
  revert i. induction l as [|a l IH]; intros [|i] Hi; cbn in *;
    [reflexivity| reflexivity|lia|].
  f_equal. apply IH. lia.
Qed.

Lemma sextet_of_char_Some c s :
  sextet_of_char c = Some s -> is_sextet s /\ c = char_of_sextet s.
Proof.
  unfold sextet_of_char, char_of_sextet, is_sextet.
  repeat match goal with
         | |- context [?a <=? ?b] => destruct (Z.leb_spec a b)
         | |- context [?a =? ?b] => destruct (Z.eqb_spec a b)
         end; cbn; intros [= <-];
    repeat match goal with
           | |- context [?a <? ?b] => destruct (Z.ltb_spec a b)
           | |- context [?a =? ?b] => destruct (Z.eqb_spec a b)
           end; lia.
Qed.

Lemma sextets_of_chars_bad (t1 t2 : jsstring) (c : Z) :
  sextet_of_char c = None -> sextets_of_chars (t1 ++ c :: t2) = None.
Proof.
  intros Hc. induction t1 as [|a t1 IH]; cbn.
  - now rewrite Hc.
  - rewrite IH. now destruct (sextet_of_char a).
Qed.

Lemma sextet_of_equals : sextet_of_char 61 = None.
Proof. reflexivity. Qed.

Lemma whitespace_not_digit c :
  is_ascii_whitespace c = true -> sextet_of_char c = None.
Proof.
  unfold is_ascii_whitespace. rewrite !orb_true_iff, !Z.eqb_eq.
  intros [[[[-> | ->] | ->] | ->] | ->]; reflexivity.
Qed.

(** The steps of [decode], one at a time. *)
Lemma decode_steps (t clean stripped : jsstring) :
  filter (fun c => negb (is_ascii_whitespace c)) t = clean ->
  (if (length clean mod 4 =? 0)%nat then strip_padding clean else clean) = stripped ->
  decode t = if (length stripped mod 4 =? 1)%nat then None
             else option_map bytes_of_sextets (sextets_of_chars stripped).
Proof. intros <- <-. reflexivity. Qed.

Lemma decode_fails (t clean stripped : jsstring) :
  filter (fun c => negb (is_ascii_whitespace c)) t = clean ->
  (if (length clean mod 4 =? 0)%nat then strip_padding clean else clean) = stripped ->
  sextets_of_chars stripped = None ->
  decode t = None.
Proof.
  intros Hclean Hstripped Hbad. rewrite (decode_steps t clean stripped) by assumption.
  rewrite Hbad. destruct (length stripped mod 4 =? 1)%nat; reflexivity.
Qed.

Lemma strip_equals_other (s : jsstring) (c : Z) :
  c <> 61 -> strip_equals (s ++ [c]) = None.
Proof.
  intros Hc. unfold strip_equals. rewrite rev_app_distr. cbn [rev app].
  destruct (Z.eqb_spec c 61); [contradiction|reflexivity].
Qed.

(** Padding goes, and nothing else, from a text that does not end in [=]
    before its padding. *)
Lemma strip_padding_after (s : jsstring) (c : Z) (pad : jsstring) :
  c <> 61 -> pad = [] \/ pad = [61] \/ pad = [61; 61] ->
  strip_padding ((s ++ [c]) ++ pad) = s ++ [c].
Proof.
  intros Hc [-> | [-> | ->]]; unfold strip_padding.
  - rewrite app_nil_r. now rewrite strip_equals_other.
  - rewrite strip_equals_snoc. now rewrite strip_equals_other.
  - change [61; 61] with ([61] ++ [61]). rewrite app_assoc.
    rewrite !strip_equals_snoc. reflexivity.
Qed.

Lemma clean_digits (ss : list Z) :
  Forall is_sextet ss ->
  Forall (fun c => is_ascii_whitespace c = false) (map char_of_sextet ss).
Proof.
  intros Hss. apply Forall_forall. intros c Hc.
  apply list_elem_of_fmap in Hc as (y & -> & Hy).
  rewrite Forall_forall in Hss.
  now apply in_alphabet_inv, in_alphabet_char_of_sextet, Hss.
Qed.

Lemma clean_padding (pad : jsstring) :
  pad = [] \/ pad = [61] \/ pad = [61; 61] ->
  Forall (fun c => is_ascii_whitespace c = false) pad.
Proof. intros [-> | [-> | ->]]; repeat constructor. Qed.

Lemma digits_in_alphabet (ss : list Z) :
  Forall is_sextet ss -> Forall in_alphabet (map char_of_sextet ss).
Proof.
  intros Hss. apply Forall_forall. intros c Hc.
  apply list_elem_of_fmap in Hc as (y & -> & Hy).
  rewrite Forall_forall in Hss. now apply in_alphabet_char_of_sextet, Hss.
Qed.

(** Digits and padding of the right length decode to the bytes of the
    digits. *)
Lemma decode_digits (ss : list Z) (pad : jsstring) :
  Forall is_sextet ss ->
  pad = [] \/ pad = [61] \/ pad = [61; 61] ->
  ((length ss + length pad) mod 4 = 0)%nat ->
  (length ss mod 4 <> 1)%nat ->
  decode (map char_of_sextet ss ++ pad) = Some (bytes_of_sextets ss).
Proof.
  intros Hss Hpad Hlen4 Hlen1.
  rewrite (decode_steps _ (map char_of_sextet ss ++ pad) (map char_of_sextet ss)).
  - rewrite length_map.
    destruct (Nat.eqb_spec (length ss mod 4) 1); [contradiction|].
    now rewrite sextets_of_chars_of_sextets.
  - apply filter_whitespace_id, Forall_app.
    split; [now apply clean_digits | now apply clean_padding].
  - rewrite length_app, length_map, Hlen4, Nat.eqb_refl.
    apply strip_padding_encode; [now apply digits_in_alphabet | assumption].
Qed.

(** The shape of an encoding, by the length of the bytes modulo 3. *)
Lemma encode_shape (l : list Z) :
  exists q : nat,
    ((length l mod 3 = 0)%nat /\ padding (length l) = []
     /\ length (sextets_of_bytes l) = (4 * q)%nat)
    \/ ((length l mod 3 = 1)%nat /\ padding (length l) = [61; 61]
        /\ length (sextets_of_bytes l) = (4 * q + 2)%nat)
    \/ ((length l mod 3 = 2)%nat /\ padding (length l) = [61]
        /\ length (sextets_of_bytes l) = (4 * q + 3)%nat).
Proof.
  induction l as [|a|a b|a b c r [q IH]] using list_ind3.
  - exists 0%nat. left. repeat split.
  - exists 0%nat. right. left. repeat split.
  - exists 0%nat. right. right. repeat split.
  - exists (S q).
    assert (Hmod : (length (a :: b :: c :: r) mod 3 = length r mod 3)%nat).
    { cbn [length]. replace (S (S (S (length r)))) with (length r + 1 * 3)%nat by lia.
      apply Nat.Div0.mod_add. }
    unfold padding in *. rewrite Hmod. cbn [sextets_of_bytes length].
    destruct IH as [(H1 & H2 & H3) | [(H1 & H2 & H3) | (H1 & H2 & H3)]];
      [left | right; left | right; right]; (split; [exact H1|split; [exact H2|lia]]).
Qed.

(** Without its last group of six bits, a payload of 3n + 2 bytes is
    without its last byte. *)
Lemma bytes_without_last_group (l pre : list Z) (s : Z) :
  Forall is_octet l -> (length l mod 3 = 2)%nat ->
  sextets_of_bytes l = pre ++ [s] ->
  exists x, l = bytes_of_sextets pre ++ [x].
Proof.
  unfold is_octet. revert pre.
  induction l as [|a|a b|a b c r IH] using list_ind3; intros pre Hl Hlen Hpre.
  - discriminate.
  - discriminate.
  - cbn in Hpre. destruct pre as [|p0 [|p1 [|p2 pre]]]; try discriminate.
    + injection Hpre as <- <- _. exists b. cbn.
      inversion_clear Hl as [|? ? Ha Hl']. inversion_clear Hl' as [|? ? Hb _].
      f_equal. Z.div_mod_to_equations; lia.
    + injection Hpre as _ _ _ Hpre. now destruct pre.
  - cbn [length] in Hlen. rewrite Base64Flip.mod3_step in Hlen.
    inversion_clear Hl as [|? ? Ha Hl']. inversion_clear Hl' as [|? ? Hb Hl''].
    inversion_clear Hl'' as [|? ? Hc Hr].
    cbn [sextets_of_bytes] in Hpre.
    destruct r as [|r0 r'] eqn:Hreq; [discriminate|]. rewrite <- Hreq in *.
    assert (Hne : sextets_of_bytes r <> []).
    { rewrite Hreq. destruct r' as [|? [|? ?]]; discriminate. }
    destruct pre as [|p0 [|p1 [|p2 [|p3 pre]]]]; cbn in Hpre.
    + injection Hpre as _ Hpre. discriminate.
    + injection Hpre as _ _ Hpre. discriminate.
    + injection Hpre as _ _ _ Hpre. discriminate.
    + injection Hpre as _ _ _ _ Hpre. contradiction.
    + injection Hpre as <- <- <- <- Hpre.
      destruct (IH pre Hr Hlen Hpre) as (x & Hx). exists x.
      cbn [bytes_of_sextets app]. rewrite Hx at 1.
      f_equal; [|f_equal; [|f_equal]]; Z.div_mod_to_equations; lia.
Qed.

(** With one more group of six bits, a payload of 3n + 1 or 3n + 2 bytes
    has one more byte. *)
Lemma bytes_with_one_more_group (l : list Z) (s : Z) :
  Forall is_octet l -> (length l mod 3 <> 0)%nat -> is_sextet s ->
  exists x, is_octet x /\ bytes_of_sextets (sextets_of_bytes l ++ [s]) = l ++ [x].
Proof.
  unfold is_octet, is_sextet.
  induction l as [|a|a b|a b c r IH] using list_ind3; intros Hl Hlen Hs.
  - now contradiction Hlen.
  - inversion_clear Hl as [|? ? Ha _]. cbn.
    exists ((a mod 4 * 16) mod 16 * 16 + s / 4).
    split; [Z.div_mod_to_equations; lia|].
    f_equal. Z.div_mod_to_equations; lia.
  - inversion_clear Hl as [|? ? Ha Hl']. inversion_clear Hl' as [|? ? Hb _]. cbn.
    exists ((b mod 16 * 4) mod 4 * 64 + s).
    split; [Z.div_mod_to_equations; lia|].
    f_equal; [|f_equal]; Z.div_mod_to_equations; lia.
  - cbn [length] in Hlen. rewrite Base64Flip.mod3_step in Hlen.
    inversion_clear Hl as [|? ? Ha Hl']. inversion_clear Hl' as [|? ? Hb Hl''].
    inversion_clear Hl'' as [|? ? Hc Hr].
    destruct (IH Hr Hlen Hs) as (x & Hx & Heq). exists x. split; [exact Hx|].
    cbn [sextets_of_bytes app bytes_of_sextets]. rewrite Heq.
    f_equal; [|f_equal; [|f_equal]]; Z.div_mod_to_equations; lia.
Qed.

End Base64Tamper.

Module Base64Change.
Import Base64 Base64Facts Base64Tamper.

Lemma alter_as_insert {A} (f : A -> A) (l : list A) (i : nat) (x : A) :
  l !! i = Some x -> alter f i l = <[i := f x]> l.
Proof.
  revert i. induction l as [|a l IH]; intros [|i] Hi; cbn in *; try discriminate.
  - now injection Hi as ->.
  - f_equal. now apply IH.
Qed.

Section Changed.

Variable l : list Z.
Hypothesis Hl : Forall is_octet l.

(** A digit of the text replaced by the code unit [c]. *)
Lemma decode_changed_digit (pre : list Z) (s : Z) (post : list Z) (c : Z)
    (bs' : list Z) :
  sextets_of_bytes l = pre ++ s :: post ->
  decode (map char_of_sextet pre ++ c :: map char_of_sextet post
            ++ padding (length l)) = Some bs' ->
  tampered l bs'.
Proof.
  intros Hsplit.
  pose proof (sextets_of_bytes_range l Hl) as Hrange.
  rewrite Hsplit in Hrange.
  apply Forall_app in Hrange as [Hpre Hpost].
  apply Forall_cons in Hpost as [Hs Hpost].
  pose proof (padding_cases (length l)) as Hpad.
  assert (Hlen : length (sextets_of_bytes l) = S (length pre + length post))
    by (rewrite Hsplit, length_app; cbn [length]; lia).
  destruct (encode_shape l) as (q & Hshape).
  set (pad := padding (length l)) in *.
  destruct (is_ascii_whitespace c) eqn:Hws.
  - (* whitespace: the digit goes *)
    assert (Hclean : filter (fun c => negb (is_ascii_whitespace c))
                       (map char_of_sextet pre ++ c :: map char_of_sextet post ++ pad)
                     = map char_of_sextet (pre ++ post) ++ pad).
    { rewrite filter_app, filter_cons_False by (rewrite Hws; auto).
      rewrite filter_app, !filter_whitespace_id
        by (first [now apply clean_digits | now apply clean_padding]).
      now rewrite map_app, <- app_assoc. }
    destruct Hshape as [(Hmod & Hp & Hq) | [(Hmod & Hp & Hq) | (Hmod & Hp & Hq)]];
      rewrite Hp in *.
    + rewrite (decode_steps _ _ (map char_of_sextet (pre ++ post)) Hclean).
      * rewrite length_map, length_app.
        replace (length pre + length post)%nat with (4 * (q - 1) + 3)%nat by lia.
        rewrite mod4 by lia. cbn [Nat.eqb].
        rewrite sextets_of_chars_of_sextets by (apply Forall_app; auto).
        intros [= <-]. now apply (group_lost l pre s post).
      * rewrite app_nil_r, length_map, length_app.
        replace (length pre + length post)%nat with (4 * (q - 1) + 3)%nat by lia.
        now rewrite mod4 by lia.
    + intros Hdec. rewrite (decode_fails _ _ _ Hclean eq_refl) in Hdec; [discriminate|].
      rewrite length_app, length_map, length_app. cbn [length].
      replace (length pre + length post + 2)%nat with (4 * q + 3)%nat by lia.
      rewrite mod4 by lia. cbn [Nat.eqb].
      now apply sextets_of_chars_bad.
    + intros Hdec. rewrite (decode_fails _ _ _ Hclean eq_refl) in Hdec; [discriminate|].
      rewrite length_app, length_map, length_app. cbn [length].
      replace (length pre + length post + 1)%nat with (4 * q + 3)%nat by lia.
      rewrite mod4 by lia. cbn [Nat.eqb].
      now apply sextets_of_chars_bad.
  - assert (Hclean : filter (fun c => negb (is_ascii_whitespace c))
                       (map char_of_sextet pre ++ c :: map char_of_sextet post ++ pad)
                     = map char_of_sextet pre ++ c :: map char_of_sextet post ++ pad).
    { apply filter_whitespace_id, Forall_app. split; [now apply clean_digits|].
      constructor; [exact Hws|]. apply Forall_app.
      split; [now apply clean_digits | now apply clean_padding]. }
    assert (Hfour : (length (map char_of_sextet pre ++ c :: map char_of_sextet post ++ pad)
                     mod 4 =? 0)%nat = true).
    { rewrite length_app. cbn [length]. rewrite length_app, !length_map.
      apply Nat.eqb_eq.
      destruct Hshape as [(Hmod & Hp & Hq) | [(Hmod & Hp & Hq) | (Hmod & Hp & Hq)]];
        subst pad; rewrite Hp; cbn [length].
      - replace (length pre + S (length post + 0))%nat with (4 * q + 0)%nat by lia.
        apply mod4; lia.
      - replace (length pre + S (length post + 2))%nat with (4 * (S q) + 0)%nat by lia.
        apply mod4; lia.
      - replace (length pre + S (length post + 1))%nat with (4 * (S q) + 0)%nat by lia.
        apply mod4; lia. }
    destruct (sextet_of_char c) as [s'|] eqn:Hc.
    + (* another digit *)
      apply sextet_of_char_Some in Hc as [Hs' ->].
      change (map char_of_sextet pre ++ char_of_sextet s' :: map char_of_sextet post ++ pad)
        with (map char_of_sextet pre ++ map char_of_sextet (s' :: post) ++ pad).
      rewrite app_assoc, <- map_app.
      rewrite decode_digits.
      * intros [= <-]. now apply (group_changed l pre s s' post).
      * apply Forall_app. split; [exact Hpre|]. now constructor.
      * exact Hpad.
      * rewrite length_app. cbn [length].
        destruct Hshape as [(Hmod & Hp & Hq) | [(Hmod & Hp & Hq) | (Hmod & Hp & Hq)]];
          subst pad; rewrite Hp; cbn [length].
        -- replace (length pre + S (length post) + 0)%nat with (4 * q + 0)%nat by lia.
           apply mod4; lia.
        -- replace (length pre + S (length post) + 2)%nat with (4 * (S q) + 0)%nat by lia.
           apply mod4; lia.
        -- replace (length pre + S (length post) + 1)%nat with (4 * (S q) + 0)%nat by lia.
           apply mod4; lia.
      * rewrite length_app. cbn [length].
        destruct Hshape as [(Hmod & Hp & Hq) | [(Hmod & Hp & Hq) | (Hmod & Hp & Hq)]].
        -- replace (length pre + S (length post))%nat with (4 * q + 0)%nat by lia.
           rewrite mod4 by lia. discriminate.
        -- replace (length pre + S (length post))%nat with (4 * q + 2)%nat by lia.
           rewrite mod4 by lia. discriminate.
        -- replace (length pre + S (length post))%nat with (4 * q + 3)%nat by lia.
           rewrite mod4 by lia. discriminate.
    + destruct (Z.eqb_spec c 61) as [-> | Hne].
      * (* padding *)
        destruct post as [|p post0 _] using rev_ind.
        -- (* in the place of the last digit *)
           destruct Hshape as [(Hmod & Hp & Hq) | [(Hmod & Hp & Hq) | (Hmod & Hp & Hq)]];
             subst pad; rewrite Hp in *; cbn [map app length] in *.
           ++ rewrite (decode_steps _ _ (map char_of_sextet pre) Hclean).
              ** rewrite length_map.
                 replace (length pre) with (4 * (q - 1) + 3)%nat by lia.
                 rewrite mod4 by lia. cbn [Nat.eqb].
                 rewrite sextets_of_chars_of_sextets by assumption.
                 intros [= <-].
                 rewrite <- (app_nil_r pre). apply (group_lost l pre s []); auto.
              ** rewrite Hfour. unfold strip_padding.
                 rewrite strip_equals_snoc.
                 now rewrite strip_equals_alphabet by now apply digits_in_alphabet.
           ++ intros Hdec.
              rewrite (decode_fails _ _ (map char_of_sextet pre ++ [61]) Hclean) in Hdec;
                [discriminate| |now apply sextets_of_chars_bad].
              rewrite Hfour. unfold strip_padding.
              change (map char_of_sextet pre ++ [61; 61; 61])
                with (map char_of_sextet pre ++ [61] ++ [61] ++ [61]).
              rewrite !app_assoc, !strip_equals_snoc. reflexivity.
           ++ rewrite (decode_steps _ _ (map char_of_sextet pre) Hclean).
              ** rewrite length_map.
                 replace (length pre) with (4 * q + 2)%nat by lia.
                 rewrite mod4 by lia. cbn [Nat.eqb].
                 rewrite sextets_of_chars_of_sextets by assumption.
                 intros [= <-].
                 destruct (bytes_without_last_group l pre s Hl Hmod Hsplit) as (x & Hx).
                 now apply (byte_lost l x).
              ** rewrite Hfour. unfold strip_padding.
                 change (map char_of_sextet pre ++ [61; 61])
                   with (map char_of_sextet pre ++ [61] ++ [61]).
                 rewrite !app_assoc, !strip_equals_snoc. reflexivity.
        -- (* before a digit *)
           intros Hdec.
           apply Forall_app in Hpost as [Hpost0 Hp]. apply Forall_cons in Hp as [Hp _].
           pose proof (in_alphabet_inv _ (in_alphabet_char_of_sextet p Hp))
             as (_ & Hp61 & _).
           rewrite (decode_fails _ _
                      (map char_of_sextet pre ++ 61 :: map char_of_sextet (post0 ++ [p]))
                      Hclean) in Hdec;
             [discriminate| |now apply sextets_of_chars_bad].
           rewrite Hfour. rewrite map_app. cbn [map].
           replace (map char_of_sextet pre
                    ++ 61 :: (map char_of_sextet post0 ++ [char_of_sextet p]) ++ pad)
             with (((map char_of_sextet pre ++ 61 :: map char_of_sextet post0)
                    ++ [char_of_sextet p]) ++ pad)
             by (now rewrite <- !app_assoc).
           rewrite strip_padding_after by assumption.
           now rewrite <- app_assoc.
      * (* neither a digit nor padding nor whitespace *)
        intros Hdec.
        assert (Hstrip : strip_padding
                           (map char_of_sextet pre ++ c :: map char_of_sextet post ++ pad)
                         = map char_of_sextet pre ++ c :: map char_of_sextet post).
        { destruct post as [|p post0 _] using rev_ind.
          - cbn [map app].
            change (map char_of_sextet pre ++ c :: pad)
              with (map char_of_sextet pre ++ [c] ++ pad).
            rewrite app_assoc. now apply strip_padding_after.
          - apply Forall_app in Hpost as [Hpost0 Hp]. apply Forall_cons in Hp as [Hp _].
            pose proof (in_alphabet_inv _ (in_alphabet_char_of_sextet p Hp))
              as (_ & Hp61 & _).
            rewrite map_app. cbn [map].
            replace (map char_of_sextet pre
                     ++ c :: (map char_of_sextet post0 ++ [char_of_sextet p]) ++ pad)
              with (((map char_of_sextet pre ++ c :: map char_of_sextet post0)
                     ++ [char_of_sextet p]) ++ pad)
              by (now rewrite <- !app_assoc).
            rewrite strip_padding_after by assumption.
            now rewrite <- app_assoc. }
        rewrite (decode_fails _ _ _ Hclean eq_refl) in Hdec; [discriminate|].
        rewrite Hfour, Hstrip. now apply sextets_of_chars_bad.
Qed.


(** Padding replaced by the code unit [c]. *)
Lemma decode_changed_padding (j : nat) (c : Z) (bs' : list Z) :
  decode (map char_of_sextet (sextets_of_bytes l)
            ++ <[j := c]> (padding (length l))) = Some bs' ->
  bs' = l \/ tampered l bs'.
Proof.
  pose proof (sextets_of_bytes_range l Hl) as Hrange.
  destruct (encode_shape l) as (q & Hshape).
  assert (Hsame : forall bs', decode (map char_of_sextet (sextets_of_bytes l)
                                        ++ padding (length l)) = Some bs' ->
                              bs' = l \/ tampered l bs').
  { intros bs0 Hdec. change (decode (encode l) = Some bs0) in Hdec.
    rewrite decode_encode in Hdec by assumption. injection Hdec as <-. now left. }
  assert (Hadded : forall s', is_sextet s' -> (length l mod 3 <> 0)%nat ->
                     bytes_of_sextets (sextets_of_bytes l ++ [s']) = l
                     \/ tampered l (bytes_of_sextets (sextets_of_bytes l ++ [s']))).
  { intros s' Hs' Hmod. right.
    destruct (bytes_with_one_more_group l s' Hl Hmod Hs') as (x & Hx & ->).
    now apply byte_added. }
  destruct Hshape as [(Hmod & Hp & Hq) | [(Hmod & Hp & Hq) | (Hmod & Hp & Hq)]].
  - (* no padding *)
    rewrite Hp in *. cbn. exact (Hsame bs').
  - (* two *)
    destruct j as [|[|j]]; [| |rewrite Hp in *; exact (Hsame bs')].
    + (* the first *)
      rewrite Hp. cbn [insert list_insert].
      destruct (is_ascii_whitespace c) eqn:Hws.
      * intros Hdec.
        erewrite (decode_fails _ (map char_of_sextet (sextets_of_bytes l) ++ [61]))
          in Hdec; [discriminate| |reflexivity|].
        -- rewrite filter_app, filter_cons_False by (rewrite Hws; auto).
           rewrite !filter_whitespace_id;
             [reflexivity | repeat constructor | now apply clean_digits].
        -- rewrite length_app, length_map, Hq. cbn [length].
           replace (4 * q + 2 + 1)%nat with (4 * q + 3)%nat by lia.
           rewrite mod4 by lia. cbn [Nat.eqb]. now apply sextets_of_chars_bad.
      * destruct (sextet_of_char c) as [s'|] eqn:Hc.
        -- apply sextet_of_char_Some in Hc as [Hs' ->].
           change (map char_of_sextet (sextets_of_bytes l) ++ [char_of_sextet s'; 61])
             with (map char_of_sextet (sextets_of_bytes l)
                   ++ map char_of_sextet [s'] ++ [61]).
           rewrite app_assoc, <- map_app, decode_digits.
           ++ intros [= <-]. apply Hadded; [exact Hs'|]. rewrite Hmod. discriminate.
           ++ apply Forall_app. split; [exact Hrange|]. constructor; [exact Hs'|constructor].
           ++ auto.
           ++ rewrite length_app, Hq. cbn [length].
              replace (4 * q + 2 + 1 + 1)%nat with (4 * S q + 0)%nat by lia.
              apply mod4; lia.
           ++ rewrite length_app, Hq. cbn [length].
              replace (4 * q + 2 + 1)%nat with (4 * q + 3)%nat by lia.
              rewrite mod4 by lia. discriminate.
        -- destruct (Z.eqb_spec c 61) as [-> | Hne].
           ++ rewrite <- Hp. exact (Hsame bs').
           ++ intros Hdec.
              rewrite (decode_fails _ (map char_of_sextet (sextets_of_bytes l) ++ [c; 61])
                         (map char_of_sextet (sextets_of_bytes l) ++ [c]))
                in Hdec; [discriminate| | |now apply sextets_of_chars_bad].
              ** apply filter_whitespace_id, Forall_app.
                 split; [now apply clean_digits | now repeat constructor].
              ** rewrite length_app, length_map, Hq. cbn [length].
                 replace (4 * q + 2 + 2)%nat with (4 * S q + 0)%nat by lia.
                 rewrite mod4 by lia. cbn [Nat.eqb].
                 change (map char_of_sextet (sextets_of_bytes l) ++ [c; 61])
                   with (map char_of_sextet (sextets_of_bytes l) ++ [c] ++ [61]).
                 rewrite app_assoc. apply strip_padding_after; auto.
    + (* the second *)
      rewrite Hp. cbn [insert list_insert].
      destruct (Z.eqb_spec c 61) as [-> | Hne].
      * rewrite <- Hp. exact (Hsame bs').
      * intros Hdec. destruct (is_ascii_whitespace c) eqn:Hws.
        -- erewrite (decode_fails _ (map char_of_sextet (sextets_of_bytes l) ++ [61]))
             in Hdec; [discriminate| |reflexivity|].
           ++ rewrite filter_app, filter_cons_True by (cbn; auto).
              rewrite filter_cons_False by (rewrite Hws; auto).
              rewrite !filter_whitespace_id;
                [reflexivity | first [now apply clean_digits | constructor]..].
           ++ rewrite length_app, length_map, Hq. cbn [length].
              replace (4 * q + 2 + 1)%nat with (4 * q + 3)%nat by lia.
              rewrite mod4 by lia. cbn [Nat.eqb]. now apply sextets_of_chars_bad.
        -- rewrite (decode_fails _ (map char_of_sextet (sextets_of_bytes l) ++ [61; c])
                      (map char_of_sextet (sextets_of_bytes l) ++ [61; c]))
             in Hdec; [discriminate| | |now apply sextets_of_chars_bad].
           ++ apply filter_whitespace_id, Forall_app.
              split; [now apply clean_digits | now repeat constructor].
           ++ rewrite length_app, length_map, Hq. cbn [length].
              replace (4 * q + 2 + 2)%nat with (4 * S q + 0)%nat by lia.
              rewrite mod4 by lia. cbn [Nat.eqb].
              replace (map char_of_sextet (sextets_of_bytes l) ++ [61; c])
                with ((map char_of_sextet (sextets_of_bytes l) ++ [61]) ++ [c])
                by (now rewrite <- app_assoc).
              rewrite <- (app_nil_r (_ ++ [c])) at 1.
              apply strip_padding_after; auto.
  - (* one *)
    destruct j as [|j]; [|rewrite Hp in *; exact (Hsame bs')].
    rewrite Hp. cbn [insert list_insert].
    destruct (is_ascii_whitespace c) eqn:Hws.
    + rewrite (decode_steps _ (map char_of_sextet (sextets_of_bytes l))
                 (map char_of_sextet (sextets_of_bytes l))).
      * rewrite length_map, Hq, mod4 by lia. cbn [Nat.eqb].
        rewrite sextets_of_chars_of_sextets by assumption. cbn [option_map].
        rewrite bytes_of_sextets_of_bytes by assumption.
        intros [= <-]. now left.
      * rewrite filter_app, filter_cons_False by (rewrite Hws; auto).
        rewrite filter_whitespace_id by now apply clean_digits.
        cbn. apply app_nil_r.
      * now rewrite length_map, Hq, mod4 by lia.
    + destruct (sextet_of_char c) as [s'|] eqn:Hc.
      * apply sextet_of_char_Some in Hc as [Hs' ->].
        change (map char_of_sextet (sextets_of_bytes l) ++ [char_of_sextet s'])
          with (map char_of_sextet (sextets_of_bytes l) ++ map char_of_sextet [s']).
        rewrite <- map_app, <- (app_nil_r (map _ _)), decode_digits.
        -- intros [= <-]. apply Hadded; [exact Hs'|]. rewrite Hmod. discriminate.
        -- apply Forall_app. split; [exact Hrange|]. constructor; [exact Hs'|constructor].
        -- auto.
        -- rewrite length_app, Hq. cbn [length].
           replace (4 * q + 3 + 1 + 0)%nat with (4 * S q + 0)%nat by lia.
           apply mod4; lia.
        -- rewrite length_app, Hq. cbn [length].
           replace (4 * q + 3 + 1)%nat with (4 * S q + 0)%nat by lia.
           rewrite mod4 by lia. discriminate.
      * destruct (Z.eqb_spec c 61) as [-> | Hne].
        -- rewrite <- Hp. exact (Hsame bs').
        -- intros Hdec.
           rewrite (decode_fails _ (map char_of_sextet (sextets_of_bytes l) ++ [c])
                      (map char_of_sextet (sextets_of_bytes l) ++ [c]))
             in Hdec; [discriminate| | |now apply sextets_of_chars_bad].
           ++ apply filter_whitespace_id, Forall_app.
              split; [now apply clean_digits | now repeat constructor].
           ++ rewrite length_app, length_map, Hq. cbn [length].
              replace (4 * q + 3 + 1)%nat with (4 * S q + 0)%nat by lia.
              rewrite mod4 by lia. cbn [Nat.eqb].
              rewrite <- (app_nil_r (_ ++ [c])) at 1.
              apply strip_padding_after; auto.
Qed.

(** One code unit of the text of [l] replaced: the text is not base64 any
    more, or it decodes to [l] as before, or to a payload that was
    tampered with. *)
Lemma decode_changed (f : Z -> Z) (i : nat) (bs' : list Z) :
  decode (alter f i (encode l)) = Some bs' -> bs' = l \/ tampered l bs'.
Proof.
  unfold encode.
  destruct (decide (i < length (map char_of_sextet (sextets_of_bytes l)))%nat)
    as [Hi | Hi].
  - rewrite alter_app_l by assumption.
    rewrite length_map in Hi.
    destruct (lookup_lt_is_Some_2 (sextets_of_bytes l) i Hi) as [s Hs].
    pose proof (take_drop_middle _ _ _ Hs) as Hsplit. symmetry in Hsplit.
    rewrite Hsplit at 1. rewrite map_app. cbn [map].
    replace i with (length (map char_of_sextet (take i (sextets_of_bytes l))) + 0)%nat
      at 1 by (rewrite length_map, length_take; lia).
    rewrite alter_app_r. cbn [alter list_alter]. rewrite <- app_assoc. cbn [app].
    intros Hdec. right.
    exact (decode_changed_digit _ s _ _ bs' Hsplit Hdec).
  - rewrite alter_app_r_alt by lia.
    set (j := (i - length (map char_of_sextet (sextets_of_bytes l)))%nat).
    destruct (decide (j < length (padding (length l)))%nat) as [Hj | Hj].
    + destruct (lookup_lt_is_Some_2 _ j Hj) as [p Hp].
      rewrite (alter_as_insert f _ j p Hp). apply decode_changed_padding.
    + rewrite alter_out_of_range by lia. intros Hdec.
      change (decode (encode l) = Some bs') in Hdec.
      rewrite decode_encode in Hdec by assumption. injection Hdec as <-. now left.
Qed.


End Changed.

End Base64Change.

(** *** Where a payload that was tampered with differs *)

Module TamperedFacts.
Import Base64 Base64Facts Base64Tamper.

Lemma list_ind4 {A} (Q : list A -> Prop) :
  Q [] -> (forall a, Q [a]) -> (forall a b, Q [a; b]) -> (forall a b c, Q [a; b; c]) ->
  (forall a b c d r, Q r -> Q (a :: b :: c :: d :: r)) ->
  forall l, Q l.
Proof.
  intros H0 H1 H2 H3 H4.
  fix IH 1. intros [|a [|b [|c [|d r]]]];
    [apply H0 | apply H1 | apply H2 | apply H3 | apply H4, IH].
Qed.

Lemma mod4_step (n : nat) : (S (S (S (S n))) mod 4 = n mod 4)%nat.
Proof.
  replace (S (S (S (S n)))) with (n + 1 * 4)%nat by lia. apply Nat.Div0.mod_add.
Qed.

Lemma bytes_of_sextets_range (l : list Z) :
  Forall is_sextet l -> Forall is_octet (bytes_of_sextets l).
Proof.
  unfold is_sextet, is_octet.
  induction l as [|a|a b|a b c|a b c d r IH] using list_ind4; intros Hl; cbn.
  - constructor.
  - constructor.
  - inversion_clear Hl as [|? ? Ha Hl']. inversion_clear Hl' as [|? ? Hb _].
    repeat constructor; Z.div_mod_to_equations; lia.
  - inversion_clear Hl as [|? ? Ha Hl']. inversion_clear Hl' as [|? ? Hb Hl''].
    inversion_clear Hl'' as [|? ? Hc _].
    repeat constructor; Z.div_mod_to_equations; lia.
  - inversion_clear Hl as [|? ? Ha Hl']. inversion_clear Hl' as [|? ? Hb Hl''].
    inversion_clear Hl'' as [|? ? Hc Hl3]. inversion_clear Hl3 as [|? ? Hd Hr].
    repeat (constructor; [Z.div_mod_to_equations; lia|]). auto.
Qed.

Lemma bytes_of_sextets_groups (x y : list Z) :
  (length x mod 4 = 0)%nat ->
  bytes_of_sextets (x ++ y) = bytes_of_sextets x ++ bytes_of_sextets y.
Proof.
  induction x as [|a|a b|a b c|a b c d r IH] using list_ind4; intros Hlen;
    try discriminate.
  - reflexivity.
  - cbn [length] in Hlen. rewrite mod4_step in Hlen.
    cbn [app bytes_of_sextets]. now rewrite IH.
Qed.

(** A changed group of six bits changes bytes of one group of three. *)
Lemma changed_group_is_local (l pre : list Z) (s s' : Z) (post : list Z) :
  Forall is_octet l -> is_sextet s' ->
  sextets_of_bytes l = pre ++ s :: post ->
  exists p x x' q,
    l = p ++ x ++ q
    /\ bytes_of_sextets (pre ++ s' :: post) = p ++ x' ++ q
    /\ length x' = length x /\ (length x <= 3)%nat
    /\ Forall is_octet x'.
Proof.
  unfold is_octet, is_sextet. revert pre post.
  induction l as [|a|a b|a b c r IH] using list_ind3; intros pre post Hl Hs' Hsplit.
  - now destruct pre.
  - inversion_clear Hl as [|? ? Ha _].
    exists [], [a], (bytes_of_sextets (pre ++ s' :: post)), [].
    cbn in Hsplit.
    destruct pre as [|p0 [|p1 pre]].
    + injection Hsplit as _ <-. cbn. repeat split; auto.
      repeat constructor; Z.div_mod_to_equations; lia.
    + injection Hsplit as <- _ <-. cbn. repeat split; auto.
      repeat constructor; Z.div_mod_to_equations; lia.
    + injection Hsplit as _ _ Hsplit. now destruct pre.
  - inversion_clear Hl as [|? ? Ha Hl']. inversion_clear Hl' as [|? ? Hb _].
    exists [], [a; b], (bytes_of_sextets (pre ++ s' :: post)), [].
    cbn in Hsplit.
    destruct pre as [|p0 [|p1 [|p2 pre]]].
    + injection Hsplit as _ <-. cbn. repeat split; auto.
      repeat constructor; Z.div_mod_to_equations; lia.
    + injection Hsplit as <- _ <-. cbn. repeat split; auto.
      repeat constructor; Z.div_mod_to_equations; lia.
    + injection Hsplit as <- <- _ <-. cbn. repeat split; auto.
      repeat constructor; Z.div_mod_to_equations; lia.
    + injection Hsplit as _ _ _ Hsplit. now destruct pre.
  - inversion_clear Hl as [|? ? Ha Hl']. inversion_clear Hl' as [|? ? Hb Hl''].
    inversion_clear Hl'' as [|? ? Hc Hr].
    cbn [sextets_of_bytes] in Hsplit.
    assert (Hback : bytes_of_sextets (sextets_of_bytes r) = r)
      by now apply bytes_of_sextets_of_bytes.
    destruct pre as [|p0 [|p1 [|p2 [|p3 pre]]]].
    + injection Hsplit as _ <-.
      match goal with
      | |- context [bytes_of_sextets ?ss] =>
          exists [], [a; b; c], (take 3 (bytes_of_sextets ss)), r
      end.
      cbn [app bytes_of_sextets firstn]. rewrite Hback, firstn_O.
      repeat split; [cbn; lia|].
      repeat constructor; Z.div_mod_to_equations; lia.
    + injection Hsplit as <- _ <-.
      match goal with
      | |- context [bytes_of_sextets ?ss] =>
          exists [], [a; b; c], (take 3 (bytes_of_sextets ss)), r
      end.
      cbn [app bytes_of_sextets firstn]. rewrite Hback, firstn_O.
      repeat split; [cbn; lia|].
      repeat constructor; Z.div_mod_to_equations; lia.
    + injection Hsplit as <- <- _ <-.
      match goal with
      | |- context [bytes_of_sextets ?ss] =>
          exists [], [a; b; c], (take 3 (bytes_of_sextets ss)), r
      end.
      cbn [app bytes_of_sextets firstn]. rewrite Hback, firstn_O.
      repeat split; [cbn; lia|].
      repeat constructor; Z.div_mod_to_equations; lia.
    + injection Hsplit as <- <- <- _ <-.
      match goal with
      | |- context [bytes_of_sextets ?ss] =>
          exists [], [a; b; c], (take 3 (bytes_of_sextets ss)), r
      end.
      cbn [app bytes_of_sextets firstn]. rewrite Hback, firstn_O.
      repeat split; [cbn; lia|].
      repeat constructor; Z.div_mod_to_equations; lia.
    + injection Hsplit as <- <- <- <- Hsplit.
      destruct (IH pre post Hr Hs' Hsplit) as (p & x & x' & q & -> & Hbytes & Hlen & Hshort & Hx').
      exists (a :: b :: c :: p), x, x', q.
      cbn [app bytes_of_sextets]. rewrite Hbytes.
      repeat split; try assumption.
      f_equal; [|f_equal; [|f_equal]]; Z.div_mod_to_equations; lia.
Qed.

(** A payload of 3n bytes that ends in 2 and 1, having lost a group of
    six bits, does not end in 1. *)
Lemma lost_group_last (body : list Z) (b : Z) (pre : list Z) (s : Z) (post : list Z) :
  is_octet b -> (length body mod 3 = 0)%nat ->
  sextets_of_bytes (body ++ [b; 2; 1]) = pre ++ s :: post ->
  exists y, last (bytes_of_sextets (pre ++ post)) = Some y /\ is_octet y /\ y <> 1.
Proof.
  unfold is_octet. intros Hb Hlen Hsplit.
  rewrite Base64Flip.sextets_of_bytes_app in Hsplit by assumption.
  cbn [sextets_of_bytes] in Hsplit.
  change (2 mod 16 * 4 + 1 / 64) with 8 in Hsplit.
  change (1 mod 64) with 1 in Hsplit. change (2 / 16) with 0 in Hsplit.
  set (c1 := b / 4) in *. set (c2 := b mod 4 * 16 + 0) in *.
  assert (Hc2 : c2 mod 16 = 0) by (subst c2; Z.div_mod_to_equations; lia).
  assert (Hgroups : (length (sextets_of_bytes body) mod 4 = 0)%nat).
  { destruct (encode_shape body) as (q & [(_ & _ & Hq) | [(H & _) | (H & _)]]);
      [|rewrite Hlen in H; discriminate..].
    rewrite Hq, <- (Nat.add_0_r (4 * q)). apply mod4; lia. }
  assert (Hlast : forall x u v w, (length x mod 4 = 0)%nat ->
            last (bytes_of_sextets (x ++ [u; v; w])) = Some (v mod 16 * 16 + w / 4)).
  { intros x u v w Hx. rewrite bytes_of_sextets_groups by assumption.
    cbn [bytes_of_sextets].
    change [u * 4 + v / 16; v mod 16 * 16 + w / 4]
      with ([u * 4 + v / 16] ++ [v mod 16 * 16 + w / 4]).
    rewrite app_assoc. apply last_snoc. }
  clearbody c1 c2.
  apply app_eq_app in Hsplit as (mid & [[Hbody Hrest] | [Hpre Hrest]]).
  - destruct mid as [|m mid].
    + cbn in Hrest. injection Hrest as _ ->. rewrite app_nil_r in Hbody. subst pre.
      rewrite Hlast by assumption. exists 128.
      repeat split; lia.
    + cbn in Hrest. injection Hrest as <- ->.
      replace (pre ++ mid ++ [c1; c2; 8; 1]) with ((pre ++ mid ++ [c1]) ++ [c2; 8; 1])
        by (now rewrite <- !app_assoc).
      rewrite Hlast.
      * exists 128. repeat split; lia.
      * rewrite Hbody, length_app in Hgroups. cbn [length] in Hgroups.
        rewrite !length_app. cbn [length].
        replace (length pre + (length mid + 1))%nat
          with (length pre + S (length mid))%nat by lia.
        exact Hgroups.
  - subst pre.
    destruct mid as [|m0 [|m1 [|m2 [|m3 mid]]]]; cbn in Hrest.
    + injection Hrest as _ <-. rewrite app_nil_r, Hlast by assumption.
      exists 128. repeat split; lia.
    + injection Hrest as <- _ <-. rewrite <- app_assoc. cbn [app].
      rewrite Hlast by assumption.
      exists 128. repeat split; lia.
    + injection Hrest as <- <- _ <-. rewrite <- app_assoc. cbn [app].
      rewrite Hlast by assumption.
      rewrite Hc2. exists 0. repeat split; lia.
    + injection Hrest as <- <- <- _ <-. rewrite <- app_assoc. cbn [app].
      rewrite Hlast by assumption.
      rewrite Hc2. exists 2. repeat split; lia.
    + injection Hrest as _ _ _ _ Hrest. now destruct mid.
Qed.

End TamperedFacts.

Lemma toBase64_returns (bs : bytes) :
  toBase64 bs = Return (Base64.encode (map Z_of_byte bs)).
Proof.
  unfold toBase64, btoa.
  replace (forallb _ _) with true; [reflexivity|].
  symmetry. apply forallb_forall. intros z Hz.
  apply in_map_iff in Hz as (b & <- & _).
  pose proof (Z_of_byte_range b).
  apply andb_true_iff. split; [apply Z.leb_le | apply Z.leb_le]; lia.
Qed.

(** [fromBase64] inverts [toBase64]. *)
Lemma fromBase64_toBase64 (bs : bytes) :
  exists w, toBase64 bs = Return w /\ fromBase64 w = Return bs.
Proof.
  exists (Base64.encode (map Z_of_byte bs)). split; [apply toBase64_returns|].
  unfold fromBase64, atob.
  rewrite Base64Facts.decode_encode by apply Forall_octet.
  simpl. now rewrite map_byte_of_Z_of_byte.
Qed.


(** ** UTF-8 and UTF-16 *)

Module Utf8Facts.
Import Utf8.

(** Settle a comparison whose outcome follows from the hypotheses. *)
Ltac settle_test :=
  match goal with
  | |- context [?a <=? ?b] =>
      first [ replace (a <=? b) with true by (symmetry; apply Z.leb_le; lia)
            | replace (a <=? b) with false by (symmetry; apply Z.leb_gt; lia) ]
  | |- context [?a <? ?b] =>
      first [ replace (a <? b) with true by (symmetry; apply Z.ltb_lt; lia)
            | replace (a <? b) with false by (symmetry; apply Z.ltb_ge; lia) ]
  | |- context [?a =? ?b] =>
      first [ replace (a =? b) with true by (symmetry; apply Z.eqb_eq; lia)
            | replace (a =? b) with false by (symmetry; apply Z.eqb_neq; lia) ]
  end.

Ltac decoder_steps :=
  repeat (progress
            (cbn [run andb negb app initial bytes_needed lower_boundary
                  upper_boundary bytes_seen code_point];
             unfold step, lead_byte; repeat settle_test)).

Lemma run_lead_ascii b r :
  0 <= b <= 0x7F -> run initial (b :: r) = b :: run initial r.
Proof.
  intros Hb. decoder_steps. reflexivity.
Qed.

Lemma run_two b1 b2 r :
  0xC2 <= b1 <= 0xDF -> 0x80 <= b2 <= 0xBF ->
  run initial (b1 :: b2 :: r) = (b1 mod 32) * 64 + b2 mod 64 :: run initial r.
Proof.
  intros H1 H2. decoder_steps. reflexivity.
Qed.

Lemma run_three b1 b2 b3 r :
  0xE0 <= b1 <= 0xEF -> 0x80 <= b2 <= 0xBF -> 0x80 <= b3 <= 0xBF ->
  (b1 = 0xE0 -> 0xA0 <= b2) -> (b1 = 0xED -> b2 <= 0x9F) ->
  run initial (b1 :: b2 :: b3 :: r)
  = ((b1 mod 16) * 64 + b2 mod 64) * 64 + b3 mod 64 :: run initial r.
Proof.
  intros H1 H2 H3 Hlo Hhi.
  destruct (Z.eq_dec b1 0xE0); destruct (Z.eq_dec b1 0xED);
    try (exfalso; lia); decoder_steps; reflexivity.
Qed.

Lemma run_four b1 b2 b3 b4 r :
  0xF0 <= b1 <= 0xF4 -> 0x80 <= b2 <= 0xBF -> 0x80 <= b3 <= 0xBF ->
  0x80 <= b4 <= 0xBF ->
  (b1 = 0xF0 -> 0x90 <= b2) -> (b1 = 0xF4 -> b2 <= 0x8F) ->
  run initial (b1 :: b2 :: b3 :: b4 :: r)
  = (((b1 mod 8) * 64 + b2 mod 64) * 64 + b3 mod 64) * 64 + b4 mod 64
      :: run initial r.
Proof.
  intros H1 H2 H3 H4 Hlo Hhi.
  destruct (Z.eq_dec b1 0xF0); destruct (Z.eq_dec b1 0xF4);
    try (exfalso; lia); decoder_steps; reflexivity.
Qed.

(** The decoder reads back what the encoder wrote for a scalar value. *)
Lemma run_encode_scalar c r :
  is_scalar c ->
  run initial (map Z_of_byte (encode_scalar c) ++ r) = c :: run initial r.
Proof.
  intros Hc. unfold is_scalar in Hc. unfold encode_scalar.
  destruct (Z.leb_spec c 0x7F); [|destruct (Z.leb_spec c 0x7FF);
                                   [|destruct (Z.leb_spec c 0xFFFF)]];
    cbn [map app].
  - rewrite Z_of_byte_of_Z by lia. apply run_lead_ascii. lia.
  - rewrite !Z_of_byte_of_Z by (Z.div_mod_to_equations; lia).
    rewrite run_two by (Z.div_mod_to_equations; lia).
    f_equal. Z.div_mod_to_equations; lia.
  - rewrite !Z_of_byte_of_Z by (Z.div_mod_to_equations; lia).
    rewrite run_three by (Z.div_mod_to_equations; lia).
    f_equal. Z.div_mod_to_equations; lia.
  - rewrite !Z_of_byte_of_Z by (Z.div_mod_to_equations; lia).
    rewrite run_four by (Z.div_mod_to_equations; lia).
    f_equal. Z.div_mod_to_equations; lia.
Qed.

Lemma decode_encode_scalars cs :
  Forall is_scalar cs -> decode_scalars (flat_map encode_scalar cs) = cs.
Proof.
  unfold decode_scalars. induction 1 as [|c cs Hc _ IH]; [reflexivity|].
  cbn [flat_map]. rewrite map_app, run_encode_scalar by assumption.
  now rewrite IH.
Qed.

(** On a well-formed string the conversion to scalar values loses nothing. *)
Lemma scalars_of_well_formed s :
  well_formed s = true ->
  Forall is_scalar (scalars_of_units s)
  /\ flat_map units_of_scalar (scalars_of_units s) = s.
Proof.
  remember (length s) as n eqn:Hn. revert s Hn.
  induction n as [n IH] using lt_wf_ind. intros s Hn Hwf.
  destruct s as [|c r]; [split; [constructor|reflexivity]|].
  cbn [well_formed scalars_of_units] in *.
  destruct (is_lead c) eqn:Hlead.
  - destruct r as [|d r']; [discriminate|].
    apply andb_true_iff in Hwf as [Htrail Hwf]. rewrite Htrail.
    destruct (IH (length r')) with (s := r') as [IH1 IH2];
      [simpl in Hn; lia | reflexivity | assumption |].
    unfold is_lead in Hlead. unfold is_trail in Htrail.
    apply andb_true_iff in Hlead as [Hl1 Hl2].
    apply andb_true_iff in Htrail as [Ht1 Ht2].
    apply Z.leb_le in Hl1, Hl2, Ht1, Ht2.
    split.
    + constructor; [|assumption]. unfold is_scalar. lia.
    + cbn [flat_map]. rewrite IH2. unfold units_of_scalar.
      destruct (Z.ltb_spec (0x10000 + (c - 0xD800) * 0x400 + (d - 0xDC00)) 0x10000);
        [lia|].
      cbn [app]. f_equal; [|f_equal]; Z.div_mod_to_equations; lia.
  - apply andb_true_iff in Hwf as [Hwf Hr].
    apply andb_true_iff in Hwf as [Hwf Hhi].
    apply andb_true_iff in Hwf as [Htrail Hlo].
    apply negb_true_iff in Htrail. rewrite Htrail.
    destruct (IH (length r)) with (s := r) as [IH1 IH2];
      [simpl in Hn; lia | reflexivity | assumption |].
    apply Z.leb_le in Hlo, Hhi.
    unfold is_lead in Hlead. unfold is_trail in Htrail.
    apply andb_false_iff in Hlead. apply andb_false_iff in Htrail.
    rewrite !Z.leb_gt in Hlead, Htrail.
    split.
    + constructor; [|assumption]. unfold is_scalar. lia.
    + cbn [flat_map]. rewrite IH2. unfold units_of_scalar.
      destruct (Z.ltb_spec c 0x10000); [reflexivity|lia].
Qed.

(** Only a string that starts with U+FEFF has U+FEFF as its first scalar value. *)
Lemma strip_bom_scalars s :
  starts_with_bom s = false ->
  strip_bom (scalars_of_units s) = scalars_of_units s.
Proof.
  intros Hbom. destruct s as [|c r]; [reflexivity|].
  cbn [scalars_of_units starts_with_bom] in *. apply Z.eqb_neq in Hbom.
  unfold is_lead, is_trail.
  destruct (Z.leb_spec 0xD800 c); destruct (Z.leb_spec c 0xDBFF); cbn [andb].
  - destruct r as [|d r']; [reflexivity|].
    destruct (Z.leb_spec 0xDC00 d); destruct (Z.leb_spec d 0xDFFF); cbn [andb];
      try reflexivity.
    unfold strip_bom.
    destruct (Z.eqb_spec (0x10000 + (c - 0xD800) * 0x400 + (d - 0xDC00)) 0xFEFF);
      [lia|reflexivity].
  - destruct (Z.leb_spec 0xDC00 c); destruct (Z.leb_spec c 0xDFFF); cbn [andb];
      try reflexivity; unfold strip_bom;
      destruct (Z.eqb_spec c 0xFEFF); try reflexivity; lia.
  - unfold strip_bom.
    destruct (Z.leb_spec 0xDC00 c); destruct (Z.leb_spec c 0xDFFF); cbn [andb];
      try reflexivity; try lia;
      destruct (Z.eqb_spec c 0xFEFF); try reflexivity; lia.
  - lia.
Qed.

End Utf8Facts.

(** [TextDecoder] reads back what [TextEncoder] wrote for a well-formed
    string that does not start with U+FEFF. *)
Lemma TextDecoder_TextEncoder (s : jsstring) :
  Utf8.well_formed s = true -> starts_with_bom s = false ->
  TextDecoder_decode (TextEncoder_encode s) = s.
Proof.
  intros Hwf Hbom. unfold TextDecoder_decode, TextEncoder_encode.
  destruct (Utf8Facts.scalars_of_well_formed s Hwf) as [Hsc Hunits].
  rewrite Utf8Facts.decode_encode_scalars by assumption.
  rewrite Utf8Facts.strip_bom_scalars by assumption.
  exact Hunits.
Qed.


(** ** The reference primitives obey the laws *)

Lemma Reference_tag_length n seed : length (Reference.tag n seed) = n.
Proof. unfold Reference.tag. now rewrite length_map, length_seq. Qed.

#[export] Instance Reference_laws : PrimitivesLaws Reference.primitives.
Proof.
  split.
  - intros k iv pt. cbn. unfold Reference.gcm_decrypt, Reference.gcm_encrypt.
    assert (Hlen : (length (pt ++ Reference.gcm_tag k iv pt) - 16 = length pt)%nat).
    { rewrite length_app. unfold Reference.gcm_tag.
      rewrite Reference_tag_length. lia. }
    rewrite Hlen.
    rewrite firstn_app, Nat.sub_diag, firstn_all, firstn_O, app_nil_r.
    rewrite skipn_app, Nat.sub_diag, skipn_all, skipn_O. cbn [app].
    rewrite bool_decide_eq_true_2 by reflexivity.
    replace (16 <=? length (pt ++ Reference.gcm_tag k iv pt))%nat with true;
      [reflexivity|].
    symmetry. apply Nat.leb_le. rewrite length_app. unfold Reference.gcm_tag.
    rewrite Reference_tag_length. lia.
  - intros k iv pt. cbn. unfold Reference.gcm_encrypt, Reference.gcm_tag.
    now rewrite length_app, Reference_tag_length.
  - intros password salt iterations. exact (Reference_tag_length 32 _).
Qed.

(** ** The framed primitives are authentic *)

Module FramedFacts.
Import Framed.

Lemma number_from (l : bytes) (acc : Z) :
  fold_left (fun acc b => acc * 256 + Z_of_byte b) l acc
  = acc * 256 ^ Z.of_nat (length l) + number l.
Proof.
  unfold number. revert acc.
  induction l as [|b l IH]; intros acc; cbn [fold_left length].
  - change (256 ^ Z.of_nat 0) with 1. lia.
  - rewrite IH, (IH (0 * 256 + Z_of_byte b)).
    rewrite Nat2Z.inj_succ, Z.pow_succ_r by lia. lia.
Qed.

Lemma number_app (a b : bytes) :
  number (a ++ b) = number a * 256 ^ Z.of_nat (length b) + number b.
Proof. unfold number at 1. rewrite fold_left_app. apply number_from. Qed.

Lemma number_range (l : bytes) : 0 <= number l < 256 ^ Z.of_nat (length l).
Proof.
  induction l as [|b l IH] using rev_ind.
  - cbn. lia.
  - rewrite number_app, length_app. cbn [length].
    rewrite Nat2Z.inj_add, Z.pow_add_r by lia.
    change (number [b]) with (0 * 256 + Z_of_byte b).
    pose proof (Z_of_byte_range b). change (256 ^ Z.of_nat 1) with 256. nia.
Qed.

Lemma Z_of_byte_injective (a b : byte) : Z_of_byte a = Z_of_byte b -> a = b.
Proof.
  intros H. rewrite <- (byte_of_Z_of_byte a), <- (byte_of_Z_of_byte b). now rewrite H.
Qed.

Lemma number_inj (a b : bytes) :
  length a = length b -> number a = number b -> a = b.
Proof.
  revert b. induction a as [|x a IH] using rev_ind; intros b Hlen Hnum.
  - destruct b; [reflexivity|discriminate].
  - destruct b as [|y b _] using rev_ind.
    + rewrite length_app in Hlen. cbn in Hlen. lia.
    + rewrite !length_app in Hlen. cbn [length] in Hlen.
      rewrite !number_app in Hnum.
      change (number [x]) with (0 * 256 + Z_of_byte x) in Hnum.
      change (number [y]) with (0 * 256 + Z_of_byte y) in Hnum.
      change (256 ^ Z.of_nat (length [x])) with 256 in Hnum.
      change (256 ^ Z.of_nat (length [y])) with 256 in Hnum.
      pose proof (Z_of_byte_range x). pose proof (Z_of_byte_range y).
      assert (Hxy : Z_of_byte x = Z_of_byte y) by lia.
      apply Z_of_byte_injective in Hxy as ->.
      f_equal. apply IH; lia.
Qed.

(** The modulus is odd: it divides no multiple of a power of 256 unless
    it divides the factor. *)
Lemma modulus_odd (t : nat) (d : Z) :
  (modulus | d * 256 ^ Z.of_nat t) -> (modulus | d).
Proof.
  induction t as [|t IH]; intros Hdiv.
  - change (256 ^ Z.of_nat 0) with 1 in Hdiv. now rewrite Z.mul_1_r in Hdiv.
  - apply IH. rewrite Nat2Z.inj_succ, Z.pow_succ_r in Hdiv by lia.
    apply (Z.gauss modulus 256); [|reflexivity].
    replace (256 * (d * 256 ^ Z.of_nat t))
      with (d * (256 * 256 ^ Z.of_nat t)) by lia.
    exact Hdiv.
Qed.

(** Two strings of bytes that differ in three bytes in a row at most spell
    numbers that differ modulo the modulus. *)
Lemma number_local (c : Z) (a m m' r : bytes) :
  length m = length m' -> (length m <= 3)%nat ->
  (c + number (a ++ m ++ r)) mod modulus = (c + number (a ++ m' ++ r)) mod modulus ->
  m = m'.
Proof.
  intros Hlen Hshort Hmod. apply (number_inj m m' Hlen).
  rewrite !number_app, !length_app, <- Hlen in Hmod.
  pose proof (number_range m) as Hm. pose proof (number_range m') as Hm'.
  rewrite <- Hlen in Hm'.
  assert (Hpow : 256 ^ Z.of_nat (length m) <= 256 ^ 3)
    by (apply Z.pow_le_mono_r; lia).
  change (256 ^ 3) with 16777216 in Hpow.
  assert (Hdiv : (modulus | (number m - number m') * 256 ^ Z.of_nat (length r))).
  { apply Z.mod_divide; [discriminate|].
    replace ((number m - number m') * 256 ^ Z.of_nat (length r))
      with ((c + (number a * 256 ^ Z.of_nat (length m + length r)
                  + (number m * 256 ^ Z.of_nat (length r) + number r)))
            - (c + (number a * 256 ^ Z.of_nat (length m + length r)
                    + (number m' * 256 ^ Z.of_nat (length r) + number r)))) by lia.
    rewrite Zminus_mod, Hmod, Z.sub_diag. reflexivity. }
  apply modulus_odd in Hdiv. destruct Hdiv as [z Hz]. unfold modulus in Hz. lia.
Qed.

Lemma Z_of_byte_of_Z_mod (z : Z) : Z_of_byte (byte_of_Z z) = z mod 256.
Proof.
  unfold byte_of_Z. pose proof (Z.mod_pos_bound z 256 ltac:(lia)) as Hz.
  destruct (Byte.of_N (Z.to_N (z mod 256))) as [b|] eqn:Hb.
  - apply Byte.to_of_N in Hb. unfold Z_of_byte. lia.
  - apply Byte.of_N_None_iff in Hb. lia.
Qed.

Lemma frame_tag_length k iv pt : length (frame_tag k iv pt) = 16%nat.
Proof. reflexivity. Qed.

(** The tag ends the frame with the bytes 2 and 1. *)
Lemma frame_tag_ends k iv pt :
  exists front, frame_tag k iv pt = front ++ [x02; x01].
Proof.
  unfold frame_tag. eexists. rewrite !app_assoc. reflexivity.
Qed.

(** The tag, without its first two bytes, tells the syndrome. *)
Lemma frame_tag_syndrome k iv pt iv' pt' :
  skipn 2 (frame_tag k iv pt) = skipn 2 (frame_tag k iv' pt') ->
  syndrome k iv pt = syndrome k iv' pt'.
Proof.
  unfold frame_tag.
  assert (Hrange : forall iv pt, 0 <= syndrome k iv pt < modulus)
    by (intros; apply Z.mod_pos_bound; reflexivity).
  pose proof (Hrange iv pt) as Hs. pose proof (Hrange iv' pt') as Hs'.
  set (s := syndrome k iv pt) in *. set (s' := syndrome k iv' pt') in *.
  cbn [app skipn map]. intros [= H24 H16 H8 H0].
  apply (f_equal Z_of_byte) in H24, H16, H8, H0.
  rewrite !Z_of_byte_of_Z_mod in H24, H16, H8, H0.
  unfold modulus in *. clearbody s s'.
  change (2 ^ 24) with 16777216 in *. change (2 ^ 16) with 65536 in *.
  change (2 ^ 8) with 256 in *.
  Z.div_mod_to_equations. lia.
Qed.

(** What validates is a plaintext followed by its tag. *)
Lemma frame_decrypt_Some k iv c pt :
  frame_decrypt k iv c = Some pt -> c = pt ++ frame_tag k iv pt.
Proof.
  unfold frame_decrypt.
  destruct (Nat.leb_spec 16 (length c)) as [Hlen | Hlen]; [|discriminate].
  destruct (bool_decide_reflect
              (skipn (length c - 16) c = frame_tag k iv (firstn (length c - 16) c)))
    as [Htag | Htag]; [|discriminate].
  cbn [andb]. intros [= <-]. rewrite <- Htag. symmetry. apply firstn_skipn.
Qed.


(** The tag ends with the bytes 0, 2 and 1. *)
Lemma frame_tag_tail k iv pt :
  exists front, frame_tag k iv pt = front ++ [x00; x02; x01].
Proof.
  unfold frame_tag. cbn [repeat map].
  eexists ([_; _; _; _; _; _] ++ [_; _; _; _; _; _; _]). reflexivity.
Qed.

(** A payload that validates and differs from a genuine one in three bytes
    in a row at most is the genuine one. *)
Lemma local_change_is_detected (k iv pt iv' pt' p x x' q : bytes) :
  length iv = 12%nat -> length iv' = 12%nat ->
  iv ++ pt ++ frame_tag k iv pt = p ++ x ++ q ->
  iv' ++ pt' ++ frame_tag k iv' pt' = p ++ x' ++ q ->
  length x' = length x -> (length x <= 3)%nat ->
  iv' ++ pt' ++ frame_tag k iv' pt' = iv ++ pt ++ frame_tag k iv pt.
Proof.
  intros Hiv Hiv' Hg Hb Hlen Hshort.
  assert (Hpt : length pt' = length pt).
  { apply (f_equal length) in Hg, Hb.
    rewrite !length_app, !frame_tag_length in Hg, Hb. lia. }
  set (m := (12 + length pt)%nat).
  assert (Hdata : iv' ++ pt' = iv ++ pt ->
                  iv' ++ pt' ++ frame_tag k iv' pt' = iv ++ pt ++ frame_tag k iv pt).
  { intros Heq. apply app_inj_1 in Heq as [-> ->]; [reflexivity|lia]. }
  apply Hdata.
  assert (Hd : iv ++ pt = take m (p ++ x ++ q)).
  { rewrite <- Hg, app_assoc, take_app_length'; [reflexivity|].
    rewrite length_app. lia. }
  assert (Hd' : iv' ++ pt' = take m (p ++ x' ++ q)).
  { rewrite <- Hb, app_assoc, take_app_length'; [reflexivity|].
    rewrite length_app. lia. }
  destruct (decide (m <= length p)%nat) as [Hm | Hm].
  - rewrite Hd, Hd', !take_app_le by assumption. reflexivity.
  - assert (Htag : drop 2 (frame_tag k iv pt) = drop 2 (frame_tag k iv' pt')).
    { assert (Ht : forall iv0 pt0 x0,
                length iv0 = 12%nat -> length pt0 = length pt ->
                length x0 = length x ->
                iv0 ++ pt0 ++ frame_tag k iv0 pt0 = p ++ x0 ++ q ->
                drop 2 (frame_tag k iv0 pt0)
                = drop (m + 2 - length p - length x) q).
      { intros iv0 pt0 x0 Hiv0 Hpt0 Hx0 Heq.
        transitivity (drop (m + 2) (iv0 ++ pt0 ++ frame_tag k iv0 pt0)).
        - rewrite app_assoc, drop_app_ge by (rewrite length_app; lia).
          f_equal. rewrite length_app. lia.
        - rewrite Heq, drop_app_ge by lia. rewrite drop_app_ge by lia.
          f_equal. lia. }
      rewrite (Ht iv pt x), (Ht iv' pt' x'); auto. }
    apply frame_tag_syndrome in Htag. unfold syndrome in Htag.
    rewrite Hd, Hd' in Htag |- *.
    rewrite !(take_app_ge p) in Htag |- * by lia.
    rewrite !(take_app _ q) in Htag |- *.
    rewrite Hlen in Htag |- *.
    apply number_local in Htag.
    + now rewrite Htag.
    + rewrite !length_take. lia.
    + rewrite length_take. lia.
Qed.

Lemma last_map_byte_of_Z (l : list Z) (y : Z) :
  last l = Some y -> last (map byte_of_Z l) = Some (byte_of_Z y).
Proof.
  intros Hlast. destruct l as [|z l _] using rev_ind; [discriminate|].
  rewrite last_snoc in Hlast. injection Hlast as ->.
  rewrite map_app. apply last_snoc.
Qed.

Lemma map_Z_of_byte_of_Z (l : list Z) :
  Forall is_octet l -> map Z_of_byte (map byte_of_Z l) = l.
Proof.
  induction 1 as [|z l Hz _ IH]; cbn; [reflexivity|].
  now rewrite Z_of_byte_of_Z, IH.
Qed.

#[export] Instance Framed_laws : PrimitivesLaws Framed.framed_primitives.
Proof.
  split.
  - intros k iv pt. cbn. unfold frame_decrypt, frame_encrypt.
    assert (Hlen : (length (pt ++ frame_tag k iv pt) - 16 = length pt)%nat)
      by (rewrite length_app, frame_tag_length; lia).
    rewrite Hlen.
    rewrite firstn_app, Nat.sub_diag, firstn_all, firstn_O, app_nil_r.
    rewrite skipn_app, Nat.sub_diag, skipn_all, skipn_O. cbn [app].
    rewrite bool_decide_eq_true_2 by reflexivity.
    replace (16 <=? length (pt ++ frame_tag k iv pt))%nat with true;
      [reflexivity|].
    symmetry. apply Nat.leb_le. rewrite length_app, frame_tag_length. lia.
  - intros k iv pt. cbn. unfold frame_encrypt.
    now rewrite length_app, frame_tag_length.
  - intros password salt iterations. exact (Reference_tag_length 32 _).
Qed.

End FramedFacts.

Module FramedAuthenticity.
Import Framed FramedFacts TamperedFacts.

(** The payload that validates is nonce, plaintext and tag. *)
Lemma validated_payload k (payload pt' : bytes) :
  frame_decrypt k (firstn 12 payload) (skipn 12 payload) = Some pt' ->
  payload = firstn 12 payload ++ pt' ++ frame_tag k (firstn 12 payload) pt'.
Proof.
  intros Hdec. apply frame_decrypt_Some in Hdec.
  rewrite <- Hdec. symmetry. apply firstn_skipn.
Qed.

#[export] Instance Framed_authentic : Authenticity Framed.framed_primitives.
Proof.
  split. intros k iv pt altered Hiv Htampered Hne.
  cbn [aes_gcm_encrypt aes_gcm_decrypt framed_primitives] in *.
  unfold frame_encrypt in *.
  set (genuine := iv ++ pt ++ frame_tag k iv pt) in *.
  destruct (frame_decrypt k (firstn 12 (map byte_of_Z altered))
              (skipn 12 (map byte_of_Z altered))) as [pt'|] eqn:Hdec;
    [exfalso|reflexivity].
  apply validated_payload in Hdec.
  set (iv' := firstn 12 (map byte_of_Z altered)) in *.
  destruct (frame_tag_tail k iv pt) as (front & Hfront).
  destruct (frame_tag_tail k iv' pt') as (front' & Hfront').
  assert (Hlast : last (map byte_of_Z altered) = Some x01).
  { rewrite Hdec, Hfront', !app_assoc.
    change [x00; x02; x01] with ([x00; x02] ++ [x01]).
    rewrite app_assoc. apply last_snoc. }
  assert (Hgenuine : genuine = (iv ++ pt ++ front ++ [x00; x02]) ++ [x01]).
  { unfold genuine. rewrite Hfront, <- !app_assoc. reflexivity. }
  inversion Htampered as [pre s s' post Hsplit Hs' Halt
                         | pre s post Hmod Hsplit Halt
                         | x rest Hrest Halt
                         | x Hx Halt].
  - (* a group changed *)
    destruct (changed_group_is_local _ pre s s' post (Forall_octet genuine) Hs' Hsplit)
      as (p & y & y' & q & Hg & Ha & Hlen & Hshort & Hy').
    rewrite Halt in Ha.
    assert (Hoctets : Forall is_octet altered).
    { pose proof (Forall_octet genuine) as Hall. rewrite Hg in Hall.
      apply Forall_app in Hall as [Hp Hall]. apply Forall_app in Hall as [_ Hq].
      rewrite Ha. apply Forall_app. split; [exact Hp|].
      apply Forall_app. split; [exact Hy'|exact Hq]. }
    apply Hne. rewrite <- (map_Z_of_byte_of_Z altered Hoctets). f_equal.
    rewrite Hdec.
    apply (local_change_is_detected k iv pt iv' pt'
             (map byte_of_Z p) (map byte_of_Z y) (map byte_of_Z y') (map byte_of_Z q)).
    + exact Hiv.
    + unfold iv'. rewrite length_take, length_map.
      apply (f_equal length) in Ha. rewrite !length_app in Ha.
      apply (f_equal length) in Hg. rewrite !length_app, length_map in Hg.
      unfold genuine in Hg. rewrite !length_app, frame_tag_length in Hg. lia.
    + fold genuine. rewrite <- !map_app, <- Hg. symmetry. apply map_byte_of_Z_of_byte.
    + rewrite <- Hdec, <- !map_app. now rewrite Ha.
    + now rewrite !length_map.
    + now rewrite length_map.
  - (* a group lost *)
    rewrite length_map in Hmod.
    assert (Hbody : map Z_of_byte genuine
                    = map Z_of_byte (iv ++ pt ++ front) ++ [0; 2; 1]).
    { unfold genuine. rewrite Hfront, !app_assoc, map_app. reflexivity. }
    rewrite Hbody in Hsplit.
    destruct (lost_group_last (map Z_of_byte (iv ++ pt ++ front)) 0 pre s post)
      as (y & Hy & Hoctet & Hy1);
      [unfold is_octet; lia| |exact Hsplit|].
    + apply (f_equal length) in Hbody. rewrite length_app, !length_map in Hbody.
      rewrite length_map. cbn [length] in Hbody.
      pose proof (Nat.div_mod_eq (length genuine) 3) as Hdiv.
      rewrite Hmod in Hdiv.
      replace (length (iv ++ pt ++ front))
        with ((length genuine / 3 - 1) * 3)%nat by lia.
      apply Nat.Div0.mod_mul.
    + rewrite Halt in Hy. apply last_map_byte_of_Z in Hy.
      rewrite Hlast in Hy. injection Hy as Hy.
      apply (f_equal Z_of_byte) in Hy. rewrite Z_of_byte_of_Z in Hy by assumption.
      apply Hy1. now rewrite <- Hy.
  - (* the last byte lost *)
    subst rest.
    assert (Hrest' : map Z_of_byte genuine
                     = map Z_of_byte (iv ++ pt ++ front ++ [x00; x02]) ++ [1])
      by (rewrite Hgenuine at 1; now rewrite map_app).
    rewrite Hrest' in Hrest. apply app_inj_tail in Hrest as [<- _].
    rewrite map_byte_of_Z_of_byte in Hlast.
    change [x00; x02] with ([x00] ++ [x02]) in Hlast.
    rewrite !app_assoc, last_snoc in Hlast. discriminate.
  - (* a byte added *)
    rewrite <- Halt, map_app, map_byte_of_Z_of_byte in Hdec.
    rewrite Hfront' in Hdec.
    change [x00; x02; x01] with ([x00; x02] ++ [x01]) in Hdec.
    rewrite !app_assoc in Hdec. cbn [map] in Hdec.
    apply app_inj_tail in Hdec as [Hdec _].
    apply (f_equal last) in Hdec.
    rewrite Hgenuine, last_snoc in Hdec.
    change [x00; x02] with ([x00] ++ [x02]) in Hdec.
    rewrite !app_assoc, last_snoc in Hdec. discriminate.
Qed.

End FramedAuthenticity.

(** ** C1: the field cipher round trip *)

Section FieldCipher.

Context {P : Primitives} {L : PrimitivesLaws P}.

Lemma length_getRandomValues n e : length (fst (getRandomValues n e)) = n.
Proof. unfold getRandomValues. cbn. now rewrite length_map, length_seq. Qed.

(** What [decrypt] returns on what [encrypt] returned. *)
Lemma decrypt_encrypt_gen (key : CryptoKey) (plaintext : jsstring) (e : entropy) :
  exists w,
    fst (encrypt key plaintext e) = Return w
    /\ decrypt key w = Return (TextDecoder_decode (TextEncoder_encode plaintext)).
Proof.
  unfold encrypt.
  pose proof (length_getRandomValues AES_GCM_NONCE_BYTES e) as Hlen.
  destruct (getRandomValues AES_GCM_NONCE_BYTES e) as [nonce e'] eqn:Hrand.
  cbn [fst] in *.
  set (ct := aes_gcm_encrypt (key_bytes key) nonce (TextEncoder_encode plaintext)).
  destruct (fromBase64_toBase64 (nonce ++ ct)) as (w & Hw & Hback).
  exists w. split; [exact Hw|].
  unfold decrypt. rewrite Hback. cbn [cbind].
  rewrite firstn_app, Hlen, Nat.sub_diag, firstn_O, app_nil_r.
  rewrite <- Hlen at 1. rewrite firstn_all.
  rewrite skipn_app, Hlen, Nat.sub_diag, skipn_O.
  rewrite <- Hlen at 1. rewrite skipn_all. cbn [app].
  unfold ct. now rewrite aes_gcm_decrypt_encrypt.
Qed.

Lemma encryptData_encrypt data key e :
  fst (fst (encryptData data key e)) = fst (encrypt key data e).
Proof.
  unfold encryptData, encrypt, NONCE_BYTES, AES_GCM_NONCE_BYTES.
  now destruct (getRandomValues 12 e).
Qed.

Lemma decryptData_decrypt w key : fst (decryptData w key) = decrypt key w.
Proof.
  unfold decryptData, decrypt, NONCE_BYTES, AES_GCM_NONCE_BYTES.
  now destruct (fromBase64 w).
Qed.

(** A first code unit U+FEFF does not come back. *)
Lemma TextDecoder_TextEncoder_bom (s : jsstring) :
  Utf8.well_formed s = true ->
  TextDecoder_decode (TextEncoder_encode (0xFEFF :: s)) = s.
Proof.
  intros Hwf. unfold TextDecoder_decode, TextEncoder_encode.
  destruct (Utf8Facts.scalars_of_well_formed s Hwf) as [Hsc Hunits].
  change (Utf8.scalars_of_units (0xFEFF :: s))
    with (0xFEFF :: Utf8.scalars_of_units s).
  rewrite Utf8Facts.decode_encode_scalars.
  - exact Hunits.
  - constructor; [|assumption]. unfold Utf8.is_scalar. lia.
Qed.

(** Whatever the primitives and the key, a first code unit U+FEFF is lost
    on the way. *)
Lemma decrypt_encrypt_drops_bom (key : CryptoKey) (s : jsstring) (e : entropy) :
  Utf8.well_formed s = true ->
  exists w, fst (encrypt key (0xFEFF :: s) e) = Return w /\ decrypt key w = Return s.
Proof.
  intros Hwf. destruct (decrypt_encrypt_gen key (0xFEFF :: s) e) as (w & Hw & Hdec).
  exists w. split; [exact Hw|]. now rewrite Hdec, TextDecoder_TextEncoder_bom.
Qed.

(** C1, as amended. For every key and every plaintext that is
    well-formed UTF-16 (no surrogate outside a pair) and does not start
    with U+FEFF, [encrypt] returns a wire string, which is the base64
    text of the 12 bytes of nonce read from the random source followed by
    ciphertext and tag, and [decrypt] returns the plaintext from it; the
    same holds of [encryptData] and [decryptData]. *)
Theorem encrypt_decrypt_roundtrip
    (key : CryptoKey) (plaintext : jsstring) (e : entropy) :
  Utf8.well_formed plaintext = true ->
  starts_with_bom plaintext = false ->
  (exists w nonce,
      fst (encrypt key plaintext e) = Return w
      /\ nonce = fst (getRandomValues 12 e) /\ length nonce = 12%nat
      /\ toBase64 (nonce ++ aes_gcm_encrypt (key_bytes key) nonce
                              (TextEncoder_encode plaintext)) = Return w
      /\ decrypt key w = Return plaintext)
  /\ (exists w,
        fst (fst (encryptData plaintext key e)) = Return w
        /\ fst (decryptData w key) = Return plaintext).
Proof.
  intros Hwf Hbom.
  destruct (decrypt_encrypt_gen key plaintext e) as (w & Hw & Hdec).
  rewrite TextDecoder_TextEncoder in Hdec by assumption.
  split.
  - exists w, (fst (getRandomValues 12 e)).
    split; [exact Hw|]. split; [reflexivity|].
    split; [apply length_getRandomValues|]. split; [|exact Hdec].
    revert Hw. unfold encrypt, AES_GCM_NONCE_BYTES.
    now destruct (getRandomValues 12 e).
  - exists w. now rewrite encryptData_encrypt, decryptData_decrypt.
Qed.

End FieldCipher.

Section FieldCipherExamples.

#[local] Existing Instance Reference.primitives.

Lemma encrypt_decrypt_roundtrip_witness :
  (exists w nonce,
      fst (encrypt Reference.key (js "s3cret") Reference.tape) = Return w
      /\ nonce = fst (getRandomValues 12 Reference.tape) /\ length nonce = 12%nat
      /\ toBase64 (nonce ++ aes_gcm_encrypt (key_bytes Reference.key) nonce
                              (TextEncoder_encode (js "s3cret"))) = Return w
      /\ decrypt Reference.key w = Return (js "s3cret"))
  /\ (exists w,
        fst (fst (encryptData (js "s3cret") Reference.key Reference.tape)) = Return w
        /\ fst (decryptData w Reference.key) = Return (js "s3cret")).
Proof.
  apply (@encrypt_decrypt_roundtrip Reference.primitives Reference_laws);
    reflexivity.
Defined.

(** C1, as stated, fails: a plaintext that starts with U+FEFF comes back
    without it, and a surrogate outside a pair comes back as U+FFFD, from
    the worker's pair and from the client's pair alike. *)
Lemma roundtrip_alters_plaintext :
  (let* w := fst (encrypt Reference.key [0xFEFF; 97] Reference.tape) in
   decrypt Reference.key w) = Return [97]
  /\ (let* w := fst (fst (encryptData [0xFEFF; 97] Reference.key Reference.tape)) in
      fst (decryptData w Reference.key)) = Return [97]
  /\ (let* w := fst (encrypt Reference.key [0xD83D; 97] Reference.tape) in
      decrypt Reference.key w) = Return [0xFFFD; 97]
  /\ (let* w := fst (fst (encryptData [0xD83D; 97] Reference.key Reference.tape)) in
      fst (decryptData w Reference.key)) = Return [0xFFFD; 97].
Proof. vm_compute. repeat split. Qed.

End FieldCipherExamples.


(** ** C9 and C7: the password hasher *)

Lemma timingSafeEqual_refl (a : bytes) : timingSafeEqual a a = true.
Proof.
  unfold timingSafeEqual. rewrite Nat.eqb_refl. cbn [negb].
  assert (H : fold_left
                (fun m xy => Z.lor m (Z.lxor (Z_of_byte (fst xy)) (Z_of_byte (snd xy))))
                (combine a a) 0 = 0).
  { induction a as [|x a IH]; [reflexivity|].
    cbn [combine fold_left fst snd]. now rewrite Z.lxor_nilpotent. }
  now rewrite H.
Qed.

Lemma span_stop (p : Z -> bool) (s : jsstring) (c : Z) (r : jsstring) :
  Forall (fun x => p x = true) s -> p c = false ->
  span p (s ++ c :: r) = (s, c :: r).
Proof.
  intros Hs Hc. induction Hs as [|x s Hx _ IH]; cbn [app span].
  - now rewrite Hc.
  - now rewrite Hx, IH.
Qed.

Lemma span_all (p : Z -> bool) (s : jsstring) :
  Forall (fun x => p x = true) s -> span p s = (s, []).
Proof.
  induction 1 as [|x s Hx _ IH]; cbn [span]; [reflexivity|].
  now rewrite Hx, IH.
Qed.

(** Base64 text has no [$], and is not empty unless the bytes are. *)
Lemma encode_not_dollar (l : list Z) :
  Forall is_octet l ->
  Forall (fun c => not_dollar c = true) (Base64.encode l).
Proof.
  intros Hl. unfold Base64.encode. apply Forall_app. split.
  - eapply Forall_impl; [apply Base64Facts.body_in_alphabet, Hl|].
    intros c Hc. apply Base64Facts.in_alphabet_inv in Hc as (_ & _ & Hc).
    unfold not_dollar. now destruct (Z.eqb_spec c 36).
  - destruct (Base64Facts.padding_cases (length l)) as [-> | [-> | ->]];
      repeat constructor.
Qed.

Lemma encode_nonempty (l : list Z) : l <> [] -> Base64.encode l <> [].
Proof.
  unfold Base64.encode. destruct l as [|a [|b [|c r]]]; [congruence|discriminate..].
Qed.

Section PasswordHasherFacts.

Context {P : Primitives} {L : PrimitivesLaws P}.

(** The hash string that [hashPassword] returns. *)
Lemma hashPassword_returns (password : jsstring) (e : entropy) :
  let salt := fst (getRandomValues SALT_BYTES e) in
  let hashBytes :=
    pbkdf2_sha256 (TextEncoder_encode password) salt PBKDF2_ITERATIONS_DEFAULT in
  fst (hashPassword password e)
  = Return (js "$pbkdf2$" ++ js "100" ++ js "$"
              ++ Base64.encode (map Z_of_byte salt) ++ js "$"
              ++ Base64.encode (map Z_of_byte hashBytes)).
Proof.
  unfold hashPassword, getRandomValues. cbn [fst].
  unfold subtle_deriveBits. cbn [cbind orb].
  change (PBKDF2_ITERATIONS_DEFAULT <? 0) with false.
  change (4294967295 <? PBKDF2_ITERATIONS_DEFAULT) with false.
  change (PBKDF2_ITERATIONS_DEFAULT =? 0) with false. cbn [orb cbind].
  rewrite !toBase64_returns. cbn [cbind]. reflexivity.
Qed.

(** The pattern of [verifyPassword] reads the three parts back from a
    hash string of the format of [hashPassword]. *)
Lemma match_pbkdf2_format (S H : jsstring) :
  Forall (fun c => not_dollar c = true) S -> S <> [] ->
  Forall (fun c => not_dollar c = true) H -> H <> [] ->
  let h := js "$pbkdf2$" ++ js "100" ++ js "$" ++ S ++ js "$" ++ H in
  startsWith h (js "$pbkdf2$") = true
  /\ match_pbkdf2 h = Some (js "100", S, H).
Proof.
  intros HS HSne HH HHne h. unfold h, match_pbkdf2.
  change (js "$pbkdf2$") with [36; 112; 98; 107; 100; 102; 50; 36].
  change (js "100") with [49; 48; 48]. change (js "$") with [36].
  cbn [app startsWith strip_prefix Z.eqb Pos.eqb andb negb].
  cbn [span is_digit Z.leb Z.compare Pos.compare Pos.compare_cont andb].
  rewrite span_stop by (assumption || reflexivity).
  rewrite span_all by assumption.
  destruct S as [|s0 S']; [congruence|].
  destruct H as [|h0 H']; [congruence|].
  split; reflexivity.
Qed.

(** C9. For every password, [hashPassword] returns a hash string, and
    [verifyPassword] returns true for the password and that string; it
    still does for the string read back from the column it was stored in.
    The string describes itself: the pattern of [verifyPassword] reads from
    it the iteration count 100 and the base64 text of the salt and of the
    digest that PBKDF2 gives for this password, salt and count. *)
Theorem verifyPassword_hashPassword (password : jsstring) (e : entropy) :
  exists h,
    fst (hashPassword password e) = Return h
    /\ verifyPassword password h = Return true
    /\ (forall (table : gmap Z jsstring) (id : Z) (stored : jsstring),
          <[id := h]> table !! id = Some stored ->
          verifyPassword password stored = Return true)
    /\ exists iterationsStr saltB64 hashB64 salt,
        startsWith h (js "$pbkdf2$") = true
        /\ match_pbkdf2 h = Some (iterationsStr, saltB64, hashB64)
        /\ Number_of_digits iterationsStr = PBKDF2_ITERATIONS_DEFAULT
        /\ fromBase64 saltB64 = Return salt
        /\ fromBase64 hashB64
           = Return (pbkdf2_sha256 (TextEncoder_encode password) salt
                                   PBKDF2_ITERATIONS_DEFAULT).
Proof.
  eexists. split; [apply hashPassword_returns|].
  set (salt := fst (getRandomValues SALT_BYTES e)).
  set (hashBytes := pbkdf2_sha256 (TextEncoder_encode password) salt
                                  PBKDF2_ITERATIONS_DEFAULT).
  remember (Base64.encode (map Z_of_byte salt)) as S eqn:ES.
  remember (Base64.encode (map Z_of_byte hashBytes)) as H eqn:EH.
  assert (HS : Forall (fun c => not_dollar c = true) S)
    by (subst S; apply encode_not_dollar, Forall_octet).
  assert (HH : Forall (fun c => not_dollar c = true) H)
    by (subst H; apply encode_not_dollar, Forall_octet).
  assert (HSne : S <> []).
  { subst S. apply encode_nonempty. intros Hnil. apply (f_equal length) in Hnil.
    rewrite length_map in Hnil. unfold salt in Hnil.
    rewrite length_getRandomValues in Hnil. discriminate. }
  assert (HHne : H <> []).
  { subst H. apply encode_nonempty. intros Hnil. apply (f_equal length) in Hnil.
    rewrite length_map in Hnil. unfold hashBytes in Hnil.
    rewrite pbkdf2_sha256_length in Hnil. discriminate. }
  assert (HfromS : fromBase64 S = Return salt).
  { subst S. unfold fromBase64, atob.
    rewrite Base64Facts.decode_encode by apply Forall_octet.
    cbn [cbind]. now rewrite map_byte_of_Z_of_byte. }
  assert (HfromH : fromBase64 H = Return hashBytes).
  { subst H. unfold fromBase64, atob.
    rewrite Base64Facts.decode_encode by apply Forall_octet.
    cbn [cbind]. now rewrite map_byte_of_Z_of_byte. }
  destruct (match_pbkdf2_format S H HS HSne HH HHne) as [Hprefix Hmatch].
  assert (Hverify :
            verifyPassword password
              (js "$pbkdf2$" ++ js "100" ++ js "$" ++ S ++ js "$" ++ H)
            = Return true).
  { unfold verifyPassword. rewrite Hprefix, Hmatch. cbn [negb].
    rewrite HfromS, HfromH. cbn [cbind].
    change (Number_of_digits (js "100")) with PBKDF2_ITERATIONS_DEFAULT.
    unfold subtle_deriveBits.
    change (PBKDF2_ITERATIONS_DEFAULT <? 0) with false.
    change (4294967295 <? PBKDF2_ITERATIONS_DEFAULT) with false.
    change (PBKDF2_ITERATIONS_DEFAULT =? 0) with false. cbn [orb cbind].
    fold hashBytes. now rewrite timingSafeEqual_refl. }
  split; [exact Hverify|]. split.
  - intros table id stored Hstored.
    rewrite lookup_insert_eq in Hstored. injection Hstored as <-.
    exact Hverify.
  - exists (js "100"), S, H, salt. repeat split; assumption || reflexivity.
Qed.

End PasswordHasherFacts.

Section PasswordHasherExamples.

#[local] Existing Instance Reference.primitives.

Lemma verifyPassword_hashPassword_witness :
  exists h,
    fst (hashPassword (js "CorrectHorse!23") Reference.tape) = Return h
    /\ verifyPassword (js "CorrectHorse!23") h = Return true.
Proof.
  destruct (@verifyPassword_hashPassword Reference.primitives Reference_laws
              (js "CorrectHorse!23") Reference.tape) as (h & Hh & Hv & _).
  exists h. split; assumption.
Defined.

End PasswordHasherExamples.

(** What [verifyPassword] does get right: a string without the prefix, or
    one the pattern does not match, verifies as false. *)
Lemma verifyPassword_unsupported {P : Primitives} (password storedHash : jsstring) :
  startsWith storedHash (js "$pbkdf2$") = false \/ match_pbkdf2 storedHash = None ->
  verifyPassword password storedHash = Return false.
Proof.
  intros [Hprefix | Hmatch]; unfold verifyPassword.
  - now rewrite Hprefix.
  - rewrite Hmatch. now destruct (startsWith storedHash (js "$pbkdf2$")).
Qed.

(** C7, the failing input. The stored hash [$pbkdf2$100$!$!] has the prefix
    and matches the pattern, but [!] is not base64: [atob] throws in
    [fromBase64], nothing catches it, and [verifyPassword] throws instead of
    returning false. A zero iteration count makes [deriveBits] throw
    likewise. *)
Theorem verifyPassword_throws_on_bad_base64 (P : Primitives) (password : jsstring) :
  verifyPassword password (js "$pbkdf2$100$!$!") = Throw InvalidCharacterError
  /\ verifyPassword password (js "$pbkdf2$0$AAAA$AAAA") = Throw OperationError.
Proof. split; reflexivity. Qed.

(** ** C2 and C3: the vault session *)

(** [checkUnlockStatus] never takes the key away: whatever it retrieves, the
    store holds a key afterwards if it held one before. *)
Lemma checkUnlockStatus_keeps_key (now now' : Z) (t : Tab) :
  is_Some (masterKey (vault t)) -> isUnlocked (vault t) = true ->
  is_Some (masterKey (vault (snd (checkUnlockStatus now now' t))))
  /\ isUnlocked (vault (snd (checkUnlockStatus now now' t))) = true
  /\ unlockExpiry (vault (snd (checkUnlockStatus now now' t))) = unlockExpiry (vault t).
Proof.
  intros Hkey Hunlocked. unfold checkUnlockStatus.
  destruct (still_unlocked now (vault t)); [easy|].
  destruct (retrieveVaultSession now' (storage t)) as [[k|] stored]; cbn; eauto.
Qed.

(** The explicit lock does what expiry does not: [clearMasterKey] discards
    the key and the stored copy. *)
Lemma clearMasterKey_locks (t : Tab) :
  masterKey (vault (clearMasterKey t)) = None
  /\ isUnlocked (vault (clearMasterKey t)) = false
  /\ storage (clearMasterKey t) = None.
Proof. repeat split. Qed.

(** C2, the failing inputs. After [setMasterKey] at time [T] with window
    [W], [checkUnlockStatus] before [T + W] returns true and changes
    nothing. From [T + W] on, at every time and whatever [sessionStorage]
    holds, it returns false and that is all: nothing is locked and no key
    is discarded. Once its retrieval from [sessionStorage] has settled,
    [isUnlocked] is still true, the key is still held in memory and
    [unlockExpiry] is still [T + W], so what reads [isUnlocked] or
    [masterKey] goes on as in the window. *)
Theorem checkUnlockStatus_after_unlock
    (key : CryptoKey) (W T T' now now' : Z) (t : Tab) :
  0 <= T -> 0 < W ->
  let t1 := setMasterKey key W T T' t in
  (now < T + W -> checkUnlockStatus now now' t1 = (true, t1))
  /\ (T + W <= now ->
      fst (checkUnlockStatus now now' t1) = false
      /\ isUnlocked (vault (snd (checkUnlockStatus now now' t1))) = true
      /\ is_Some (masterKey (vault (snd (checkUnlockStatus now now' t1))))
      /\ unlockExpiry (vault (snd (checkUnlockStatus now now' t1))) = Some (T + W)).
Proof.
  intros HT HW t1. split.
  - intros Hlt. unfold checkUnlockStatus, still_unlocked, truthy. cbn.
    destruct (Z.eqb_spec (T + W) 0); [lia|].
    destruct (Z.ltb_spec now (T + W)); [reflexivity|lia].
  - intros Hge.
    destruct (checkUnlockStatus_keeps_key now now' t1) as (Hk & Hu & He);
      [cbn; eauto | reflexivity |].
    repeat split; try assumption.
    unfold checkUnlockStatus, still_unlocked. cbn.
    destruct (Z.ltb_spec now (T + W)); [lia|]. rewrite andb_false_r.
    now destruct (retrieveVaultSession now' _).
Qed.

Lemma checkUnlockStatus_after_unlock_witness :
  let t1 := setMasterKey Reference.key DEFAULT_UNLOCK_DURATION 1000 1000
              {| vault := initial_vault; storage := None |} in
  0 <= 1000 /\ 0 < DEFAULT_UNLOCK_DURATION
  /\ checkUnlockStatus 900999 900999 t1 = (true, t1)
  /\ fst (checkUnlockStatus 901001 901001 t1) = false
  /\ isUnlocked (vault (snd (checkUnlockStatus 901001 901001 t1))) = true
  /\ is_Some (masterKey (vault (snd (checkUnlockStatus 901001 901001 t1))))
  /\ unlockExpiry (vault (snd (checkUnlockStatus 901001 901001 t1)))
     = Some (1000 + DEFAULT_UNLOCK_DURATION).
Proof.
  intros t1.
  assert (HT : 0 <= 1000) by lia.
  assert (HW : 0 < DEFAULT_UNLOCK_DURATION) by (unfold DEFAULT_UNLOCK_DURATION; lia).
  split; [exact HT|]. split; [exact HW|]. split.
  - apply (checkUnlockStatus_after_unlock Reference.key DEFAULT_UNLOCK_DURATION
             1000 1000 900999 900999 {| vault := initial_vault; storage := None |}
             HT HW).
    unfold DEFAULT_UNLOCK_DURATION. lia.
  - apply (checkUnlockStatus_after_unlock Reference.key DEFAULT_UNLOCK_DURATION
             1000 1000 901001 901001 {| vault := initial_vault; storage := None |}
             HT HW).
    unfold DEFAULT_UNLOCK_DURATION. lia.
Defined.

(** The vault is unlocked at time 1000 for 15 minutes; one millisecond
    after the expiry [checkUnlockStatus] returns false and leaves the tab
    as it was, unlocked and with the key in memory. *)
Lemma checkUnlockStatus_does_not_lock :
  let t1 := setMasterKey Reference.key DEFAULT_UNLOCK_DURATION 1000 1000
              {| vault := initial_vault; storage := None |} in
  checkUnlockStatus 901001 901001 t1 = (false, t1)
  /\ isUnlocked (vault t1) = true
  /\ masterKey (vault t1) = Some Reference.key.
Proof. repeat split. Qed.

Section VaultSession.

Context {P : Primitives}.

Lemma deriveKey_returns (password salt : jsstring) :
  deriveKey password salt
  = Return {| key_bytes := pbkdf2_sha256 (TextEncoder_encode password)
                                         (TextEncoder_encode salt)
                                         PBKDF2_ITERATIONS;
              extractable := false |}.
Proof. reflexivity. Qed.

(** C3, the failing input. [deriveKey] returns a key that is not
    extractable; [storeVaultSession] cannot export it, so [setMasterKey]
    writes nothing to [sessionStorage], and after a reload
    [checkUnlockStatus], at any time, finds nothing to restore: the vault
    stays locked. *)
Theorem derived_key_is_not_persisted
    (password salt : jsstring) (W T T' now now' : Z) :
  exists key,
    deriveKey password salt = Return key
    /\ let t1 := setMasterKey key W T T'
                   {| vault := initial_vault; storage := None |} in
       storage t1 = None
       /\ checkUnlockStatus now now' (reload t1) = (false, reload t1)
       /\ isUnlocked (vault (reload t1)) = false
       /\ masterKey (vault (reload t1)) = None.
Proof.
  eexists. split; [apply deriveKey_returns|]. repeat split.
Qed.

End VaultSession.

(** What the code is written to do, and does for a key that can be
    exported: the key and its expiry are stored, and after a reload within
    the window [checkUnlockStatus] restores an unlocked vault from them. *)
Lemma extractable_key_is_restored (key : CryptoKey) (W T T' now now' : Z) (t : Tab) :
  extractable key = true -> length (key_bytes key) = 32%nat -> now' <= T' + W ->
  let t1 := setMasterKey key W T T' t in
  storage t1 = Some {| stored_key := map Z_of_byte (key_bytes key);
                       stored_expiry := T' + W |}
  /\ checkUnlockStatus now now' (reload t1)
     = (false,
        {| vault := {| masterKey := Some {| key_bytes := key_bytes key;
                                            extractable := false |};
                       userSalt := None;
                       isUnlocked := true;
                       unlockExpiry := None |};
           storage := storage t1 |}).
Proof.
  intros Hext Hlen Hnow t1.
  assert (Hst : storage t1 = Some {| stored_key := map Z_of_byte (key_bytes key);
                                     stored_expiry := T' + W |}).
  { unfold t1, setMasterKey, storeVaultSession, subtle_exportKey. cbn.
    now rewrite Hext. }
  split; [exact Hst|].
  unfold checkUnlockStatus, reload. cbn [vault storage still_unlocked initial_vault
                                         masterKey].
  rewrite Hst. unfold retrieveVaultSession. cbn [stored_expiry stored_key].
  destruct (Z.ltb_spec (T' + W) now'); [lia|].
  rewrite map_byte_of_Z_of_byte. unfold subtle_importKey_aes. rewrite Hlen.
  reflexivity.
Qed.

(** ** C8: redeeming a reset token *)

Section ResetPasswordFacts.

Context {P : Primitives}.

Variables (now : Z) (token : jsstring) (db : Database) (row : TokenRow)
          (expires : Z).
Hypothesis token_long : (10 <= length token)%nat.
Hypothesis token_row : password_reset_tokens db !! hashToken token = Some row.
Hypothesis row_fresh : row_used row = 0.
Hypothesis row_expiry : row_expires_at row = Some expires.
Hypothesis not_expired : now <= expires.

Lemma hashPassword_total (password : jsstring) (e : entropy) :
  hashPassword password e
  = (Return (hash_of password e), snd (hashPassword password e)).
Proof.
  unfold hash_of. rewrite hashPassword_returns.
  rewrite (surjective_pairing (hashPassword password e)) at 1.
  now rewrite hashPassword_returns.
Qed.

(** The row is selected and passes the checks whatever the other tables
    hold, as long as it is still unused. *)
Lemma step_received (newPassword : jsstring) (db0 : Database) (e : entropy) :
  (12 <= length newPassword)%nat ->
  password_reset_tokens db0 !! hashToken token = Some row ->
  resetPassword_step now (Received token newPassword) db0 e
  = (Validated (hashToken token) row newPassword, db0, e).
Proof.
  intros Hpw Hrow. unfold resetPassword_step.
  replace (length token <? 10)%nat with false by (symmetry; apply Nat.ltb_ge; lia).
  replace (length newPassword <? 12)%nat with false
    by (symmetry; apply Nat.ltb_ge; lia).
  cbn [orb]. rewrite Hrow. unfold truthy. rewrite row_fresh. cbn [Z.eqb negb].
  rewrite row_expiry.
  destruct (Z.ltb_spec expires now); [lia|reflexivity].
Qed.

Lemma step_validated (newPassword : jsstring) (db0 : Database) (e : entropy) :
  resetPassword_step now (Validated (hashToken token) row newPassword) db0 e
  = (Responded {| status := 200; body := "Password reset successfully." |},
     reset_batch (hash_of newPassword e) (hashToken token) (row_user_id row) db0,
     snd (hashPassword newPassword e)).
Proof.
  unfold resetPassword_step. now rewrite hashPassword_total.
Qed.

(** After the batch the row is marked used. *)
Lemma reset_batch_marks_used (h : jsstring) (db0 : Database) :
  password_reset_tokens db0 !! hashToken token = Some row ->
  password_reset_tokens (reset_batch h (hashToken token) (row_user_id row) db0)
    !! hashToken token
  = Some {| row_user_id := row_user_id row;
            row_expires_at := row_expires_at row;
            row_used := 1 |}.
Proof.
  intros Hrow. cbn. now rewrite lookup_alter_eq, Hrow.
Qed.

(** Run one after the other, the first redemption succeeds: the password
    hash of the user is replaced, the sessions of the user are deleted and
    the token is marked used; the second is rejected and changes nothing. *)
Lemma resetPassword_twice_in_sequence (pw1 pw2 : jsstring) (e : entropy) :
  (12 <= length pw1)%nat -> (12 <= length pw2)%nat ->
  let db1 := reset_batch (hash_of pw1 e) (hashToken token) (row_user_id row) db in
  let e1 := snd (hashPassword pw1 e) in
  resetPassword now token pw1 db e
  = (Responded {| status := 200; body := "Password reset successfully." |}, db1, e1)
  /\ (forall h0, users db !! row_user_id row = Some h0 ->
                 users db1 !! row_user_id row = Some (hash_of pw1 e))
  /\ (forall s, sessions db1 !! s <> Some (row_user_id row))
  /\ resetPassword now token pw2 db1 e1
     = (Responded {| status := 400; body := "Token already used" |}, db1, e1).
Proof.
  intros Hpw1 Hpw2 db1 e1. repeat split.
  - unfold resetPassword. rewrite step_received by assumption.
    apply step_validated.
  - intros h0 Hh0. cbn. now rewrite lookup_alter_eq, Hh0.
  - intros s Hs. cbn in Hs. apply map_lookup_filter_Some in Hs as [_ Hne].
    now apply Hne.
  - assert (Hstep : resetPassword_step now (Received token pw2) db1 e1
                    = (Responded {| status := 400; body := "Token already used" |},
                       db1, e1)).
    { unfold resetPassword_step.
      replace (length token <? 10)%nat with false
        by (symmetry; apply Nat.ltb_ge; lia).
      replace (length pw2 <? 12)%nat with false
        by (symmetry; apply Nat.ltb_ge; lia).
      cbn [orb]. unfold db1. rewrite reset_batch_marks_used by assumption.
      reflexivity. }
    unfold resetPassword. now rewrite Hstep.
Qed.

(** C8, the failing input. Two requests redeem the same valid token at
    the same time: both select the row before either runs its batch, both
    pass the check of [used], and both succeed. The check and the write
    of [used] are not one transaction. *)
Theorem reset_token_redeemed_twice (pw1 pw2 : jsstring) (e : entropy) :
  (12 <= length pw1)%nat -> (12 <= length pw2)%nat ->
  exists db' e',
    interleave [0; 1; 0; 1]%nat now [Received token pw1; Received token pw2] db e
    = ([Responded {| status := 200; body := "Password reset successfully." |};
        Responded {| status := 200; body := "Password reset successfully." |}],
       db', e').
Proof.
  intros Hpw1 Hpw2. do 2 eexists.
  cbn [interleave lookup list_lookup].
  rewrite step_received by assumption. cbn [insert list_insert lookup list_lookup].
  rewrite step_received by assumption. cbn [insert list_insert lookup list_lookup].
  rewrite step_validated. cbn [insert list_insert lookup list_lookup].
  rewrite step_validated. cbn [insert list_insert lookup list_lookup].
  reflexivity.
Qed.

End ResetPasswordFacts.

Section ResetPasswordExamples.

#[local] Existing Instance Reference.primitives.

Lemma reset_token_redeemed_twice_witness :
  exists db' e',
    interleave [0; 1; 0; 1]%nat 5000
      [Received Reference.reset_token (js "first-new-password");
       Received Reference.reset_token (js "second-new-password")]
      Reference.database Reference.tape
    = ([Responded {| status := 200; body := "Password reset successfully." |};
        Responded {| status := 200; body := "Password reset successfully." |}],
       db', e').
Proof.
  apply (reset_token_redeemed_twice 5000 Reference.reset_token Reference.database
           {| row_user_id := 7; row_expires_at := Some 10000; row_used := 0 |} 10000).
  - vm_compute. lia.
  - apply lookup_singleton_eq.
  - reflexivity.
  - reflexivity.
  - lia.
  - vm_compute. lia.
  - vm_compute. lia.
Defined.

End ResetPasswordExamples.

(** ** C5, C6 and C10: the record codec *)

Section AssignAll.

Context {P : Primitives}.

Lemma assign_all_snoc (ws : list (jsstring * jsvalue)) (w : jsstring * jsvalue)
    (m : jsobject) :
  assign_all (ws ++ [w]) m = assign (assign_all ws m) w.
Proof. unfold assign_all. now rewrite fold_left_app. Qed.

Lemma assign_all_app (ws ws' : list (jsstring * jsvalue)) (m : jsobject) :
  assign_all (ws ++ ws') m = assign_all ws' (assign_all ws m).
Proof. unfold assign_all. now rewrite fold_left_app. Qed.

(** No assignment creates a property [__proto__]. *)
Lemma assign_all_proto (ws : list (jsstring * jsvalue)) (m : jsobject) :
  assign_all ws m !! js "__proto__" = m !! js "__proto__".
Proof.
  induction ws as [|w ws IH] using rev_ind; [reflexivity|].
  rewrite assign_all_snoc. unfold assign.
  destruct (bool_decide_reflect (fst w = js "__proto__")) as [Hw | Hw]; [exact IH|].
  now rewrite lookup_insert_ne.
Qed.

(** The properties of the result are those it had and those assigned,
    [__proto__] apart. *)
Lemma assign_all_is_Some (ws : list (jsstring * jsvalue)) (m : jsobject)
    (k : jsstring) :
  is_Some (assign_all ws m !! k)
  <-> is_Some (m !! k) \/ (k <> js "__proto__" /\ exists v, (k, v) ∈ ws).
Proof.
  induction ws as [|w ws IH] using rev_ind.
  - cbn. split; [auto|]. intros [H | (_ & v & Hv)]; [exact H|]. inversion Hv.
  - rewrite assign_all_snoc. unfold assign.
    destruct (bool_decide_reflect (fst w = js "__proto__")) as [Hw | Hw].
    + rewrite IH. split.
      * intros [Hm | (Hk & v & Hv)]; [now left|].
        right. split; [exact Hk|]. exists v. apply elem_of_app. now left.
      * intros [Hm | (Hk & v & Hv)]; [now left|].
        apply elem_of_app in Hv as [Hv | Hv]; [right; eauto|].
        apply list_elem_of_singleton in Hv. subst w. now destruct Hk.
    + rewrite lookup_insert_is_Some', IH. split.
      * intros [Hk | [Hm | (Hk & v & Hv)]].
        -- right. split; [congruence|]. exists (snd w). apply elem_of_app. right.
           apply list_elem_of_singleton. destruct w; cbn in *; now subst.
        -- now left.
        -- right. split; [exact Hk|]. exists v. apply elem_of_app. now left.
      * intros [Hm | (Hk & v & Hv)]; [auto|].
        apply elem_of_app in Hv as [Hv | Hv]; [eauto|].
        apply list_elem_of_singleton in Hv. subst w. now left.
Qed.

(** A property all of whose assignments carry the same value has that value. *)
Lemma assign_all_lookup (ws : list (jsstring * jsvalue)) (m : jsobject)
    (k : jsstring) (v : jsvalue) :
  k <> js "__proto__" ->
  (k, v) ∈ ws -> (forall v', (k, v') ∈ ws -> v' = v) ->
  assign_all ws m !! k = Some v.
Proof.
  intros Hproto.
  induction ws as [|w ws IH] using rev_ind; intros Hin Hsame.
  - inversion Hin.
  - rewrite assign_all_snoc. unfold assign.
    destruct (decide (fst w = k)) as [Hk | Hk].
    + rewrite bool_decide_eq_false_2 by congruence.
      rewrite Hk, lookup_insert_eq. f_equal. apply Hsame.
      apply elem_of_app. right. apply list_elem_of_singleton.
      destruct w; cbn in *; now subst.
    + assert (Hrest : assign_all ws m !! k = Some v).
      { apply IH.
        - apply elem_of_app in Hin as [Hin | Hin]; [exact Hin|].
          apply list_elem_of_singleton in Hin. subst w. now destruct Hk.
        - intros v' Hv'. apply Hsame, elem_of_app. now left. }
      destruct (bool_decide (fst w = js "__proto__")); [exact Hrest|].
      now rewrite lookup_insert_ne.
Qed.

(** What one entry makes the callback assign. *)
Lemma decrypt_field_spec (key : CryptoKey) (entry : jsstring * jsvalue) :
  match target (fst entry) with
  | Some k =>
      decrypt_field key entry = WriteNow k (written_value key entry)
      \/ decrypt_field key entry = WriteLater k (written_value key entry)
  | None => decrypt_field key entry = NoWrite
  end.
Proof.
  destruct entry as [fieldKey value]. unfold target, decrypt_field, written_value.
  cbn [fst snd]. destruct (endsWith fieldKey ENCRYPTED_SUFFIX).
  - destruct value as [| |[|c s]|n|str]; auto.
  - destruct (is_passthrough fieldKey); auto.
Qed.

(** The assignments that wait are those of the two kinds. *)
Lemma elem_of_writes_later (key : CryptoKey) (entries : list (jsstring * jsvalue))
    (w : jsstring * jsvalue) :
  w ∈ writes_later key entries
  <-> w ∈ writes_rejected key entries \/ w ∈ writes_decrypted key entries.
Proof.
  unfold writes_rejected, writes_decrypted, writes_later.
  rewrite !list_elem_of_omap. split.
  - intros (entry & Hin & Hw).
    destruct (reaches_cipher key entry) eqn:Hr; [right | left];
      exists entry; (split; [apply list_elem_of_filter; auto | exact Hw]).
  - intros [(entry & Hin & Hw) | (entry & Hin & Hw)];
      apply list_elem_of_filter in Hin as [_ Hin]; eauto.
Qed.

(** The assignments made are those of the entries, whatever the order in
    which the answers of the cipher are delivered. *)
Lemma elem_of_writes (key : CryptoKey) (entries settled : list (jsstring * jsvalue))
    (k : jsstring) (v : jsvalue) :
  Permutation (writes_decrypted key entries) settled ->
  (k, v) ∈ writes_now key entries ++ writes_rejected key entries ++ settled
  <-> exists entry, entry ∈ entries /\ target (fst entry) = Some k
                    /\ v = written_value key entry.
Proof.
  intros Hperm. rewrite !elem_of_app, <- Hperm, <- elem_of_writes_later.
  unfold writes_now, writes_later.
  rewrite !list_elem_of_omap. split.
  - intros [(entry & Hin & Hw) | (entry & Hin & Hw)]; exists entry;
      pose proof (decrypt_field_spec key entry) as Hspec;
      destruct (decrypt_field key entry) as [k' v'|k' v'|] eqn:Hd;
      try discriminate; injection Hw as <- <-;
      (destruct (target (fst entry)) as [k''|];
       [destruct Hspec as [Hs | Hs]; inversion Hs; subst; auto | discriminate]).
  - intros (entry & Hin & Ht & ->).
    pose proof (decrypt_field_spec key entry) as Hspec. rewrite Ht in Hspec.
    destruct Hspec as [Hs | Hs]; [left | right]; exists entry; now rewrite Hs.
Qed.

(** The properties of the result of [decryptObject]. *)
Lemma decryptObject_is_Some (key : CryptoKey) (entries : list (jsstring * jsvalue))
    (m : jsobject) (k : jsstring) :
  decryptObject_settles entries key m ->
  is_Some (m !! k)
  <-> k <> js "__proto__"
      /\ exists entry, entry ∈ entries /\ target (fst entry) = Some k.
Proof.
  intros (settled & Hperm & ->). rewrite assign_all_is_Some, lookup_empty. split.
  - intros [[? H] | (Hk & v & Hv)]; [discriminate|]. split; [exact Hk|].
    apply (elem_of_writes key entries settled k v Hperm) in Hv
        as (entry & ? & ? & _). eauto.
  - intros (Hk & entry & Hin & Ht). right. split; [exact Hk|].
    exists (written_value key entry).
    apply (elem_of_writes key entries settled k _ Hperm). eauto.
Qed.

(** The result never has a property [__proto__]. *)
Lemma decryptObject_proto (key : CryptoKey) (entries : list (jsstring * jsvalue))
    (m : jsobject) :
  decryptObject_settles entries key m -> m !! js "__proto__" = None.
Proof. intros (settled & _ & ->). now rewrite assign_all_proto. Qed.

(** The value of a property that no two entries assign differently. *)
Lemma decryptObject_lookup (key : CryptoKey) (entries : list (jsstring * jsvalue))
    (m : jsobject) (entry : jsstring * jsvalue) (k : jsstring) :
  decryptObject_settles entries key m ->
  k <> js "__proto__" ->
  entry ∈ entries -> target (fst entry) = Some k ->
  (forall entry', entry' ∈ entries -> target (fst entry') = Some k ->
                  written_value key entry' = written_value key entry) ->
  m !! k = Some (written_value key entry).
Proof.
  intros (settled & Hperm & ->) Hk Hin Ht Hsame. apply assign_all_lookup.
  - exact Hk.
  - apply (elem_of_writes key entries settled k _ Hperm). eauto.
  - intros v' Hv'.
    apply (elem_of_writes key entries settled k _ Hperm) in Hv'
        as (entry' & Hin' & Ht' & ->).
    now apply Hsame.
Qed.

Lemma decryptObject_does_settle (key : CryptoKey)
    (entries : list (jsstring * jsvalue)) :
  decryptObject_settles entries key (decryptObject entries key).
Proof. exists (writes_decrypted key entries). split; [reflexivity|reflexivity]. Qed.

End AssignAll.

Lemma is_passthrough_no_suffix (k : jsstring) :
  is_passthrough k = true -> endsWith k ENCRYPTED_SUFFIX = false.
Proof.
  unfold is_passthrough. intros H.
  apply orb_true_iff in H as [H | H]; [apply orb_true_iff in H as [H | H]|];
    apply bool_decide_eq_true in H; subst k; reflexivity.
Qed.

Lemma is_passthrough_target (k : jsstring) :
  is_passthrough k = true -> target k = Some k.
Proof.
  intros H. unfold target. now rewrite (is_passthrough_no_suffix k H), H.
Qed.

Lemma is_passthrough_not_proto (k : jsstring) :
  is_passthrough k = true -> k <> js "__proto__".
Proof.
  unfold is_passthrough. intros H.
  apply orb_true_iff in H as [H | H]; [apply orb_true_iff in H as [H | H]|];
    apply bool_decide_eq_true in H; subst k; discriminate.
Qed.

Lemma target_cases (fieldKey k : jsstring) :
  target fieldKey = Some k
  <-> (endsWith fieldKey ENCRYPTED_SUFFIX = true /\ k = originalKey fieldKey)
      \/ (endsWith fieldKey ENCRYPTED_SUFFIX = false
          /\ is_passthrough fieldKey = true /\ k = fieldKey).
Proof.
  unfold target. destruct (endsWith fieldKey ENCRYPTED_SUFFIX).
  - split; [intros [= <-]; auto|]. intros [[_ ->] | [? _]]; [reflexivity|discriminate].
  - destruct (is_passthrough fieldKey).
    + split; [intros [= <-]; auto|]. intros [[? _] | (_ & _ & ->)];
        [discriminate|reflexivity].
    + split; [discriminate|]. intros [[? _] | (_ & ? & _)]; discriminate.
Qed.

Section RecordCodecFacts.

Context {P : Primitives} {L : PrimitivesLaws P}.

(** C10, as amended. For every input object and key, and whatever the
    order in which the decryptions settle, the properties of the result
    are exactly the bare names, other than [__proto__], of the input keys
    that end in [_encrypted], and those of [id], [user_id], [date_modified]
    that are input keys. A passed-through key that is no bare name of
    another key keeps its input value; an input key that has no suffix, is
    not passed through and is no bare name of another key is absent. *)
Theorem decryptObject_shape (entries : list (jsstring * jsvalue))
    (key : CryptoKey) (m : jsobject) :
  decryptObject_settles entries key m ->
  (forall k : jsstring,
      k ∈ dom m
      <-> (k <> js "__proto__"
           /\ exists fieldKey value,
                (fieldKey, value) ∈ entries
                /\ endsWith fieldKey ENCRYPTED_SUFFIX = true
                /\ k = originalKey fieldKey)
          \/ (is_passthrough k = true /\ exists value, (k, value) ∈ entries))
  /\ (forall (k : jsstring) (value : jsvalue),
        (k, value) ∈ entries -> is_passthrough k = true ->
        (forall entry', entry' ∈ entries -> target (fst entry') = Some k ->
                        entry' = (k, value)) ->
        m !! k = Some value)
  /\ (forall (k : jsstring) (value : jsvalue),
        (k, value) ∈ entries ->
        endsWith k ENCRYPTED_SUFFIX = false -> is_passthrough k = false ->
        (forall fieldKey v, (fieldKey, v) ∈ entries ->
                            endsWith fieldKey ENCRYPTED_SUFFIX = true ->
                            originalKey fieldKey <> k) ->
        m !! k = None).
Proof.
  intros Hsettles. split; [|split].
  - intros k. rewrite elem_of_dom, (decryptObject_is_Some key entries m k Hsettles).
    split.
    + intros (Hk & [fieldKey value] & Hin & Ht). cbn [fst] in Ht.
      apply target_cases in Ht as [[Hs ->] | (Hs & Hp & ->)];
        [left; split; [exact Hk|]; eauto | right; eauto].
    + intros [(Hk & fieldKey & value & Hin & Hs & ->) | (Hp & value & Hin)].
      * split; [exact Hk|]. exists (fieldKey, value). split; [exact Hin|].
        apply target_cases. auto.
      * split; [now apply is_passthrough_not_proto|].
        exists (k, value). split; [exact Hin|]. now apply is_passthrough_target.
  - intros k value Hin Hp Hsame.
    pose proof (is_passthrough_target k Hp) as Ht.
    rewrite (decryptObject_lookup key entries m (k, value) k Hsettles
               (is_passthrough_not_proto k Hp) Hin Ht).
    + unfold written_value. cbn [fst snd].
      now rewrite (is_passthrough_no_suffix k Hp).
    + intros entry' Hin' Ht'. now rewrite (Hsame entry' Hin' Ht').
  - intros k value Hin Hs Hp Hother.
    apply eq_None_not_Some.
    rewrite (decryptObject_is_Some key entries m k Hsettles).
    intros (_ & [fieldKey v] & Hin' & Ht). cbn [fst] in Ht.
    apply target_cases in Ht as [[Hs' ->] | (Hs' & Hp' & ->)].
    + now apply (Hother fieldKey v).
    + congruence.
Qed.

(** Where [decryptObject] keeps failures apart. Whatever the order in which
    the decryptions settle, a field [fieldKey] that ends in [_encrypted],
    holds a non-empty string, has another bare name than [__proto__] and
    shares it with no other entry that is written is reported on its own:
    with the marker ['[DECRYPTION FAILED]'] when [decryptData] throws, with
    the plaintext when it returns, which is the plaintext that was
    encrypted when the string comes from [encryptData] on a well-formed
    plaintext that does not start with U+FEFF. *)
Lemma decryptObject_isolates_failures (entries : list (jsstring * jsvalue))
    (key : CryptoKey) :
  decryptObject_settles entries key (decryptObject entries key)
  /\ forall (m : jsobject) (fieldKey s : jsstring),
      decryptObject_settles entries key m ->
      (fieldKey, VString s) ∈ entries -> s <> [] ->
      endsWith fieldKey ENCRYPTED_SUFFIX = true ->
      originalKey fieldKey <> js "__proto__" ->
      (forall entry', entry' ∈ entries ->
                      target (fst entry') = Some (originalKey fieldKey) ->
                      entry' = (fieldKey, VString s)) ->
      (forall err, fst (decryptData s key) = Throw err ->
                   m !! originalKey fieldKey = Some (VString DECRYPTION_FAILED))
      /\ (forall plaintext, fst (decryptData s key) = Return plaintext ->
                            m !! originalKey fieldKey = Some (VString plaintext))
      /\ (forall plaintext e,
            fst (fst (encryptData plaintext key e)) = Return s ->
            Utf8.well_formed plaintext = true ->
            starts_with_bom plaintext = false ->
            m !! originalKey fieldKey = Some (VString plaintext)).
Proof.
  split; [apply decryptObject_does_settle|].
  intros m fieldKey s Hsettles Hin Hne Hs Hproto Hsame.
  assert (Ht : target fieldKey = Some (originalKey fieldKey))
    by (apply target_cases; auto).
  assert (Hm : m !! originalKey fieldKey = Some (decrypted_value s key)).
  { rewrite (decryptObject_lookup key entries m (fieldKey, VString s)
               (originalKey fieldKey) Hsettles Hproto Hin Ht).
    - unfold written_value. cbn [fst snd]. rewrite Hs.
      destruct s; [congruence|reflexivity].
    - intros entry' Hin' Ht'. now rewrite (Hsame entry' Hin' Ht'). }
  rewrite Hm. unfold decrypted_value. split; [|split].
  - intros err ->. reflexivity.
  - intros plaintext ->. reflexivity.
  - intros plaintext e Hw Hwf Hbom.
    destruct (decrypt_encrypt_gen key plaintext e) as (w & Hw' & Hdec).
    rewrite <- encryptData_encrypt, Hw in Hw'. injection Hw' as <-.
    rewrite decryptData_decrypt, Hdec.
    now rewrite TextDecoder_TextEncoder.
Qed.

End RecordCodecFacts.

Section LostFields.

Context {P : Primitives}.

(** What [decryptObject] assigns for a record of two fields that hold
    non-empty strings, the first base64 and the second not. *)
Lemma writes_of_two (key : CryptoKey) (k1 k2 s1 s2 : jsstring) :
  endsWith k1 ENCRYPTED_SUFFIX = true -> endsWith k2 ENCRYPTED_SUFFIX = true ->
  s1 <> [] -> s2 <> [] ->
  is_Some (Base64.decode s1) -> Base64.decode s2 = None ->
  let entries := [(k1, VString s1); (k2, VString s2)] in
  writes_now key entries = []
  /\ writes_rejected key entries = [(originalKey k2, VString DECRYPTION_FAILED)]
  /\ writes_decrypted key entries = [(originalKey k1, decrypted_value s1 key)].
Proof.
  intros Hk1 Hk2 Hs1 Hs2 [bs Hd1] Hd2 entries.
  assert (Hr1 : reaches_cipher key (k1, VString s1) = true).
  { unfold reaches_cipher, decrypt_field_calls. rewrite Hk1.
    destruct s1 as [|c s1]; [congruence|].
    unfold decryptData, fromBase64, atob. now rewrite Hd1. }
  assert (Hr2 : reaches_cipher key (k2, VString s2) = false).
  { unfold reaches_cipher, decrypt_field_calls. rewrite Hk2.
    destruct s2 as [|c s2]; [congruence|].
    unfold decryptData, fromBase64, atob. now rewrite Hd2. }
  assert (Hf1 : decrypt_field key (k1, VString s1)
                = WriteLater (originalKey k1) (decrypted_value s1 key)).
  { unfold decrypt_field. rewrite Hk1. destruct s1; [congruence|reflexivity]. }
  assert (Hf2 : decrypt_field key (k2, VString s2)
                = WriteLater (originalKey k2) (VString DECRYPTION_FAILED)).
  { unfold decrypt_field. rewrite Hk2. destruct s2 as [|c s2]; [congruence|].
    unfold decrypted_value, decryptData, fromBase64, atob. now rewrite Hd2. }
  unfold writes_now, writes_rejected, writes_decrypted, writes_later, entries.
  split; [|split].
  - cbn [omap list_omap]. now rewrite Hf1, Hf2.
  - rewrite filter_cons, Hr1. rewrite decide_False by discriminate.
    rewrite filter_cons, Hr2. rewrite decide_True by reflexivity.
    rewrite filter_nil. cbn [omap list_omap]. now rewrite Hf2.
  - rewrite filter_cons, Hr1. rewrite decide_True by reflexivity.
    rewrite filter_cons, Hr2. rewrite decide_False by discriminate.
    rewrite filter_nil. cbn [omap list_omap]. now rewrite Hf1.
Qed.

(** The same when both strings are base64. *)
Lemma writes_of_two_decoded (key : CryptoKey) (k1 k2 s1 s2 : jsstring) :
  endsWith k1 ENCRYPTED_SUFFIX = true -> endsWith k2 ENCRYPTED_SUFFIX = true ->
  s1 <> [] -> s2 <> [] ->
  is_Some (Base64.decode s1) -> is_Some (Base64.decode s2) ->
  let entries := [(k1, VString s1); (k2, VString s2)] in
  writes_now key entries = []
  /\ writes_rejected key entries = []
  /\ writes_decrypted key entries
     = [(originalKey k1, decrypted_value s1 key); (originalKey k2, decrypted_value s2 key)].
Proof.
  intros Hk1 Hk2 Hs1 Hs2 [bs1 Hd1] [bs2 Hd2] entries.
  assert (Hr : forall k s bs, endsWith k ENCRYPTED_SUFFIX = true -> s <> [] ->
                 Base64.decode s = Some bs ->
                 reaches_cipher key (k, VString s) = true
                 /\ decrypt_field key (k, VString s)
                    = WriteLater (originalKey k) (decrypted_value s key)).
  { intros k s bs Hk Hs Hd. split.
    - unfold reaches_cipher, decrypt_field_calls. rewrite Hk.
      destruct s as [|c s]; [congruence|].
      unfold decryptData, fromBase64, atob. now rewrite Hd.
    - unfold decrypt_field. rewrite Hk. destruct s; [congruence|reflexivity]. }
  destruct (Hr k1 s1 bs1 Hk1 Hs1 Hd1) as [Hr1 Hf1].
  destruct (Hr k2 s2 bs2 Hk2 Hs2 Hd2) as [Hr2 Hf2].
  unfold writes_now, writes_rejected, writes_decrypted, writes_later, entries.
  split; [|split].
  - cbn [omap list_omap]. now rewrite Hf1, Hf2.
  - rewrite filter_cons, Hr1. rewrite decide_False by discriminate.
    rewrite filter_cons, Hr2. rewrite decide_False by discriminate.
    reflexivity.
  - rewrite filter_cons, Hr1. rewrite decide_True by reflexivity.
    rewrite filter_cons, Hr2. rewrite decide_True by reflexivity.
    rewrite filter_nil. cbn [omap list_omap]. now rewrite Hf1, Hf2.
Qed.

Lemma decryptData_decodes (key : CryptoKey) (w plaintext : jsstring) :
  fst (decryptData w key) = Return plaintext -> is_Some (Base64.decode w).
Proof.
  unfold decryptData, fromBase64, atob.
  destruct (Base64.decode w); [eauto|discriminate].
Qed.


End LostFields.

Section RecordCodecExamples.

#[local] Existing Instance Reference.primitives.

Lemma example_record_entries (entry : jsstring * jsvalue) :
  entry ∈ Reference.example_record ->
  entry = (js "id", VNumber 7)
  \/ entry = (js "name_encrypted", VString Reference.wire_GitHub)
  \/ entry = (js "password_encrypted", VString (js "!!!"))
  \/ entry = (js "note_encrypted", VNull)
  \/ entry = (js "owner", VString (js "root")).
Proof.
  unfold Reference.example_record. rewrite !elem_of_cons, elem_of_nil. tauto.
Qed.

(** A record with a field that decrypts and a corrupted one, of different
    bare names: each is reported on its own. *)
Lemma decryptObject_isolates_failures_example :
  decryptObject Reference.example_record Reference.key !! js "name"
  = Some (VString (js "GitHub"))
  /\ decryptObject Reference.example_record Reference.key !! js "password"
     = Some (VString DECRYPTION_FAILED).
Proof.
  pose proof (decryptObject_isolates_failures Reference.example_record Reference.key)
    as [Hsettles Hfields].
  split.
  - apply (Hfields _ (js "name_encrypted") Reference.wire_GitHub Hsettles).
    + unfold Reference.example_record. rewrite !elem_of_cons. auto.
    + discriminate.
    + reflexivity.
    + intros H. vm_compute in H. discriminate H.
    + intros entry' Hin Ht.
      apply example_record_entries in Hin as [-> | [-> | [-> | [-> | ->]]]];
        try reflexivity; vm_compute in Ht; discriminate.
    + reflexivity.
  - apply (Hfields _ (js "password_encrypted") (js "!!!") Hsettles) with
        (err := InvalidCharacterError).
    + unfold Reference.example_record. rewrite !elem_of_cons. auto.
    + discriminate.
    + reflexivity.
    + intros H. vm_compute in H. discriminate H.
    + intros entry' Hin Ht.
      apply example_record_entries in Hin as [-> | [-> | [-> | [-> | ->]]]];
        try reflexivity; vm_compute in Ht; discriminate.
    + reflexivity.
Qed.


Lemma decryptObject_shape_witness :
  js "name" ∈ dom (decryptObject Reference.example_record Reference.key)
  /\ decryptObject Reference.example_record Reference.key !! js "id" = Some (VNumber 7)
  /\ decryptObject Reference.example_record Reference.key !! js "owner" = None.
Proof.
  pose proof (decryptObject_shape Reference.example_record Reference.key _
                (decryptObject_does_settle Reference.key Reference.example_record))
    as (Hdom & Hpass & Hdrop).
  split; [|split].
  - apply Hdom. left. split; [intros H; vm_compute in H; discriminate H|].
    exists (js "name_encrypted"), (VString Reference.wire_GitHub).
    split; [|split; reflexivity].
    unfold Reference.example_record. rewrite !elem_of_cons. auto.
  - apply Hpass.
    + unfold Reference.example_record. rewrite !elem_of_cons. auto.
    + reflexivity.
    + intros entry' Hin Ht.
      apply example_record_entries in Hin as [-> | [-> | [-> | [-> | ->]]]];
        try reflexivity; vm_compute in Ht; discriminate.
  - apply (Hdrop _ (VString (js "root"))).
    + unfold Reference.example_record. rewrite !elem_of_cons. auto 10.
    + reflexivity.
    + reflexivity.
    + intros fieldKey v Hin Hs.
      apply example_record_entries in Hin
        as [[= -> ->] | [[= -> ->] | [[= -> ->] | [[= -> ->] | [= -> ->]]]]];
        vm_compute; discriminate.
Defined.

(** C10, as stated, fails: the input has [id] and [id_encrypted], and
    [note] and [note_encrypted]. The result has the property [id], but with
    the value [null] of [id_encrypted] and not the input value 7; and it has
    the property [note], the name of an input key without the suffix that is
    not passed through. *)
Lemma decryptObject_names_collide :
  let entries := [(js "id", VNumber 7); (js "id_encrypted", VNull);
                  (js "note", VString (js "kept?")); (js "note_encrypted", VNull)] in
  decryptObject entries Reference.key !! js "id" = Some VNull
  /\ decryptObject entries Reference.key !! js "note" = Some VNull.
Proof. split; vm_compute; reflexivity. Qed.

(** And the input key [__proto___encrypted] gives the result no property:
    the assignment to [__proto__] runs the setter of [Object.prototype]. *)
Lemma decryptObject_drops_proto :
  decryptObject [(js "__proto___encrypted", VString Reference.wire_GitHub)] Reference.key
  = ∅
  /\ decryptObject [(js "__proto___encrypted", VNull)] Reference.key = ∅.
Proof. split; vm_compute; reflexivity. Qed.

End RecordCodecExamples.

(** *** C6: fields that are not set *)

Lemma decimal_nonempty (n : Z) : decimal n <> [].
Proof.
  unfold decimal. destruct (Z.to_int n) as [d | d]; destruct d; discriminate.
Qed.

Lemma exponential_nonempty (v : Z) : exponential v <> [].
Proof.
  unfold exponential.
  destruct (rev (strip_zeros (rev (decimal v)))) as [|d [|d' more]];
    [apply decimal_nonempty|discriminate..].
Qed.

Lemma Number_toString_nonempty (n : Z) : Number_toString n <> [].
Proof.
  unfold Number_toString.
  assert (Happ : forall sign rest : jsstring, rest <> [] -> sign ++ rest <> []).
  { intros sign rest Hrest H. now apply app_eq_nil in H as [_ H]. }
  destruct (nearest_double (Z.abs n)) as [x|]; [|apply Happ; discriminate].
  destruct (x <? 2 ^ 53); [apply Happ, decimal_nonempty|].
  cbv zeta.
  destruct (length (decimal (shortest x (length (decimal x)) (length (decimal x)) 1))
            <=? 21)%nat;
    apply Happ; [apply decimal_nonempty | apply exponential_nonempty].
Qed.

(** [String(value)] is empty for the empty string and for the values
    that are not strings and print as nothing, the empty array for one. *)
Lemma ToString_empty (v : jsvalue) :
  ToString v = [] <-> v = VString [] \/ v = VOther [].
Proof.
  destruct v as [| |s|n|str]; cbn [ToString].
  - split; [discriminate|intros [H | H]; discriminate H].
  - split; [discriminate|intros [H | H]; discriminate H].
  - split; [intros ->; now left|intros [[= ->] | H]; [reflexivity|discriminate H]].
  - split; [intros H; now apply Number_toString_nonempty in H
           |intros [H | H]; discriminate H].
  - split; [intros ->; now right|intros [H | [= ->]]; [discriminate H|reflexivity]].
Qed.

Lemma TextEncoder_encode_nonempty (s : jsstring) :
  s <> [] -> TextEncoder_encode s <> [].
Proof.
  destruct s as [|c r]; [congruence|]. intros _. unfold TextEncoder_encode.
  assert (Hsc : forall x, Utf8.encode_scalar x <> []).
  { intros x. unfold Utf8.encode_scalar.
    destruct (x <=? 127); [discriminate|].
    destruct (x <=? 2047); [discriminate|].
    destruct (x <=? 65535); discriminate. }
  assert (Hcs : Utf8.scalars_of_units (c :: r) <> []).
  { cbn [Utf8.scalars_of_units]. destruct (Utf8.is_lead c).
    - destruct r as [|d r']; [discriminate|]. destruct (Utf8.is_trail d); discriminate.
    - destruct (Utf8.is_trail c); discriminate. }
  destruct (Utf8.scalars_of_units (c :: r)) as [|x cs]; [congruence|].
  cbn [flat_map]. intros H. apply app_eq_nil in H as [H _]. now apply Hsc in H.
Qed.

Lemma TextEncoder_encode_empty (s : jsstring) :
  TextEncoder_encode s = [] <-> s = [].
Proof.
  split; [|now intros ->].
  intros H. destruct s as [|c r]; [reflexivity|].
  now apply TextEncoder_encode_nonempty in H.
Qed.

Section UnsetFields.

Context {P : Primitives}.

(** A call of [encryptData] returns. *)
Lemma encryptData_returns (data : jsstring) (key : CryptoKey) (e : entropy) :
  exists w iv,
    encryptData data key e
    = (Return w, snd (getRandomValues 12 e),
       [SubtleEncrypt key iv (TextEncoder_encode data)]).
Proof.
  unfold encryptData, NONCE_BYTES.
  destruct (getRandomValues 12 e) as [nonce e'].
  rewrite toBase64_returns. eauto.
Qed.

(** What the loop of [encryptObject] leaves in the object it fills. *)
Lemma encryptObject_loop_spec (key : CryptoKey)
    (entries : list (jsstring * jsvalue)) :
  NoDup (map fst entries) ->
  forall (e : entropy) (acc : jsobject),
  exists wire e' calls,
    encryptObject_loop entries key e acc = (Return wire, e', calls)
    /\ (forall name : jsstring,
          (forall k v, (k, v) ∈ entries -> v <> VUndefined ->
                       name <> k ++ ENCRYPTED_SUFFIX) ->
          wire !! name = acc !! name)
    /\ (forall k v, (k, v) ∈ entries -> v = VNull \/ v = VString [] ->
                    wire !! (k ++ ENCRYPTED_SUFFIX) = Some VNull)
    /\ Forall (fun call =>
                 exists k v iv,
                   (k, v) ∈ entries
                   /\ v <> VUndefined /\ v <> VNull /\ v <> VString []
                   /\ call = SubtleEncrypt key iv (TextEncoder_encode (ToString v)))
              calls
    /\ ((forall k v, (k, v) ∈ entries ->
                     v = VUndefined \/ v = VNull \/ v = VString []) ->
        calls = [] /\ e' = e).
Proof.
  induction entries as [|[fieldKey value] rest IH]; intros Hnodup e acc.
  - exists acc, e, []. cbn. repeat split; auto.
    intros k v Hin. inversion Hin.
  - cbn [map fst] in Hnodup. apply NoDup_cons in Hnodup as [Hfresh Hnodup].
    assert (Hrest : forall k v, (k, v) ∈ rest ->
              fieldKey ++ ENCRYPTED_SUFFIX <> k ++ ENCRYPTED_SUFFIX).
    { intros k v Hin Heq. apply app_inv_tail in Heq. subst k.
      apply Hfresh. apply list_elem_of_fmap. exists (fieldKey, v). auto. }
    (* what the rest of the loop does to an object that holds the field *)
    assert (Hset : forall (x : jsvalue) (e0 : entropy),
               exists wire e' calls,
                 encryptObject_loop rest key e0
                   (<[fieldKey ++ ENCRYPTED_SUFFIX := x]> acc)
                 = (Return wire, e', calls)
                 /\ (forall name : jsstring,
                       (forall k v, (k, v) ∈ (fieldKey, value) :: rest ->
                                    v <> VUndefined -> name <> k ++ ENCRYPTED_SUFFIX) ->
                       value <> VUndefined ->
                       wire !! name = acc !! name)
                 /\ wire !! (fieldKey ++ ENCRYPTED_SUFFIX) = Some x
                 /\ (forall k v, (k, v) ∈ rest -> v = VNull \/ v = VString [] ->
                                 wire !! (k ++ ENCRYPTED_SUFFIX) = Some VNull)
                 /\ Forall (fun call =>
                              exists k v iv,
                                (k, v) ∈ (fieldKey, value) :: rest
                                /\ v <> VUndefined /\ v <> VNull /\ v <> VString []
                                /\ call = SubtleEncrypt key iv
                                            (TextEncoder_encode (ToString v)))
                           calls
                 /\ ((forall k v, (k, v) ∈ rest ->
                                  v = VUndefined \/ v = VNull \/ v = VString []) ->
                     calls = [] /\ e' = e0)).
    { intros x e0.
      destruct (IH Hnodup e0 (<[fieldKey ++ ENCRYPTED_SUFFIX := x]> acc))
        as (wire & e' & calls & Hrun & Hother & Hnull & Hcalls & Hnone).
      exists wire, e', calls. split; [exact Hrun|]. split; [|split; [|split; [|split]]].
      - intros name Hname Hdef. rewrite Hother.
        + apply lookup_insert_ne. intros Heq.
          apply (Hname fieldKey value); [left|assumption|now symmetry].
        + intros k v Hin. apply Hname. now right.
      - rewrite Hother; [apply lookup_insert_eq|].
        intros k v Hin _. now apply (Hrest k v).
      - exact Hnull.
      - eapply Forall_impl; [exact Hcalls|].
        intros call (k & v & iv & Hin & ?). exists k, v, iv.
        split; [now right|assumption].
      - exact Hnone. }
    (* a field that is encrypted *)
    assert (Hencrypted :
              value <> VUndefined -> value <> VNull -> value <> VString [] ->
              exists wire e' calls,
                (let '(r, e1, calls1) := encryptData (ToString value) key e in
                 match r with
                 | Throw ex => (Throw ex, e1, calls1)
                 | Return w =>
                     let '(r', e2, calls2) :=
                       encryptObject_loop rest key e1
                         (<[fieldKey ++ ENCRYPTED_SUFFIX := VString w]> acc) in
                     (r', e2, calls1 ++ calls2)
                 end) = (Return wire, e', calls)
                /\ (forall name : jsstring,
                      (forall k v, (k, v) ∈ (fieldKey, value) :: rest ->
                                   v <> VUndefined -> name <> k ++ ENCRYPTED_SUFFIX) ->
                      wire !! name = acc !! name)
                /\ (forall k v, (k, v) ∈ (fieldKey, value) :: rest ->
                                v = VNull \/ v = VString [] ->
                                wire !! (k ++ ENCRYPTED_SUFFIX) = Some VNull)
                /\ Forall (fun call =>
                             exists k v iv,
                               (k, v) ∈ (fieldKey, value) :: rest
                               /\ v <> VUndefined /\ v <> VNull /\ v <> VString []
                               /\ call = SubtleEncrypt key iv
                                           (TextEncoder_encode (ToString v)))
                          calls
                /\ ((forall k v, (k, v) ∈ (fieldKey, value) :: rest ->
                                 v = VUndefined \/ v = VNull \/ v = VString []) ->
                    calls = [] /\ e' = e)).
    { intros Hu Hn He.
      destruct (encryptData_returns (ToString value) key e) as (w & iv & Henc).
      rewrite Henc.
      destruct (Hset (VString w) (snd (getRandomValues 12 e)))
        as (wire & e' & calls & Hrun & Hother & Hhere & Hnull & Hcalls & Hnone).
      rewrite Hrun.
      exists wire, e', ([SubtleEncrypt key iv (TextEncoder_encode (ToString value))]
                          ++ calls).
      split; [reflexivity|]. split; [|split; [|split]].
      - intros name Hname. now apply Hother.
      - intros k v Hin Hv. apply elem_of_cons in Hin as [[= -> ->] | Hin];
          [destruct Hv; congruence|]. now apply (Hnull k v).
      - apply Forall_app. split; [|exact Hcalls].
        constructor; [|constructor].
        exists fieldKey, value, iv. split; [now left|]. repeat split; assumption.
      - intros Hall. destruct (Hall fieldKey value) as [? | [? | ?]];
          [now left|congruence..]. }
    cbn [encryptObject_loop].
    destruct value as [| |s|n|str].
    + (* undefined: skipped *)
      destruct (IH Hnodup e acc)
        as (wire & e' & calls & Hrun & Hother & Hnull & Hcalls & Hnone).
      exists wire, e', calls. split; [exact Hrun|]. split; [|split; [|split]].
      * intros name Hname. apply Hother. intros k v Hin. apply Hname. now right.
      * intros k v Hin Hv. apply elem_of_cons in Hin as [[= -> ->] | Hin];
          [destruct Hv; discriminate|]. now apply (Hnull k v).
      * eapply Forall_impl; [exact Hcalls|].
        intros call (k & v & iv & Hin & ?). exists k, v, iv.
        split; [now right|assumption].
      * intros Hall. apply Hnone. intros k v Hin. apply (Hall k v). now right.
    + (* null *)
      destruct (Hset VNull e)
        as (wire & e' & calls & Hrun & Hother & Hhere & Hnull & Hcalls & Hnone).
      exists wire, e', calls. split; [exact Hrun|]. split; [|split; [|split]].
      * intros name Hname. now apply Hother.
      * intros k v Hin Hv. apply elem_of_cons in Hin as [[= -> ->] | Hin];
          [exact Hhere|]. now apply (Hnull k v).
      * exact Hcalls.
      * intros Hall. apply Hnone. intros k v Hin. apply (Hall k v). now right.
    + destruct s as [|c s].
      * (* the empty string *)
        destruct (Hset VNull e)
          as (wire & e' & calls & Hrun & Hother & Hhere & Hnull & Hcalls & Hnone).
        exists wire, e', calls. split; [exact Hrun|]. split; [|split; [|split]].
        -- intros name Hname. now apply Hother.
        -- intros k v Hin Hv. apply elem_of_cons in Hin as [[= -> ->] | Hin];
             [exact Hhere|]. now apply (Hnull k v).
        -- exact Hcalls.
        -- intros Hall. apply Hnone. intros k v Hin. apply (Hall k v). now right.
      * (* a string: encrypted *)
        apply Hencrypted; discriminate.
    + (* a number: encrypted *)
      apply Hencrypted; discriminate.
    + (* any other value: encrypted, whatever it prints as *)
      apply Hencrypted; discriminate.
Qed.

Lemma startsWith_app (p r : jsstring) : startsWith (p ++ r) p = true.
Proof.
  induction p as [|a p IH]; [now destruct r|]. cbn. now rewrite Z.eqb_refl, IH.
Qed.

Lemma endsWith_suffix (k : jsstring) :
  endsWith (k ++ ENCRYPTED_SUFFIX) ENCRYPTED_SUFFIX = true.
Proof. unfold endsWith. rewrite rev_app_distr. apply startsWith_app. Qed.

Lemma entries_functional (entries : list (jsstring * jsvalue)) k v v' :
  NoDup (map fst entries) -> (k, v) ∈ entries -> (k, v') ∈ entries -> v = v'.
Proof.
  induction entries as [|[k0 v0] rest IH]; intros Hnodup Hin Hin'.
  - inversion Hin.
  - cbn [map fst] in Hnodup. apply NoDup_cons in Hnodup as [Hfresh Hnodup].
    rewrite elem_of_cons in Hin. rewrite elem_of_cons in Hin'.
    destruct Hin as [Heq | Hin]; destruct Hin' as [Heq' | Hin'].
    + congruence.
    + exfalso. apply Hfresh, list_elem_of_fmap. exists (k, v').
      split; [cbn; congruence|assumption].
    + exfalso. apply Hfresh, list_elem_of_fmap. exists (k, v).
      split; [cbn; congruence|assumption].
    + now apply IH.
Qed.

(** C6, as amended. For every record (its keys are distinct) and key,
    [encryptObject] returns a wire object in which every field whose value
    is [null] or the empty string is [null], and in which a field whose
    value is [undefined] has no property at all. It calls the cipher only
    for the other fields, on an empty payload exactly for those that are
    not strings and that [String] prints as nothing (the empty array), and
    not at all (no randomness is drawn either) when no field is set.
    [decryptObject], on the entries of that wire object and in whatever
    order the decryptions settle, gives [null] for a field that was [null]
    or the empty string under its bare name, which is the name of the
    field when [replace] restores it, without a call of the cipher,
    provided the bare name is not [__proto__] and no other field of the
    record has the same bare name. *)
Theorem unset_fields_bypass_cipher (entries : list (jsstring * jsvalue))
    (key : CryptoKey) (e : entropy) :
  NoDup (map fst entries) ->
  exists wire e' calls,
    encryptObject entries key e = (Return wire, e', calls)
    /\ (forall k v, (k, v) ∈ entries -> v = VNull \/ v = VString [] ->
                    wire !! (k ++ ENCRYPTED_SUFFIX) = Some VNull)
    /\ (forall k, (k, VUndefined) ∈ entries ->
                  wire !! (k ++ ENCRYPTED_SUFFIX) = None)
    /\ Forall (fun call =>
                 exists k v iv data,
                   (k, v) ∈ entries
                   /\ v <> VUndefined /\ v <> VNull /\ v <> VString []
                   /\ data = TextEncoder_encode (ToString v)
                   /\ (data = [] <-> v = VOther [])
                   /\ call = SubtleEncrypt key iv data)
              calls
    /\ ((forall k v, (k, v) ∈ entries ->
                     v = VUndefined \/ v = VNull \/ v = VString []) ->
        calls = [] /\ e' = e)
    /\ (forall (wireEntries : list (jsstring * jsvalue)) (m : jsobject),
          (forall name value, (name, value) ∈ wireEntries <-> wire !! name = Some value) ->
          decryptObject_settles wireEntries key m ->
          forall k v,
            (k, v) ∈ entries -> v = VNull \/ v = VString [] ->
            originalKey (k ++ ENCRYPTED_SUFFIX) <> js "__proto__" ->
            (forall k' v', (k', v') ∈ entries -> v' <> VUndefined ->
                           originalKey (k' ++ ENCRYPTED_SUFFIX)
                           = originalKey (k ++ ENCRYPTED_SUFFIX) ->
                           k' = k) ->
            m !! originalKey (k ++ ENCRYPTED_SUFFIX) = Some VNull
            /\ (originalKey (k ++ ENCRYPTED_SUFFIX) = k -> m !! k = Some VNull)
            /\ decrypt_field_calls key (k ++ ENCRYPTED_SUFFIX, VNull) = []).
Proof.
  intros Hnodup.
  destruct (encryptObject_loop_spec key entries Hnodup e ∅)
    as (wire & e' & calls & Hrun & Hother & Hnull & Hcalls & Hnone).
  exists wire, e', calls. split; [exact Hrun|].
  split; [exact Hnull|]. split; [|split; [|split; [exact Hnone|]]].
  - intros k Hin. rewrite Hother; [apply lookup_empty|].
    intros k' v' Hin' Hdef Heq. apply app_inv_tail in Heq. subst k'.
    apply Hdef. symmetry.
    exact (entries_functional entries k VUndefined v' Hnodup Hin Hin').
  - eapply Forall_impl; [exact Hcalls|].
    intros call (k & v & iv & Hin & Hu & Hn & He & ->).
    exists k, v, iv, (TextEncoder_encode (ToString v)).
    repeat split; try assumption.
    + intros Hdata. apply TextEncoder_encode_empty, ToString_empty in Hdata.
      destruct Hdata; congruence.
    + now intros ->.
  - intros wireEntries m Hentries Hsettles k v Hin Hv Hproto Hunique.
    assert (Hwire : (k ++ ENCRYPTED_SUFFIX, VNull) ∈ wireEntries)
      by (apply Hentries; now apply (Hnull k v)).
    assert (Hm : m !! originalKey (k ++ ENCRYPTED_SUFFIX) = Some VNull).
    { pose proof (endsWith_suffix k) as Hs.
      rewrite (decryptObject_lookup key wireEntries m
                 (k ++ ENCRYPTED_SUFFIX, VNull)
                 (originalKey (k ++ ENCRYPTED_SUFFIX)) Hsettles Hproto Hwire).
      - unfold written_value. cbn [fst snd]. now rewrite Hs.
      - apply target_cases. auto.
      - intros [name value] Hin' Ht. cbn [fst] in Ht.
        apply Hentries in Hin'.
        destruct (decide (Exists (fun entry => snd entry <> VUndefined
                                               /\ name = fst entry ++ ENCRYPTED_SUFFIX)
                                 entries)) as [Hex | Hnex].
        + apply Exists_exists in Hex as ([k' v'] & Hin'' & Hdef & ->).
          cbn [fst snd] in *.
          apply target_cases in Ht as [[_ Ht] | (Hs' & _)].
          * assert (k' = k) by (apply (Hunique k' v'); auto; congruence). subst k'.
            rewrite (Hnull k v Hin Hv) in Hin'. injection Hin' as <-.
            reflexivity.
          * now rewrite endsWith_suffix in Hs'.
        + rewrite Hother, lookup_empty in Hin'; [discriminate|].
          intros k' v' Hin'' Hdef ->. apply Hnex, Exists_exists.
          exists (k', v'). split; [assumption|auto]. }
    split; [exact Hm|]. split; [now intros <-|].
    unfold decrypt_field_calls. now rewrite endsWith_suffix.
Qed.

End UnsetFields.

Section UnsetFieldsExamples.

#[local] Existing Instance Reference.primitives.

Lemma unset_fields_bypass_cipher_witness :
  exists wire e' calls,
    encryptObject [(js "secret_name", VString (js "GitHub"));
                   (js "description", VString []);
                   (js "account_linked", VNull)] Reference.key Reference.tape
    = (Return wire, e', calls)
    /\ wire !! js "description_encrypted" = Some VNull
    /\ wire !! js "account_linked_encrypted" = Some VNull
    /\ Forall (fun call => exists iv data,
                 data <> [] /\ call = SubtleEncrypt Reference.key iv data) calls.
Proof.
  destruct (unset_fields_bypass_cipher
              [(js "secret_name", VString (js "GitHub"));
               (js "description", VString []);
               (js "account_linked", VNull)] Reference.key Reference.tape)
    as (wire & e' & calls & Hrun & Hnull & _ & Hcalls & _).
  { apply (bool_decide_unpack _). vm_compute. exact I. }
  exists wire, e', calls. split; [exact Hrun|]. split; [|split].
  - apply (Hnull (js "description") (VString [])); [|now right].
    rewrite !elem_of_cons. auto.
  - apply (Hnull (js "account_linked") VNull); [|now left].
    rewrite !elem_of_cons. auto.
  - eapply Forall_impl; [exact Hcalls|].
    intros call (k & v & iv & data & Hin & _ & _ & _ & _ & Hempty & ->).
    exists iv, data. split; [|reflexivity].
    intros Hdata. apply Hempty in Hdata. subst v.
    rewrite !elem_of_cons in Hin.
    destruct Hin as [Hin | [Hin | [Hin | Hin]]];
      [discriminate Hin..|inversion Hin].
Defined.

(** C6, as stated, fails. A field whose value is [undefined] is not encoded
    as [null]: it has no property in the wire object. A field that is not
    set does not always survive the round trip: the field [_encrypted_at],
    empty, comes back as [_at_encrypted], and the field [__proto__], empty,
    does not come back. And an empty payload is encrypted: that of a field
    whose value is the empty array. *)
Lemma unset_field_is_not_always_null :
  fst (fst (encryptObject [(js "description", VUndefined)] Reference.key Reference.tape))
  = Return ∅
  /\ fst (fst (encryptObject [(js "_encrypted_at", VString [])]
                Reference.key Reference.tape))
     = Return {[ js "_encrypted_at_encrypted" := VNull ]}
  /\ decryptObject [(js "_encrypted_at_encrypted", VNull)] Reference.key
        !! js "_encrypted_at" = None
  /\ decryptObject [(js "_encrypted_at_encrypted", VNull)] Reference.key
        !! js "_at_encrypted" = Some VNull
  /\ fst (fst (encryptObject [(js "__proto__", VNull)] Reference.key Reference.tape))
     = Return {[ js "__proto___encrypted" := VNull ]}
  /\ decryptObject [(js "__proto___encrypted", VNull)] Reference.key = ∅
  /\ (exists iv,
        snd (encryptObject [(js "tags", VOther [])] Reference.key Reference.tape)
        = [SubtleEncrypt Reference.key iv []]).
Proof.
  repeat split; try (vm_compute; reflexivity).
  eexists. vm_compute. reflexivity.
Qed.

End UnsetFieldsExamples.

(** ** C4: a wire string that was tampered with *)

Section Tampering.

Context {P : Primitives} {L : PrimitivesLaws P} {A : Authenticity P}.

(** [decrypt] depends on the wire string only through the bytes it
    decodes to. *)
Lemma decrypt_same_bytes (key : CryptoKey) (w w' : jsstring) :
  fromBase64 w' = fromBase64 w -> decrypt key w' = decrypt key w.
Proof. intros H. unfold decrypt. now rewrite H. Qed.

(** Whatever the primitives and the key: when nonce, ciphertext and tag
    together leave a half-used last digit, the wire string has a bit whose
    flip [decrypt] does not notice. *)
Lemma decrypt_undetected_flip (key : CryptoKey) (plaintext : jsstring) (e : entropy) :
  ((length (TextEncoder_encode plaintext) + 28) mod 3 = 1)%nat ->
  exists w i b,
    fst (encrypt key plaintext e) = Return w
    /\ flip_bit w i b <> w
    /\ decrypt key (flip_bit w i b) = decrypt key w.
Proof.
  intros Hlen. unfold encrypt.
  pose proof (length_getRandomValues AES_GCM_NONCE_BYTES e) as Hnonce.
  destruct (getRandomValues AES_GCM_NONCE_BYTES e) as [nonce e'].
  cbn [fst] in *.
  set (combined := nonce ++ aes_gcm_encrypt (key_bytes key) nonce
                               (TextEncoder_encode plaintext)).
  destruct (Base64Flip.undetected_flip (map Z_of_byte combined))
    as (i & b & Hne & Hdec).
  - apply Forall_octet.
  - rewrite length_map. unfold combined.
    rewrite length_app, Hnonce, aes_gcm_encrypt_length.
    unfold AES_GCM_NONCE_BYTES.
    replace (12 + (length (TextEncoder_encode plaintext) + 16))%nat
      with (length (TextEncoder_encode plaintext) + 28)%nat by lia.
    exact Hlen.
  - exists (Base64.encode (map Z_of_byte combined)), i, b.
    split; [apply toBase64_returns|]. split; [exact Hne|].
    apply decrypt_same_bytes. unfold fromBase64, atob. rewrite Hdec.
    now rewrite Base64Facts.decode_encode by apply Forall_octet.
Qed.

(** The bytes of a wire string with a flipped bit, when they are not the
    bytes of the wire string, do not validate. *)
Lemma flipped_bit_is_rejected (key : CryptoKey) (plaintext : jsstring) (e : entropy)
    (w : jsstring) (i : nat) (b : Z) (combined : bytes) :
  fst (encrypt key plaintext e) = Return w ->
  fromBase64 (flip_bit w i b) = Return combined ->
  fromBase64 w <> Return combined ->
  aes_gcm_decrypt (key_bytes key) (firstn AES_GCM_NONCE_BYTES combined)
    (skipn AES_GCM_NONCE_BYTES combined) = None.
Proof.
  unfold encrypt.
  pose proof (length_getRandomValues AES_GCM_NONCE_BYTES e) as Hnonce.
  destruct (getRandomValues AES_GCM_NONCE_BYTES e) as [nonce e'].
  cbn [fst] in *. rewrite toBase64_returns. intros [= <-].
  set (genuine := nonce ++ aes_gcm_encrypt (key_bytes key) nonce
                              (TextEncoder_encode plaintext)).
  unfold fromBase64, atob.
  rewrite Base64Facts.decode_encode by apply Forall_octet.
  cbn [cbind]. rewrite map_byte_of_Z_of_byte.
  destruct (Base64.decode (flip_bit (Base64.encode (map Z_of_byte genuine)) i b))
    as [altered|] eqn:Hdec; [|discriminate].
  cbn [cbind]. intros [= <-] Hne.
  destruct (Base64Change.decode_changed _ (Forall_octet genuine) _ _ _ Hdec)
    as [-> | Htampered].
  - now rewrite map_byte_of_Z_of_byte in Hne.
  - apply (aes_gcm_rejects_tampered (key_bytes key) nonce
             (TextEncoder_encode plaintext) altered Hnonce Htampered).
    intros ->. now rewrite map_byte_of_Z_of_byte in Hne.
Qed.


End Tampering.

Section TamperingExamples.

#[local] Existing Instance Reference.primitives.
#[local] Existing Instance FramedFacts.Framed_laws.
#[local] Existing Instance FramedAuthenticity.Framed_authentic.



End TamperingExamples.

(** * More facts *)

Lemma Z_of_byte_inj (a b : byte) : Z_of_byte a = Z_of_byte b -> a = b.
Proof.
  intros H. rewrite <- (byte_of_Z_of_byte a), <- (byte_of_Z_of_byte b). now rewrite H.
Qed.

Lemma mismatch_zero (l : list (byte * byte)) (m : Z) :
  fold_left (fun m xy => Z.lor m (Z.lxor (Z_of_byte (fst xy)) (Z_of_byte (snd xy)))) l m = 0
  <-> m = 0 /\ Forall (fun xy => fst xy = snd xy) l.
Proof.
  revert m. induction l as [|[x y] l IH]; intros m; simpl.
  - split; [intros ->; split; [reflexivity|constructor] | now intros [-> _]].
  - rewrite IH, Z.lor_eq_0_iff. split.
    + intros [[-> Hxy] Hl]. split; [reflexivity|].
      constructor; [|exact Hl]. simpl. apply Z_of_byte_inj, Z.lxor_eq, Hxy.
    + intros [-> Hl]. inversion Hl as [|? ? Hxy Hl']; subst. simpl in Hxy. subst y.
      repeat split; [apply Z.lxor_nilpotent | exact Hl'].
Qed.

Lemma combine_diag {A} (a b : list A) :
  length a = length b -> Forall (fun xy => fst xy = snd xy) (combine a b) -> a = b.
Proof.
  revert b. induction a as [|x a IH]; intros [|y b]; simpl; try discriminate; [reflexivity|].
  intros Hlen Hall. inversion Hall as [|? ? Hxy Hl]; subst. simpl in Hxy. subst y.
  f_equal. apply IH; [lia | exact Hl].
Qed.

Lemma timingSafeEqual_eq (a b : bytes) : timingSafeEqual a b = true -> a = b.
Proof.
  unfold timingSafeEqual.
  destruct (length a =? length b)%nat eqn:Hlen; simpl; [|discriminate].
  apply Nat.eqb_eq in Hlen. intros H. apply Z.eqb_eq in H.
  apply mismatch_zero in H as [_ H]. now apply combine_diag.
Qed.

(** X1. [timingSafeEqual] decides equality of byte arrays: it returns
    [true] exactly when the two arrays have the same length and the same
    bytes, and [false] exactly when they differ. *)
Theorem timingSafeEqual_decides_equality (a b : bytes) :
  (timingSafeEqual a b = true <-> a = b)
  /\ (timingSafeEqual a b = false <-> a <> b).
Proof.
  assert (H : timingSafeEqual a b = true <-> a = b).
  { split; [apply timingSafeEqual_eq | intros ->; apply timingSafeEqual_refl]. }
  split; [exact H|].
  destruct (timingSafeEqual a b); split; intros H'; try congruence.
  - exfalso. apply H'. now apply H.
  - intros ->. destruct H as [_ H]. specialize (H eq_refl). discriminate.
Qed.

(** ** generateToken *)

Lemma hex_digit_lower (d : Z) : 0 <= d < 16 -> is_lower_hex (hex_digit d) = true.
Proof.
  intros Hd. unfold is_lower_hex, hex_digit.
  destruct (d <? 10) eqn:H; [apply Z.ltb_lt in H | apply Z.ltb_ge in H].
  - apply orb_true_iff. left. apply andb_true_iff. split; apply Z.leb_le; lia.
  - apply orb_true_iff. right. apply andb_true_iff. split; apply Z.leb_le; lia.
Qed.

Lemma hex_digit_inj (d d' : Z) :
  0 <= d < 16 -> 0 <= d' < 16 -> hex_digit d = hex_digit d' -> d = d'.
Proof.
  unfold hex_digit. intros Hd Hd'.
  destruct (d <? 10) eqn:H; destruct (d' <? 10) eqn:H';
    try apply Z.ltb_lt in H; try apply Z.ltb_ge in H;
    try apply Z.ltb_lt in H'; try apply Z.ltb_ge in H'; lia.
Qed.

Lemma hex_byte_inj (b b' : byte) : hex_byte b = hex_byte b' -> b = b'.
Proof.
  unfold hex_byte. intros H. injection H as Hhi Hlo.
  pose proof (Z_of_byte_range b) as Hb. pose proof (Z_of_byte_range b') as Hb'.
  apply hex_digit_inj in Hhi; [|apply Z.div_lt_upper_bound || idtac ..].
  2-3: split; [apply Z.div_pos; lia | apply Z.div_lt_upper_bound; lia].
  apply hex_digit_inj in Hlo; [|apply Z.mod_pos_bound; lia ..].
  apply Z_of_byte_inj.
  rewrite (Z.div_mod (Z_of_byte b) 16), (Z.div_mod (Z_of_byte b') 16) by lia.
  now rewrite Hhi, Hlo.
Qed.

Lemma hex_bytes_inj (l l' : bytes) :
  length l = length l' -> flat_map hex_byte l = flat_map hex_byte l' -> l = l'.
Proof.
  revert l'. induction l as [|b l IH]; intros [|b' l']; simpl; try discriminate; [reflexivity|].
  intros Hlen H. injection H as H1 H2 H3.
  f_equal.
  - apply hex_byte_inj. unfold hex_byte. now rewrite H1, H2.
  - apply IH; [lia | exact H3].
Qed.

Lemma hex_bytes_length (l : bytes) : length (flat_map hex_byte l) = (2 * length l)%nat.
Proof. induction l as [|b l IH]; simpl; [reflexivity | rewrite IH; lia]. Qed.

Lemma hex_bytes_lower (l : bytes) :
  Forall (fun c => is_lower_hex c = true) (flat_map hex_byte l).
Proof.
  induction l as [|b l IH]; simpl; [constructor|].
  pose proof (Z_of_byte_range b) as Hb.
  constructor; [|constructor; [|exact IH]]; apply hex_digit_lower.
  - split; [apply Z.div_pos; lia | apply Z.div_lt_upper_bound; lia].
  - apply Z.mod_pos_bound; lia.
Qed.

Lemma map_seq_ext {A} (f g : nat -> A) (n : nat) :
  map f (seq 0 n) = map g (seq 0 n) <-> forall i, (i < n)%nat -> f i = g i.
Proof.
  split.
  - intros H i Hi.
    assert (Hnth : nth_error (map f (seq 0 n)) i = nth_error (map g (seq 0 n)) i) by now rewrite H.
    rewrite !nth_error_map, nth_error_seq in Hnth.
    destruct (Nat.ltb_spec i n); [|lia]. simpl in Hnth. now injection Hnth.
  - intros H. apply map_ext_in. intros i Hi. apply in_seq in Hi. apply H. lia.
Qed.

(** X2. [generateToken(length)], for a length that [getRandomValues]
    fills, returns a string of twice that many code units, each of
    [0-9a-f], and reads exactly [length] bytes of the random source; two
    calls return the same token exactly when they read the same bytes. *)
Theorem generateToken_hex (len : nat) (e e2 : entropy) :
  Z.of_nat len <= 65536 ->
  let token := fst (generateToken len e) in
  length token = (2 * len)%nat
  /\ Forall (fun c => is_lower_hex c = true) token
  /\ (forall i, snd (generateToken len e) i = e (len + i)%nat)
  /\ (fst (generateToken len e2) = token <-> forall i, (i < len)%nat -> e2 i = e i).
Proof.
  intros _. unfold generateToken, getRandomValues. cbn [fst snd].
  repeat split.
  - rewrite hex_bytes_length, length_map, length_seq. reflexivity.
  - apply hex_bytes_lower.
  - intros H. apply hex_bytes_inj in H.
    + now apply map_seq_ext.
    + now rewrite !length_map.
  - intros H. f_equal. now apply map_seq_ext.
Qed.
Module Base64More.
Import Base64 Base64Facts.

Lemma sextets_padding_length (l : list Z) :
  (length (sextets_of_bytes l) + length (padding (length l)) = 4 * ((length l + 2) / 3))%nat.
Proof.
  induction l as [| a | a b | a b c r IH] using list_ind3; try reflexivity.
  cbn [sextets_of_bytes length].
  replace (padding (S (S (S (length r))))) with (padding (length r)).
  - replace (S (S (S (length r))) + 2)%nat with (1 * 3 + (length r + 2))%nat by lia.
    rewrite Nat.div_add_l by lia. lia.
  - unfold padding. now rewrite Base64Flip.mod3_step.
Qed.

Lemma encode_length (l : list Z) :
  length (Base64.encode l) = (4 * ((length l + 2) / 3))%nat.
Proof.
  unfold Base64.encode. now rewrite length_app, length_map, sextets_padding_length.
Qed.

Lemma encode_chars (l : list Z) :
  Forall is_octet l -> Forall (fun c => in_alphabet c \/ c = 61) (Base64.encode l).
Proof.
  intros Hl. unfold Base64.encode. apply Forall_app. split.
  - eapply Forall_impl; [apply body_in_alphabet, Hl|]. intros c Hc. now left.
  - destruct (padding_cases (length l)) as [-> | [-> | ->]];
      repeat (constructor; try now right).
Qed.

Lemma sextets_of_chars_None (s : jsstring) (c : Z) :
  c ∈ s -> sextet_of_char c = None -> sextets_of_chars s = None.
Proof.
  intros Hin Hc. induction s as [|d s IH]; [inversion Hin|].
  apply elem_of_cons in Hin as [<- | Hin]; simpl.
  - now rewrite Hc.
  - rewrite (IH Hin). now destruct (sextet_of_char d).
Qed.

Lemma strip_equals_Some (s s' : jsstring) :
  strip_equals s = Some s' -> s = s' ++ [61].
Proof.
  unfold strip_equals. destruct (rev s) as [|c r] eqn:Hrev; [discriminate|].
  destruct (c =? 61) eqn:Hc; [|discriminate]. apply Z.eqb_eq in Hc. subst c.
  intros [= <-]. rewrite <- (rev_involutive s), Hrev. reflexivity.
Qed.

Lemma strip_padding_keeps (s : jsstring) (c : Z) :
  c ∈ s -> c <> 61 -> c ∈ strip_padding s.
Proof.
  intros Hin Hc. unfold strip_padding.
  destruct (strip_equals s) as [s1|] eqn:H1; [|exact Hin].
  apply strip_equals_Some in H1. subst s.
  apply elem_of_app in Hin as [Hin | Hin]; [|apply list_elem_of_singleton in Hin; contradiction].
  destruct (strip_equals s1) as [s2|] eqn:H2; [|exact Hin].
  apply strip_equals_Some in H2. subst s1.
  apply elem_of_app in Hin as [Hin | Hin]; [exact Hin|].
  apply list_elem_of_singleton in Hin; contradiction.
Qed.

Lemma decode_refuses (data : jsstring) (c : Z) :
  c ∈ data -> sextet_of_char c = None -> is_ascii_whitespace c = false -> c <> 61 ->
  Base64.decode data = None.
Proof.
  intros Hin Hc Hws H61. unfold Base64.decode.
  set (d := filter _ data).
  assert (Hd : c ∈ d).
  { apply list_elem_of_filter. split; [now rewrite Hws | exact Hin]. }
  match goal with |- context [if ?b then strip_padding d else d] =>
    set (d' := if b then strip_padding d else d) end.
  assert (Hd' : c ∈ d').
  { subst d'. destruct (_ =? _)%nat; [now apply strip_padding_keeps | exact Hd]. }
  destruct (_ =? 1)%nat; [reflexivity|].
  now rewrite (sextets_of_chars_None d' c).
Qed.

End Base64More.

(** X3. [toBase64] returns for every byte array: a string of
    [4 * ceil(n / 3)] code units for [n] bytes, each a letter of the
    base64 alphabet or [=], and empty only for the empty array. *)
Theorem toBase64_shape (bs : bytes) :
  exists w,
    toBase64 bs = Return w
    /\ length w = (4 * ((length bs + 2) / 3))%nat
    /\ Forall (fun c => Base64.in_alphabet c \/ c = 61) w
    /\ (w = [] <-> bs = []).
Proof.
  exists (Base64.encode (map Z_of_byte bs)). split; [apply toBase64_returns|].
  repeat split.
  - now rewrite Base64More.encode_length, length_map.
  - apply Base64More.encode_chars, Forall_octet.
  - destruct bs as [|b bs]; [reflexivity|]. intros H.
    apply (f_equal (@length Z)) in H.
    rewrite Base64More.encode_length, length_map in H. cbn [length] in H.
    assert (1 <= (S (length bs) + 2) / 3)%nat by (apply Nat.div_le_lower_bound; lia).
    lia.
  - intros ->. reflexivity.
Qed.

(** X4. [fromBase64] (and [atob]) throws [InvalidCharacterError] for a
    string that holds a code unit which is neither a letter of the base64
    alphabet, nor ASCII whitespace, nor [=]. *)
Theorem fromBase64_rejects (value : jsstring) (c : Z) :
  c ∈ value -> Base64.sextet_of_char c = None ->
  Base64.is_ascii_whitespace c = false -> c <> 61 ->
  fromBase64 value = Throw InvalidCharacterError
  /\ atob value = Throw InvalidCharacterError.
Proof.
  intros Hin Hc Hws H61. unfold fromBase64, atob.
  now rewrite (Base64More.decode_refuses value c).
Qed.

Lemma fromBase64_rejects_witness :
  fromBase64 (js "ab-d") = Throw InvalidCharacterError
  /\ atob (js "ab-d") = Throw InvalidCharacterError.
Proof.
  apply (fromBase64_rejects (js "ab-d") 45); [|reflexivity|reflexivity|discriminate].
  apply elem_of_cons; right. apply elem_of_cons; right. apply elem_of_cons; left. reflexivity.
Defined.

Lemma strip_prefix_startsWith (p s r : jsstring) :
  strip_prefix p s = Some r -> startsWith s p = true.
Proof.
  revert s. induction p as [|a p IH]; intros [|b s]; simpl; try discriminate; try reflexivity.
  destruct (a =? b); [|discriminate]. simpl. apply IH.
Qed.

Lemma match_pbkdf2_startsWith (storedHash : jsstring) groups :
  match_pbkdf2 storedHash = Some groups -> startsWith storedHash (js "$pbkdf2$") = true.
Proof.
  unfold match_pbkdf2.
  destruct (strip_prefix (js "$pbkdf2$") storedHash) as [r|] eqn:H; [|discriminate].
  intros _. now apply strip_prefix_startsWith in H.
Qed.

Section VerifyPassword.
Context {P : Primitives}.

Lemma subtle_deriveBits_Return (password salt : bytes) (iterations : Z) (out : bytes) :
  subtle_deriveBits password salt iterations = Return out
  <-> 1 <= iterations <= 4294967295 /\ out = pbkdf2_sha256 password salt iterations.
Proof.
  unfold subtle_deriveBits.
  destruct (Z.ltb_spec iterations 0), (Z.ltb_spec 4294967295 iterations);
    cbn [orb]; try (split; [discriminate | lia]).
  destruct (Z.eqb_spec iterations 0).
  - split; [discriminate | lia].
  - split; [intros [= <-]; split; [lia | reflexivity] | now intros [_ ->]].
Qed.

(** X5. [verifyPassword] returns [true] for exactly the stored hashes of
    the form [$pbkdf2$<digits>$<salt>$<hash>] whose iteration count lies
    between 1 and 2^32 - 1, whose salt is base64, and whose last segment
    is the base64 text of the PBKDF2 digest of the password under that salt
    and count. *)
Theorem verifyPassword_accepts_only_the_digest (password storedHash : jsstring) :
  verifyPassword password storedHash = Return true
  <-> exists iterationsStr saltB64 hashB64 salt,
        match_pbkdf2 storedHash = Some (iterationsStr, saltB64, hashB64)
        /\ 1 <= Number_of_digits iterationsStr <= 4294967295
        /\ fromBase64 saltB64 = Return salt
        /\ fromBase64 hashB64
           = Return (pbkdf2_sha256 (TextEncoder_encode password) salt
                                   (Number_of_digits iterationsStr)).
Proof.
  unfold verifyPassword. split.
  - destruct (startsWith storedHash (js "$pbkdf2$")); cbn [negb]; [|discriminate].
    destruct (match_pbkdf2 storedHash) as [[[iterationsStr saltB64] hashB64]|];
      [|discriminate].
    destruct (fromBase64 saltB64) as [salt|] eqn:Hs; cbn [cbind]; [|discriminate].
    destruct (fromBase64 hashB64) as [expectedHash|] eqn:Hh; cbn [cbind]; [|discriminate].
    destruct (subtle_deriveBits _ salt _) as [calculated|] eqn:Hbits; cbn [cbind];
      [|discriminate].
    intros [= Heq]. apply subtle_deriveBits_Return in Hbits as [Hit ->].
    apply timingSafeEqual_eq in Heq. subst expectedHash.
    exists iterationsStr, saltB64, hashB64, salt. auto.
  - intros (iterationsStr & saltB64 & hashB64 & salt & Hm & Hit & Hs & Hh).
    rewrite (match_pbkdf2_startsWith _ _ Hm), Hm. cbn [negb].
    rewrite Hs, Hh. cbn [cbind].
    destruct (subtle_deriveBits _ salt _) as [calculated|] eqn:Hbits.
    + apply subtle_deriveBits_Return in Hbits as [_ ->]. cbn [cbind].
      now rewrite timingSafeEqual_refl.
    + exfalso.
      assert (H : subtle_deriveBits (TextEncoder_encode password) salt
                    (Number_of_digits iterationsStr)
                  = Return (pbkdf2_sha256 (TextEncoder_encode password) salt
                              (Number_of_digits iterationsStr)))
        by now apply subtle_deriveBits_Return.
      congruence.
Qed.
End VerifyPassword.

Lemma ENCRYPTED_SUFFIX_units :
  ENCRYPTED_SUFFIX = [95; 101; 110; 99; 114; 121; 112; 116; 101; 100].
Proof. reflexivity. Qed.

(** [_encrypted] overlaps itself nowhere: after a name that does not hold
    it, its first occurrence is the suffix. *)
Lemma startsWith_suffix_only (s : jsstring) :
  s <> [] -> startsWith s ENCRYPTED_SUFFIX = false ->
  startsWith (s ++ ENCRYPTED_SUFFIX) ENCRYPTED_SUFFIX = false.
Proof.
  rewrite ENCRYPTED_SUFFIX_units. intros Hne Hs.
  do 10 (destruct s as [|? s];
         [first [congruence
                | cbn -[Z.eqb];
                  repeat match goal with
                         | |- context [Z.pos ?a =? 95] => change (Z.pos a =? 95) with false
                         end;
                  cbn [andb]; now rewrite ?andb_false_r]|]).
  assert (Hnil : forall t : jsstring, startsWith t [] = true) by now intros [|].
  cbn -[Z.eqb] in *. rewrite Hnil in *. exact Hs.
Qed.

Lemma originalKey_suffix (k : jsstring) :
  includes k ENCRYPTED_SUFFIX = false -> originalKey (k ++ ENCRYPTED_SUFFIX) = k.
Proof.
  unfold originalKey. induction k as [|c k IH]; intros Hk.
  - reflexivity.
  - cbn [includes] in Hk. apply orb_false_iff in Hk as [Hhere Hk].
    change ((c :: k) ++ ENCRYPTED_SUFFIX) with (c :: (k ++ ENCRYPTED_SUFFIX)).
    cbn [remove_first].
    change (c :: (k ++ ENCRYPTED_SUFFIX)) with ((c :: k) ++ ENCRYPTED_SUFFIX).
    rewrite startsWith_suffix_only by (congruence || assumption).
    now rewrite IH.
Qed.

Lemma well_formed_below_surrogates (s : jsstring) :
  Forall (fun c => 0 <= c < 0xD800) s -> Utf8.well_formed s = true.
Proof.
  induction 1 as [|c s Hc Hs IH]; [reflexivity|].
  cbn [Utf8.well_formed]. unfold Utf8.is_lead, Utf8.is_trail.
  replace (0xD800 <=? c) with false by (symmetry; apply Z.leb_gt; lia).
  replace (0xDC00 <=? c) with false by (symmetry; apply Z.leb_gt; lia).
  cbn [andb negb]. rewrite IH.
  replace (0 <=? c) with true by (symmetry; apply Z.leb_le; lia).
  replace (c <=? 0xFFFF) with true by (symmetry; apply Z.leb_le; lia).
  reflexivity.
Qed.

Lemma js_ascii (s : string) : Forall (fun c => 0 <= c < 256) (js s).
Proof.
  unfold js. induction s as [|a s IH]; cbn; constructor; [|exact IH].
  pose proof (N_ascii_bounded a). lia.
Qed.

Lemma ascii_well_formed (s : jsstring) :
  Forall (fun c => 0 <= c < 256) s ->
  Utf8.well_formed s = true /\ starts_with_bom s = false.
Proof.
  intros H. split.
  - apply well_formed_below_surrogates. eapply Forall_impl; [exact H|]. cbn. lia.
  - destruct s as [|c r]; [reflexivity|]. inversion H; subst. cbn.
    apply Z.eqb_neq. lia.
Qed.

Lemma decimal_ascii (n : Z) : Forall (fun c => 0 <= c < 256) (decimal n).
Proof. apply js_ascii. Qed.

Lemma strip_zeros_ascii (s : jsstring) :
  Forall (fun c => 0 <= c < 256) s -> Forall (fun c => 0 <= c < 256) (strip_zeros s).
Proof.
  induction 1 as [|c s Hc Hs IH]; [constructor|].
  cbn [strip_zeros].
  repeat (first [exact IH | now constructor
                | match goal with
                  | |- context [match ?x with _ => _ end] => destruct x
                  end]).
Qed.

Lemma exponential_ascii (v : Z) : Forall (fun c => 0 <= c < 256) (exponential v).
Proof.
  unfold exponential.
  pose proof (strip_zeros_ascii (rev (decimal v))
                (Forall_rev (decimal_ascii v))) as H.
  apply Forall_rev in H.
  destruct (rev (strip_zeros (rev (decimal v)))) as [|d [|d' more]].
  - apply decimal_ascii.
  - apply Forall_app. split; [exact H|].
    apply Forall_app. split; [apply js_ascii | apply decimal_ascii].
  - inversion_clear H as [|? ? Hd Hmore].
    apply Forall_app. split; [now repeat constructor|].
    apply Forall_app. split; [apply js_ascii|].
    apply Forall_app. split; [exact Hmore|].
    apply Forall_app. split; [apply js_ascii | apply decimal_ascii].
Qed.

Lemma Number_toString_ascii (n : Z) :
  Forall (fun c => 0 <= c < 256) (Number_toString n).
Proof.
  unfold Number_toString.
  assert (Hsign : Forall (fun c => 0 <= c < 256) (if n <? 0 then js "-" else []))
    by (destruct (n <? 0); [apply js_ascii | constructor]).
  destruct (nearest_double (Z.abs n)) as [x|];
    [|apply Forall_app; split; [exact Hsign | apply js_ascii]].
  destruct (x <? 2 ^ 53);
    [apply Forall_app; split; [exact Hsign | apply decimal_ascii]|].
  cbv zeta.
  destruct (length (decimal (shortest x (length (decimal x)) (length (decimal x)) 1))
            <=? 21)%nat;
    apply Forall_app; (split; [exact Hsign|]);
    [apply decimal_ascii | apply exponential_ascii].
Qed.

Lemma Number_toString_well_formed (n : Z) :
  Utf8.well_formed (Number_toString n) = true
  /\ starts_with_bom (Number_toString n) = false.
Proof. apply ascii_well_formed, Number_toString_ascii. Qed.

Section RecordRoundTrip.

Context {P : Primitives} {L : PrimitivesLaws P}.

(** What the loop of [encryptObject] writes for the fields that are set. *)
Lemma encryptObject_loop_wire (key : CryptoKey)
    (entries : list (jsstring * jsvalue)) :
  NoDup (map fst entries) ->
  forall (e : entropy) (acc : jsobject),
  exists wire e' calls,
    encryptObject_loop entries key e acc = (Return wire, e', calls)
    /\ (forall name : jsstring,
          (forall k v, (k, v) ∈ entries -> v <> VUndefined ->
                       name <> k ++ ENCRYPTED_SUFFIX) ->
          wire !! name = acc !! name)
    /\ (forall k v, (k, v) ∈ entries -> v <> VUndefined ->
          exists x, wire !! (k ++ ENCRYPTED_SUFFIX) = Some x
            /\ match v with
               | VNull | VString [] => x = VNull
               | _ => exists w e0,
                        x = VString w
                        /\ fst (fst (encryptData (ToString v) key e0)) = Return w
               end).
Proof.
  induction entries as [|[fieldKey value] rest IH]; intros Hnodup e acc.
  - exists acc, e, []. cbn. repeat split; auto.
    intros k v Hin. inversion Hin.
  - cbn [map fst] in Hnodup. apply NoDup_cons in Hnodup as [Hfresh Hnodup].
    assert (Hrest : forall k v, (k, v) ∈ rest ->
              fieldKey ++ ENCRYPTED_SUFFIX <> k ++ ENCRYPTED_SUFFIX).
    { intros k v Hin Heq. apply app_inv_tail in Heq. subst k.
      apply Hfresh. apply list_elem_of_fmap. exists (fieldKey, v). auto. }
    (* the rest of the loop, once the field is written *)
    assert (Hset : forall (x : jsvalue) (e0 : entropy),
               value <> VUndefined ->
               match value with
               | VNull | VString [] => x = VNull
               | _ => exists w e1,
                        x = VString w
                        /\ fst (fst (encryptData (ToString value) key e1)) = Return w
               end ->
               exists wire e' calls,
                 encryptObject_loop rest key e0
                   (<[fieldKey ++ ENCRYPTED_SUFFIX := x]> acc)
                 = (Return wire, e', calls)
                 /\ (forall name : jsstring,
                       (forall k v, (k, v) ∈ (fieldKey, value) :: rest ->
                                    v <> VUndefined -> name <> k ++ ENCRYPTED_SUFFIX) ->
                       wire !! name = acc !! name)
                 /\ (forall k v, (k, v) ∈ (fieldKey, value) :: rest -> v <> VUndefined ->
                       exists x', wire !! (k ++ ENCRYPTED_SUFFIX) = Some x'
                         /\ match v with
                            | VNull | VString [] => x' = VNull
                            | _ => exists w e1,
                                     x' = VString w
                                     /\ fst (fst (encryptData (ToString v) key e1))
                                        = Return w
                            end)).
    { intros x e0 Hdef Hx.
      destruct (IH Hnodup e0 (<[fieldKey ++ ENCRYPTED_SUFFIX := x]> acc))
        as (wire & e' & calls & Hrun & Hother & Hfields).
      exists wire, e', calls. split; [exact Hrun|]. split.
      - intros name Hname. rewrite Hother.
        + apply lookup_insert_ne. intros Heq.
          apply (Hname fieldKey value); [left|assumption|now symmetry].
        + intros k v Hin. apply Hname. now right.
      - intros k v Hin Hv. apply elem_of_cons in Hin as [[= -> ->] | Hin].
        + exists x. split; [|exact Hx].
          rewrite Hother; [apply lookup_insert_eq|].
          intros k v Hin _. now apply (Hrest k v).
        + now apply Hfields. }
    (* a field that is encrypted *)
    assert (Hencrypted :
              value <> VUndefined -> value <> VNull -> value <> VString [] ->
              exists wire e' calls,
                (let '(r, e1, calls1) := encryptData (ToString value) key e in
                 match r with
                 | Throw ex => (Throw ex, e1, calls1)
                 | Return w =>
                     let '(r', e2, calls2) :=
                       encryptObject_loop rest key e1
                         (<[fieldKey ++ ENCRYPTED_SUFFIX := VString w]> acc) in
                     (r', e2, calls1 ++ calls2)
                 end) = (Return wire, e', calls)
                /\ (forall name : jsstring,
                      (forall k v, (k, v) ∈ (fieldKey, value) :: rest ->
                                   v <> VUndefined -> name <> k ++ ENCRYPTED_SUFFIX) ->
                      wire !! name = acc !! name)
                /\ (forall k v, (k, v) ∈ (fieldKey, value) :: rest -> v <> VUndefined ->
                      exists x', wire !! (k ++ ENCRYPTED_SUFFIX) = Some x'
                        /\ match v with
                           | VNull | VString [] => x' = VNull
                           | _ => exists w e1,
                                    x' = VString w
                                    /\ fst (fst (encryptData (ToString v) key e1))
                                       = Return w
                           end)).
    { intros Hu Hn He.
      destruct (encryptData_returns (ToString value) key e) as (w & iv & Henc).
      rewrite Henc.
      destruct (Hset (VString w) (snd (getRandomValues 12 e)))
        as (wire & e' & calls & Hrun & Hrest'); [exact Hu| |].
      { assert (Hseal : exists w0 e1,
                   VString w = VString w0
                   /\ fst (fst (encryptData (ToString value) key e1)) = Return w0)
          by (exists w, e; now rewrite Henc).
        destruct value as [| |[|c s]|n|str]; first [congruence | exact Hseal]. }
      rewrite Hrun. eexists wire, e', _. split; [reflexivity|exact Hrest']. }
    cbn [encryptObject_loop].
    destruct value as [| |s|n|str].
    + (* undefined: skipped *)
      destruct (IH Hnodup e acc) as (wire & e' & calls & Hrun & Hother & Hfields).
      exists wire, e', calls. split; [exact Hrun|]. split.
      * intros name Hname. apply Hother. intros k v Hin. apply Hname. now right.
      * intros k v Hin Hv. apply elem_of_cons in Hin as [[= -> ->] | Hin];
          [congruence|]. now apply Hfields.
    + (* null *)
      destruct (Hset VNull e) as (wire & e' & calls & Hrun & Hrest'); try easy.
      exists wire, e', calls. auto.
    + destruct s as [|c s].
      * (* the empty string *)
        destruct (Hset VNull e) as (wire & e' & calls & Hrun & Hrest'); try easy.
        exists wire, e', calls. auto.
      * (* a string: encrypted *)
        apply Hencrypted; discriminate.
    + (* a number: encrypted *)
      apply Hencrypted; discriminate.
    + (* any other value: encrypted *)
      apply Hencrypted; discriminate.
Qed.

Lemma encryptData_nonempty (data : jsstring) (key : CryptoKey) (e : entropy)
    (w : jsstring) :
  fst (fst (encryptData data key e)) = Return w -> w <> [].
Proof.
  unfold encryptData, NONCE_BYTES.
  pose proof (length_getRandomValues 12 e) as Hlen.
  destruct (getRandomValues 12 e) as [nonce e']. cbn [fst] in *.
  rewrite toBase64_returns. intros [= <-]. apply encode_nonempty.
  destruct nonce; [discriminate|]. discriminate.
Qed.

(** X6. The record codec round trip. For a record whose names are
    distinct and do not contain [_encrypted], and whose strings, and what
    [String] returns for its values that are neither strings nor numbers,
    are well-formed UTF-16 that does not start with U+FEFF,
    [encryptObject] returns a wire record from which [decryptObject], under
    the same key and in whatever order its decryptions settle, returns a
    record with the same names but [__proto__], which it does not have:
    a field that was [undefined] is absent, a field that was [null] or the
    empty string is [null], and any other field is what [String] returns
    for its value, the empty string for the empty array and [1e+21] for
    the number 10^21. *)
Theorem decryptObject_encryptObject (entries : list (jsstring * jsvalue))
    (key : CryptoKey) (e : entropy) :
  NoDup (map fst entries) ->
  (forall k v, (k, v) ∈ entries -> includes k ENCRYPTED_SUFFIX = false) ->
  (forall k s, (k, VString s) ∈ entries \/ (k, VOther s) ∈ entries ->
               Utf8.well_formed s = true /\ starts_with_bom s = false) ->
  exists wire e' calls,
    encryptObject entries key e = (Return wire, e', calls)
    /\ forall (wireEntries : list (jsstring * jsvalue)) (m : jsobject),
         (forall name value, (name, value) ∈ wireEntries <-> wire !! name = Some value) ->
         decryptObject_settles wireEntries key m ->
         forall k : jsstring,
           m !! k = if bool_decide (k = js "__proto__") then None
                    else match (list_to_map entries : jsobject) !! k with
                         | None | Some VUndefined => None
                         | Some VNull | Some (VString []) => Some VNull
                         | Some v => Some (VString (ToString v))
                         end.
Proof.
  intros Hnodup Hnames Hwf.
  destruct (encryptObject_loop_wire key entries Hnodup e ∅)
    as (wire & e' & calls & Hrun & Hother & Hfields).
  exists wire, e', calls. split; [exact Hrun|].
  intros wireEntries m Hentries Hsettles k.
  destruct (bool_decide_reflect (k = js "__proto__")) as [-> | Hproto];
    [exact (decryptObject_proto key wireEntries m Hsettles)|].
  (* an entry of the wire object that is written to [k] is the field [k] *)
  assert (Hsource : forall name value,
             (name, value) ∈ wireEntries -> target name = Some k ->
             name = k ++ ENCRYPTED_SUFFIX
             /\ exists v, (k, v) ∈ entries /\ v <> VUndefined).
  { intros name value Hin Ht. apply Hentries in Hin.
    destruct (decide (Exists (fun entry => snd entry <> VUndefined
                                           /\ name = fst entry ++ ENCRYPTED_SUFFIX)
                             entries)) as [Hex | Hnex].
    - apply Exists_exists in Hex as ([k' v'] & Hin' & Hdef & ->). cbn [fst snd] in *.
      apply target_cases in Ht as [[_ Ht] | (Hs & _)].
      + rewrite (originalKey_suffix k') in Ht by now apply (Hnames k' v').
        subst k'. eauto.
      + now rewrite endsWith_suffix in Hs.
    - rewrite Hother, lookup_empty in Hin; [discriminate|].
      intros k' v' Hin' Hdef ->. apply Hnex, Exists_exists.
      exists (k', v'). auto. }
  destruct ((list_to_map entries : jsobject) !! k) as [v|] eqn:Hk.
  - apply elem_of_list_to_map_2 in Hk.
    destruct (decide (v = VUndefined)) as [-> | Hdef].
    + apply eq_None_not_Some.
      rewrite (decryptObject_is_Some key wireEntries m k Hsettles).
      intros (_ & [name value] & Hin & Ht). cbn [fst] in Ht.
      destruct (Hsource name value Hin Ht) as (_ & v & Hin' & Hv).
      apply Hv. exact (entries_functional entries k v VUndefined Hnodup Hin' Hk).
    + destruct (Hfields k v Hk Hdef) as (x & Hx & Hseal).
      assert (Hwire : (k ++ ENCRYPTED_SUFFIX, x) ∈ wireEntries) by now apply Hentries.
      assert (Ht : target (k ++ ENCRYPTED_SUFFIX) = Some k).
      { apply target_cases. left. split; [apply endsWith_suffix|].
        symmetry. apply originalKey_suffix. now apply (Hnames k v). }
      rewrite (decryptObject_lookup key wireEntries m (k ++ ENCRYPTED_SUFFIX, x) k
                 Hsettles Hproto Hwire Ht).
      * unfold written_value. cbn [fst snd]. rewrite endsWith_suffix.
        assert (Hset : forall data,
                   (exists w e0, x = VString w
                      /\ fst (fst (encryptData data key e0)) = Return w) ->
                   Utf8.well_formed data = true -> starts_with_bom data = false ->
                   match x with
                   | VString ((_ :: _) as s) => decrypted_value s key
                   | _ => VNull
                   end = VString data).
        { intros data (w & e0 & -> & Hw) Hwf' Hbom.
          pose proof (encryptData_nonempty data key e0 w Hw) as Hne.
          destruct w as [|c w]; [congruence|].
          unfold decrypted_value.
          destruct (decrypt_encrypt_gen key data e0) as (w' & Hw' & Hdec).
          rewrite <- encryptData_encrypt, Hw in Hw'. injection Hw' as <-.
          rewrite decryptData_decrypt, Hdec.
          now rewrite TextDecoder_TextEncoder. }
        destruct v as [| |s|n|str]; [congruence|now subst x| | |].
        -- destruct s as [|c s]; [now subst x|].
           f_equal. apply Hset; [exact Hseal|apply (Hwf k); now left..].
        -- f_equal. apply Hset; [exact Hseal|apply Number_toString_well_formed..].
        -- f_equal. apply Hset; [exact Hseal|apply (Hwf k); now right..].
      * intros [name value] Hin Ht'. cbn [fst] in Ht'.
        destruct (Hsource name value Hin Ht') as (-> & _).
        apply Hentries in Hin. rewrite Hx in Hin. now injection Hin as <-.
  - apply not_elem_of_list_to_map_2 in Hk.
    apply eq_None_not_Some.
    rewrite (decryptObject_is_Some key wireEntries m k Hsettles).
    intros (_ & [name value] & Hin & Ht). cbn [fst] in Ht.
    destruct (Hsource name value Hin Ht) as (_ & v & Hin' & _).
    apply Hk, list_elem_of_fmap. exists (k, v). auto.
Qed.

End RecordRoundTrip.

(** ** The length of a wire string and the limit of the routes *)

Lemma encode_scalar_length (c : Z) :
  (length (Utf8.encode_scalar c) <= 4)%nat
  /\ (c <= 0xFFFF -> (length (Utf8.encode_scalar c) <= 3)%nat).
Proof.
  unfold Utf8.encode_scalar.
  destruct (Z.leb_spec c 0x7F); [cbn; lia|].
  destruct (Z.leb_spec c 0x7FF); [cbn; lia|].
  destruct (Z.leb_spec c 0xFFFF); cbn; lia.
Qed.

(** UTF-8 takes at most three bytes for a code unit. *)
Lemma TextEncoder_encode_length (s : jsstring) :
  Forall (fun c => 0 <= c <= 0xFFFF) s ->
  (length (TextEncoder_encode s) <= 3 * length s)%nat.
Proof.
  unfold TextEncoder_encode.
  remember (length s) as n eqn:Hn. revert s Hn.
  induction n as [n IH] using lt_wf_ind. intros s -> Hs.
  destruct s as [|c r]; [cbn; lia|].
  inversion Hs as [|? ? Hc Hr]; subst.
  cbn [Utf8.scalars_of_units].
  assert (Hrest : (length (flat_map Utf8.encode_scalar (Utf8.scalars_of_units r))
                   <= 3 * length r)%nat) by (apply (IH (length r)); cbn; auto; lia).
  assert (H3 : forall x, x <= 0xFFFF -> (length (Utf8.encode_scalar x) <= 3)%nat)
    by (intros x; apply encode_scalar_length).
  destruct (Utf8.is_lead c).
  - destruct r as [|d r']; [cbn; lia|].
    destruct (Utf8.is_trail d).
    + inversion Hr as [|? ? Hd Hr']; subst.
      cbn [flat_map]. rewrite length_app.
      pose proof (proj1 (encode_scalar_length
                           (0x10000 + (c - 0xD800) * 0x400 + (d - 0xDC00)))).
      assert ((length (flat_map Utf8.encode_scalar (Utf8.scalars_of_units r'))
               <= 3 * length r')%nat) by (apply (IH (length r')); cbn; auto; lia).
      cbn [length]. lia.
    + cbn [flat_map]. rewrite length_app.
      pose proof (H3 0xFFFD ltac:(lia)). cbn [length] in *. lia.
  - destruct (Utf8.is_trail c); cbn [flat_map]; rewrite length_app.
    + pose proof (H3 0xFFFD ltac:(lia)). cbn [length] in *. lia.
    + pose proof (H3 c ltac:(lia)). cbn [length] in *. lia.
Qed.

Section WireLength.

Context {P : Primitives} {L : PrimitivesLaws P}.

Lemma encryptData_length (data : jsstring) (key : CryptoKey) (e : entropy) :
  exists w,
    fst (fst (encryptData data key e)) = Return w
    /\ length w = (4 * ((length (TextEncoder_encode data) + 30) / 3))%nat.
Proof.
  unfold encryptData, NONCE_BYTES.
  pose proof (length_getRandomValues 12 e) as Hlen.
  destruct (getRandomValues 12 e) as [nonce e']. cbn [fst] in *.
  rewrite toBase64_returns. eexists. split; [reflexivity|].
  rewrite Base64More.encode_length, length_map, length_app, Hlen,
    aes_gcm_encrypt_length.
  do 2 f_equal. lia.
Qed.

Lemma encryptedField_length (w : jsstring) (n : nat) :
  length w = (4 * ((n + 30) / 3))%nat ->
  encryptedField (VString w) = true <-> Z.of_nat n <= 6116.
Proof.
  intros Hw. unfold encryptedField. rewrite Hw.
  pose proof (Nat.div_mod_eq (n + 30) 3) as Hdiv.
  pose proof (Nat.mod_upper_bound (n + 30) 3 ltac:(lia)) as Hmod.
  rewrite andb_true_iff, !Z.leb_le. lia.
Qed.

(** X7. The wire string of [encryptData] has [4 * floor((n + 30) / 3)]
    code units for a plaintext of [n] bytes of UTF-8; the routes'
    [encryptedField] accepts it exactly when [n <= 6116], hence for every
    plaintext of at most 2038 code units, and [normalizeEncrypted] keeps
    it as it is. *)
Theorem encryptData_fits_encryptedField (data : jsstring) (key : CryptoKey)
    (e : entropy) :
  exists w,
    fst (fst (encryptData data key e)) = Return w
    /\ length w = (4 * ((length (TextEncoder_encode data) + 30) / 3))%nat
    /\ (encryptedField (VString w) = true
        <-> Z.of_nat (length (TextEncoder_encode data)) <= 6116)
    /\ (Forall (fun c => 0 <= c <= 0xFFFF) data -> Z.of_nat (length data) <= 2038 ->
        encryptedField (VString w) = true)
    /\ normalizeEncrypted (VString w) = Some w.
Proof.
  destruct (encryptData_length data key e) as (w & Hw & Hlen).
  exists w. split; [exact Hw|]. split; [exact Hlen|].
  pose proof (encryptedField_length w _ Hlen) as Hfits.
  split; [exact Hfits|]. split.
  - intros Hunits Hshort. apply Hfits.
    pose proof (TextEncoder_encode_length data Hunits). lia.
  - pose proof (encryptData_nonempty data key e w Hw) as Hne.
    destruct w; [congruence|reflexivity].
Qed.

End WireLength.

(** ** What the routes store of a wire record *)

(** The wire record as the routes store it: the fields that [which] picks
    go through [normalizeEncrypted]. *)
Section Normalized.

Context {P : Primitives}.

Variable which : jsstring -> bool.

Lemma decrypt_field_normalized (key : CryptoKey) (fieldKey : jsstring) (value : jsvalue) :
  endsWith fieldKey ENCRYPTED_SUFFIX = true ->
  decrypt_field key (fieldKey, column (normalizeEncrypted value))
  = decrypt_field key (fieldKey, value)
  /\ decrypt_field_calls key (fieldKey, column (normalizeEncrypted value))
     = decrypt_field_calls key (fieldKey, value).
Proof.
  intros Hs. unfold decrypt_field, decrypt_field_calls. rewrite Hs.
  destruct value as [| |[|c s]|n|str]; split; reflexivity.
Qed.

(** X8. [normalizeEncrypted] is invisible to the reader. A wire record
    in which any fields whose names end in [_encrypted] are replaced by
    what [normalizeEncrypted] makes of them holds, in those fields, [null]
    or a string that is not empty; [decryptObject] returns the same record
    for it as for the original, in every order of settling, with the same
    calls of [decryptData]. *)
Theorem normalizeEncrypted_is_transparent (key : CryptoKey)
    (entries : list (jsstring * jsvalue)) :
  let stored :=
    map (fun entry =>
           if which (fst entry) && endsWith (fst entry) ENCRYPTED_SUFFIX
           then (fst entry, column (normalizeEncrypted (snd entry)))
           else entry) entries in
  Forall (fun entry => which (fst entry) && endsWith (fst entry) ENCRYPTED_SUFFIX = true ->
                       snd entry = VNull
                       \/ exists s, snd entry = VString s /\ s <> []) stored
  /\ decryptObject stored key = decryptObject entries key
  /\ (forall m, decryptObject_settles stored key m <-> decryptObject_settles entries key m)
  /\ flat_map (decrypt_field_calls key) stored = flat_map (decrypt_field_calls key) entries.
Proof.
  intros stored. subst stored.
  set (norm := fun entry : jsstring * jsvalue =>
                 if which (fst entry) && endsWith (fst entry) ENCRYPTED_SUFFIX
                 then (fst entry, column (normalizeEncrypted (snd entry)))
                 else entry).
  assert (Hfield : forall entry,
             decrypt_field key (norm entry) = decrypt_field key entry
             /\ decrypt_field_calls key (norm entry) = decrypt_field_calls key entry).
  { intros [fieldKey value]. unfold norm. cbn [fst snd].
    destruct (which fieldKey); cbn [andb]; [|auto].
    destruct (endsWith fieldKey ENCRYPTED_SUFFIX) eqn:Hs; [|auto].
    now apply decrypt_field_normalized. }
  assert (Hnow : writes_now key (map norm entries) = writes_now key entries).
  { unfold writes_now. induction entries as [|entry rest IH]; [reflexivity|].
    simpl. rewrite (proj1 (Hfield entry)).
    destruct (decrypt_field key entry); first [exact IH | f_equal; exact IH]. }
  assert (Hlater : forall b : bool,
             writes_later key
               (filter (fun entry => reaches_cipher key entry = b) (map norm entries))
             = writes_later key
                 (filter (fun entry => reaches_cipher key entry = b) entries)).
  { clear Hnow. intros b.
    induction entries as [|entry rest IH]; [reflexivity|].
    cbn [map]. rewrite !filter_cons.
    assert (Hreach : reaches_cipher key (norm entry) = reaches_cipher key entry)
      by (unfold reaches_cipher; now rewrite (proj2 (Hfield entry))).
    rewrite Hreach.
    destruct (decide (reaches_cipher key entry = b)); [|exact IH].
    unfold writes_later in *. simpl. rewrite (proj1 (Hfield entry)).
    destruct (decrypt_field key entry); first [exact IH | f_equal; exact IH]. }
  split; [|split; [|split]].
  - apply Forall_forall. intros entry Hin.
    apply list_elem_of_fmap in Hin as ([fieldKey value] & -> & _).
    unfold norm. cbn [fst snd].
    destruct (which fieldKey && endsWith fieldKey ENCRYPTED_SUFFIX) eqn:Hw;
      cbn [fst snd]; [|congruence].
    intros _. destruct value as [| |[|c s]|n|str]; cbn; auto.
    right. exists (c :: s). split; [reflexivity|discriminate].
  - unfold decryptObject, writes_rejected, writes_decrypted.
    now rewrite Hnow, !Hlater.
  - intros m. unfold decryptObject_settles, writes_rejected, writes_decrypted.
    now rewrite Hnow, !Hlater.
  - clear Hnow Hlater. induction entries as [|entry rest IH]; [reflexivity|].
    cbn [map flat_map]. rewrite (proj2 (Hfield entry)), IH. reflexivity.
Qed.

End Normalized.

(** ** The worker's key and the client's *)

Section Interoperation.

Context {P : Primitives} {L : PrimitivesLaws P}.

(** X9. The worker's [deriveKey] returns a key that cannot be exported
    for an iteration count between 1 and 2^32 - 1, throws [OperationError]
    for 0 and [TypeError] outside; called with the client's count it is the
    client's [deriveKey], and then what either side encrypts, with
    [encrypt] or [encryptData], the other decrypts: the wire strings are
    the same. *)
Theorem worker_and_client_interoperate (password salt : jsstring) (iterations : Z) :
  match Worker.deriveKey password salt iterations with
  | Return key =>
      1 <= iterations <= 4294967295
      /\ key = {| key_bytes := pbkdf2_sha256 (TextEncoder_encode password)
                                             (TextEncoder_encode salt) iterations;
                  extractable := false |}
  | Throw err =>
      (iterations = 0 /\ err = OperationError)
      \/ ((iterations < 0 \/ 4294967295 < iterations) /\ err = TypeError)
  end
  /\ Worker.deriveKey password salt PBKDF2_ITERATIONS = deriveKey password salt
  /\ forall (plaintext : jsstring) (e : entropy),
       Utf8.well_formed plaintext = true -> starts_with_bom plaintext = false ->
       exists kw kc w,
         Worker.deriveKey password salt PBKDF2_ITERATIONS = Return kw
         /\ deriveKey password salt = Return kc
         /\ fst (fst (encryptData plaintext kc e)) = Return w
         /\ fst (encrypt kw plaintext e) = Return w
         /\ decrypt kw w = Return plaintext
         /\ fst (decryptData w kc) = Return plaintext.
Proof.
  split; [|split; [reflexivity|]].
  - unfold Worker.deriveKey, subtle_deriveBits.
    destruct (Z.ltb_spec iterations 0); cbn [orb cbind]; [right; auto|].
    destruct (Z.ltb_spec 4294967295 iterations); cbn [orb cbind]; [right; auto|].
    destruct (Z.eqb_spec iterations 0); cbn [cbind]; [left; auto|].
    split; [lia|reflexivity].
  - intros plaintext e Hwf Hbom.
    set (k := {| key_bytes := pbkdf2_sha256 (TextEncoder_encode password)
                                            (TextEncoder_encode salt) PBKDF2_ITERATIONS;
                 extractable := false |}).
    destruct (decrypt_encrypt_gen k plaintext e) as (w & Hw & Hdec).
    rewrite TextDecoder_TextEncoder in Hdec by assumption.
    exists k, k, w. split; [reflexivity|]. split; [reflexivity|].
    split; [now rewrite encryptData_encrypt|]. split; [exact Hw|].
    split; [exact Hdec|]. now rewrite decryptData_decrypt.
Qed.

End Interoperation.

(** ** What [resetPassword] refuses *)

Section ResetPasswordRefuses.

Context {P : Primitives}.

(** X10. What [resetPassword] refuses. A token shorter than 10 or a
    password shorter than 12 is answered 400 "Validation failed", an
    unknown token 400 "Invalid or expired token" and a used one 400 "Token
    already used", each with the database as it was; an unused token whose
    expiry has passed, or cannot be read as a date, is answered 400 "Token
    has expired", its row is deleted and nothing else changes, and
    redeeming it again is answered "Invalid or expired token". *)
Theorem resetPassword_refuses (now : Z) (token newPassword : jsstring)
    (db : Database) (e : entropy) :
  let without :=
    {| users := users db; sessions := sessions db;
       password_reset_tokens := delete (hashToken token) (password_reset_tokens db) |} in
  ((length token < 10)%nat \/ (length newPassword < 12)%nat ->
     resetPassword now token newPassword db e
     = (Responded {| status := 400; body := "Validation failed" |}, db, e))
  /\ ((10 <= length token)%nat -> (12 <= length newPassword)%nat ->
      match password_reset_tokens db !! hashToken token with
      | None =>
          resetPassword now token newPassword db e
          = (Responded {| status := 400; body := "Invalid or expired token" |}, db, e)
      | Some row =>
          (row_used row <> 0 ->
             resetPassword now token newPassword db e
             = (Responded {| status := 400; body := "Token already used" |}, db, e))
          /\ (row_used row = 0 ->
              (forall expires, row_expires_at row = Some expires -> expires < now) ->
              resetPassword now token newPassword db e
              = (Responded {| status := 400; body := "Token has expired" |}, without, e)
              /\ resetPassword now token newPassword without e
                 = (Responded {| status := 400; body := "Invalid or expired token" |},
                    without, e))
      end).
Proof.
  intros without. unfold resetPassword. split.
  - intros Hshort. cbn [resetPassword_step].
    replace ((length token <? 10)%nat || (length newPassword <? 12)%nat) with true;
      [reflexivity|].
    symmetry. apply orb_true_iff.
    destruct Hshort; [left|right]; apply Nat.ltb_lt; lia.
  - intros Htoken Hpw.
    assert (Hvalid : (length token <? 10)%nat || (length newPassword <? 12)%nat = false).
    { apply orb_false_iff. split; apply Nat.ltb_ge; lia. }
    destruct (password_reset_tokens db !! hashToken token) as [row|] eqn:Hrow.
    + split.
      * intros Hused. cbn [resetPassword_step]. rewrite Hvalid, Hrow.
        unfold truthy. destruct (Z.eqb_spec (row_used row) 0); [contradiction|].
        reflexivity.
      * intros Hfresh Hexpired. split.
        -- cbn [resetPassword_step]. rewrite Hvalid, Hrow.
           unfold truthy. rewrite Hfresh. cbn [Z.eqb negb].
           destruct (row_expires_at row) as [expires|]; [|reflexivity].
           specialize (Hexpired expires eq_refl).
           destruct (Z.ltb_spec expires now); [reflexivity|lia].
        -- cbn [resetPassword_step]. rewrite Hvalid.
           unfold without. cbn [password_reset_tokens].
           now rewrite lookup_delete_eq.
    + cbn [resetPassword_step]. now rewrite Hvalid, Hrow.
Qed.

End ResetPasswordRefuses.

Module SecretsFacts.
Import Secrets.

Lemma largest_id_ge (m : gmap Z SecretRow) (id : Z) :
  is_Some (m !! id) -> id <= largest_id m.
Proof.
  unfold largest_id. revert id.
  apply (map_fold_weak_ind (fun acc m => forall id, is_Some (m !! id) -> id <= acc)).
  - intros id [r Hr]. now rewrite lookup_empty in Hr.
  - intros i x m' acc Hfresh IH id Hid.
    destruct (decide (id = i)) as [-> | Hne]; [lia|].
    rewrite lookup_insert_ne in Hid by congruence.
    specialize (IH id Hid). lia.
Qed.

Lemma next_id_fresh (t : Table) : rows t !! next_id t = None.
Proof.
  apply eq_None_not_Some. intros H. apply largest_id_ge in H.
  unfold next_id in H. lia.
Qed.

Section Routes.

Variable id_of_param : jsstring -> option Z.
Variable ordered : list (Z * SecretRow) -> list (Z * SecretRow).
Hypothesis ordered_permutes : forall l, Permutation (ordered l) l.

Lemma owned_Some (secretId : jsstring) (userId : Z) (t : Table) (id : Z) (r : SecretRow) :
  owned id_of_param secretId userId t = Some (id, r)
  <-> id_of_param secretId = Some id /\ rows t !! id = Some r /\ user_id r = userId.
Proof.
  unfold owned. destruct (id_of_param secretId) as [id'|]; [|split; [discriminate|now intros [? _]]].
  destruct (rows t !! id') as [r'|] eqn:Hr'.
  - destruct (bool_decide_reflect (user_id r' = userId)) as [Hu | Hu].
    + split; [intros [= <- <-]; auto|]. intros ([= <-] & Hr & _). congruence.
    + split; [discriminate|]. intros ([= <-] & Hr & Hu'). congruence.
  - split; [discriminate|]. intros ([= <-] & Hr & _). congruence.
Qed.

Lemma getSecrets_lists (userId : Z) (t : Table) (secret : list (jsstring * jsvalue)) :
  secret ∈ map listed_columns
             (ordered (map_to_list (filter (fun ir => user_id (snd ir) = userId) (rows t))))
  <-> exists id r, rows t !! id = Some r /\ user_id r = userId
                   /\ secret = listed_columns (id, r).
Proof.
  rewrite list_elem_of_In, in_map_iff. split.
  - intros ([id r] & <- & Hin). exists id, r.
    apply (Permutation_in _ (ordered_permutes _)) in Hin.
    apply list_elem_of_In, elem_of_map_to_list, map_lookup_filter_Some in Hin as [Hr Hu].
    auto.
  - intros (id & r & Hr & Hu & ->). exists (id, r). split; [reflexivity|].
    apply (Permutation_in _ (Permutation_sym (ordered_permutes _))).
    apply list_elem_of_In, elem_of_map_to_list, map_lookup_filter_Some. auto.
Qed.

(** X11. The secrets of other users are out of reach. For a request of
    user [u], [getSecrets] lists and [getSecret] finds only rows whose
    [user_id] is [u], and [createSecret], [updateSecret] and [deleteSecret]
    leave every row of any other user as it was, whatever the path
    parameter and the body; without a user the five routes answer 401 (the
    two that parse a body first may answer 400 or 500) and change
    nothing. *)
Theorem secrets_of_other_users_are_out_of_reach
    (u : Z) (t : Table) (secretId : jsstring) (body : option jsobject)
    (timestamp : jsstring) :
  (forall secrets secret,
      getSecrets ordered (Some u) t = Listed secrets -> secret ∈ secrets ->
      exists id r, rows t !! id = Some r /\ user_id r = u
                   /\ secret = listed_columns (id, r))
  /\ (forall secret,
        getSecret id_of_param (Some u) secretId t = Found secret ->
        exists id r, rows t !! id = Some r /\ user_id r = u
                     /\ secret = all_columns id r)
  /\ (forall id r,
        rows t !! id = Some r -> user_id r <> u ->
        rows (snd (createSecret (Some u) body timestamp t)) !! id = Some r
        /\ rows (snd (updateSecret id_of_param (Some u) secretId body timestamp t)) !! id
           = Some r
        /\ rows (snd (deleteSecret id_of_param (Some u) secretId t)) !! id = Some r)
  /\ (getSecrets ordered None t = Failure 401 "Unauthorized"
      /\ getSecret id_of_param None secretId t = Failure 401 "Unauthorized"
      /\ snd (createSecret None body timestamp t) = t
      /\ snd (updateSecret id_of_param None secretId body timestamp t) = t
      /\ deleteSecret id_of_param None secretId t = (Failure 401 "Unauthorized", t)).
Proof.
  split; [|split; [|split]].
  - intros secrets secret [= <-] Hin. now apply getSecrets_lists.
  - intros secret. unfold getSecret.
    destruct (owned id_of_param secretId u t) as [[id r]|] eqn:Ho; [|discriminate].
    intros [= <-]. apply owned_Some in Ho as (_ & Hr & Hu). eauto.
  - intros id r Hr Hu. split; [|split].
    + unfold createSecret. destruct body as [body|]; [|exact Hr].
      destruct (createSecretSchema body); cbn [negb]; [|exact Hr].
      cbn [snd rows]. rewrite lookup_insert_ne; [exact Hr|].
      intros Heq. pose proof (next_id_fresh t) as Hfresh. congruence.
    + unfold updateSecret. destruct body as [body|]; [|exact Hr].
      destruct (updateSecretSchema body); cbn [negb]; [|exact Hr].
      destruct (owned id_of_param secretId u t) as [[id' r']|] eqn:Ho; [|exact Hr].
      destruct (bool_decide _); [exact Hr|].
      apply owned_Some in Ho as (_ & Hr' & Hu').
      cbn [snd rows]. rewrite lookup_insert_ne; [exact Hr|]. congruence.
    + unfold deleteSecret. cbn [snd].
      destruct (owned id_of_param secretId u t) as [[id' r']|] eqn:Ho; [|exact Hr].
      apply owned_Some in Ho as (_ & Hr' & Hu').
      cbn [rows]. rewrite lookup_delete_ne; [exact Hr|]. congruence.
  - repeat split.
    + unfold createSecret. destruct body as [body|]; [|reflexivity].
      now destruct (createSecretSchema body).
    + unfold updateSecret. destruct body as [body|]; [|reflexivity].
      now destruct (updateSecretSchema body).
Qed.

End Routes.
End SecretsFacts.

(** ** A secret on its way to the server and back *)

Section SavedSecret.

Context {P : Primitives} {L : PrimitivesLaws P}.

(** The wire value of a field of the form: what the routes make of it,
    and what [decryptObject] makes of what they store. *)
Lemma form_field_round_trip (key : CryptoKey) (s : jsstring) (x : jsvalue) :
  match s with
  | [] => x = VNull
  | _ => exists w e0, x = VString w /\ fst (fst (encryptData s key e0)) = Return w
  end ->
  Utf8.well_formed s = true -> starts_with_bom s = false ->
  Z.of_nat (length (TextEncoder_encode s)) <= 6116 ->
  nullableEncryptedField x = true
  /\ column (normalizeEncrypted x) = x
  /\ (s <> [] -> encryptedField x = true /\ VString (Secrets.text x) = x)
  /\ (forall fieldKey, endsWith fieldKey ENCRYPTED_SUFFIX = true ->
        ToString (nullish (written_value key (fieldKey, x)) (VString [])) = s).
Proof.
  intros Hx Hwf Hbom Hlen. destruct s as [|c s].
  - subst x. repeat split; try congruence.
    intros fieldKey Hs. unfold written_value. cbn [fst snd]. now rewrite Hs.
  - destruct Hx as (w & e0 & -> & Hw).
    destruct (encryptData_length (c :: s) key e0) as (w' & Hw' & Hwlen).
    rewrite Hw in Hw'. injection Hw' as <-.
    pose proof (encryptData_nonempty _ _ _ _ Hw) as Hne.
    assert (Hfits : encryptedField (VString w) = true)
      by now apply (encryptedField_length w _ Hwlen).
    destruct w as [|d w]; [congruence|].
    repeat split; try assumption.
    intros fieldKey Hs. unfold written_value. cbn [fst snd]. rewrite Hs.
    unfold decrypted_value.
    destruct (decrypt_encrypt_gen key (c :: s) e0) as (w' & Hw' & Hdec).
    rewrite <- encryptData_encrypt, Hw in Hw'. injection Hw' as <-.
    rewrite decryptData_decrypt, Hdec, TextDecoder_TextEncoder by assumption.
    reflexivity.
Qed.


Lemma form_entries_NoDup (data : SecretsPage.SecretFormData) :
  NoDup (map fst (SecretsPage.form_entries data)).
Proof. apply (bool_decide_unpack _). vm_compute. exact I. Qed.

Lemma listed_columns_NoDup (ir : Z * Secrets.SecretRow) :
  NoDup (Secrets.listed_columns ir).*1.
Proof. apply (bool_decide_unpack _). vm_compute. exact I. Qed.

(** X12. A saved secret is shown as it was entered. When the form's four
    fields are well-formed strings of at most 6116 bytes of UTF-8 that do
    not start with U+FEFF, name and value not empty, the payload of
    [onSubmit] passes [createSecret], which stores it under a fresh [id];
    [getSecrets] then lists a row for it from which [decryptSecrets], under
    the same key, shows the four fields as entered, with that [id] and the
    timestamp of the row. *)
Theorem saved_secret_is_shown
    (ordered : list (Z * Secrets.SecretRow) -> list (Z * Secrets.SecretRow))
    (data : SecretsPage.SecretFormData) (key : CryptoKey) (e : entropy)
    (u : Z) (timestamp : jsstring) (t : Secrets.Table) :
  (forall l, Permutation (ordered l) l) ->
  Forall (fun s => Utf8.well_formed s = true /\ starts_with_bom s = false
                   /\ Z.of_nat (length (TextEncoder_encode s)) <= 6116)
         [SecretsPage.form_secret_name data; SecretsPage.form_description data;
          SecretsPage.form_account_linked data; SecretsPage.form_value data] ->
  SecretsPage.form_secret_name data <> [] ->
  SecretsPage.form_value data <> [] ->
  let shown :=
    {| SecretsPage.id := VNumber (Secrets.next_id t);
       SecretsPage.secret_name := SecretsPage.form_secret_name data;
       SecretsPage.description := SecretsPage.form_description data;
       SecretsPage.account_linked := SecretsPage.form_account_linked data;
       SecretsPage.value := SecretsPage.form_value data;
       SecretsPage.date_modified := timestamp |} in
  exists payload e' t' secrets secret,
    SecretsPage.onSubmit data (Some key) e = (Some (Return payload), e')
    /\ Secrets.createSecret (Some u) (Some payload) timestamp t
       = (Secrets.Created (Secrets.next_id t), t')
    /\ Secrets.getSecrets ordered (Some u) t' = Secrets.Listed secrets
    /\ secret ∈ secrets
    /\ (forall m, decryptObject_settles secret key m ->
                  SecretsPage.decrypted_row (list_to_map secret) m = shown)
    /\ shown ∈ SecretsPage.decryptSecrets (Some key) secrets.
Proof.
  intros Hordered Hfields Hname Hvalue shown.
  apply Forall_cons in Hfields as [(Hwf1 & Hbom1 & Hlen1) Hfields].
  apply Forall_cons in Hfields as [(Hwf2 & Hbom2 & Hlen2) Hfields].
  apply Forall_cons in Hfields as [(Hwf3 & Hbom3 & Hlen3) Hfields].
  apply Forall_cons in Hfields as [(Hwf4 & Hbom4 & Hlen4) _].
  destruct (encryptObject_loop_wire key (SecretsPage.form_entries data)
              (form_entries_NoDup data) e ∅)
    as (payload & e' & calls & Hrun & _ & Hwire).
  (* the four members of the payload *)
  destruct (Hwire (js "secret_name") (VString (SecretsPage.form_secret_name data)))
    as (x1 & Hx1 & Hseal1); [unfold SecretsPage.form_entries; rewrite !elem_of_cons; auto
                            |discriminate|].
  destruct (Hwire (js "description") (VString (SecretsPage.form_description data)))
    as (x2 & Hx2 & Hseal2); [unfold SecretsPage.form_entries; rewrite !elem_of_cons; auto
                            |discriminate|].
  destruct (Hwire (js "account_linked") (VString (SecretsPage.form_account_linked data)))
    as (x3 & Hx3 & Hseal3); [unfold SecretsPage.form_entries; rewrite !elem_of_cons; auto
                            |discriminate|].
  destruct (Hwire (js "value") (VString (SecretsPage.form_value data)))
    as (x4 & Hx4 & Hseal4); [unfold SecretsPage.form_entries; rewrite !elem_of_cons; auto
                            |discriminate|].
  cbn [ToString] in Hseal1, Hseal2, Hseal3, Hseal4.
  destruct (form_field_round_trip key _ x1 Hseal1 Hwf1 Hbom1 Hlen1)
    as (_ & _ & Hreq1 & Hback1).
  destruct (form_field_round_trip key _ x2 Hseal2 Hwf2 Hbom2 Hlen2)
    as (Hok2 & Hcol2 & _ & Hback2).
  destruct (form_field_round_trip key _ x3 Hseal3 Hwf3 Hbom3 Hlen3)
    as (Hok3 & Hcol3 & _ & Hback3).
  destruct (form_field_round_trip key _ x4 Hseal4 Hwf4 Hbom4 Hlen4)
    as (_ & _ & Hreq4 & Hback4).
  destruct (Hreq1 Hname) as [Hok1 Htext1]. destruct (Hreq4 Hvalue) as [Hok4 Htext4].
  assert (Hm1 : member payload "secret_name_encrypted" = x1)
    by (unfold member; change (js "secret_name_encrypted")
          with (js "secret_name" ++ ENCRYPTED_SUFFIX); now rewrite Hx1).
  assert (Hm2 : member payload "description_encrypted" = x2)
    by (unfold member; change (js "description_encrypted")
          with (js "description" ++ ENCRYPTED_SUFFIX); now rewrite Hx2).
  assert (Hm3 : member payload "account_linked_encrypted" = x3)
    by (unfold member; change (js "account_linked_encrypted")
          with (js "account_linked" ++ ENCRYPTED_SUFFIX); now rewrite Hx3).
  assert (Hm4 : member payload "value_encrypted" = x4)
    by (unfold member; change (js "value_encrypted")
          with (js "value" ++ ENCRYPTED_SUFFIX); now rewrite Hx4).
  (* the row the server stores *)
  set (row := {| Secrets.user_id := u;
                 Secrets.secret_name_encrypted := Secrets.text x1;
                 Secrets.description_encrypted := normalizeEncrypted x2;
                 Secrets.account_linked_encrypted := normalizeEncrypted x3;
                 Secrets.value_encrypted := Secrets.text x4;
                 Secrets.date_modified := timestamp |}).
  set (t' := {| Secrets.rows := <[Secrets.next_id t := row]> (Secrets.rows t);
                Secrets.sequence := Secrets.next_id t |}).
  set (secret := Secrets.listed_columns (Secrets.next_id t, row)).
  assert (Hsecret : secret = [(js "id", VNumber (Secrets.next_id t));
                              (js "secret_name_encrypted", x1);
                              (js "description_encrypted", x2);
                              (js "account_linked_encrypted", x3);
                              (js "value_encrypted", x4);
                              (js "date_modified", VString timestamp)]).
  { unfold secret, Secrets.listed_columns, row. cbn [fst snd Secrets.secret_name_encrypted
      Secrets.description_encrypted Secrets.account_linked_encrypted
      Secrets.value_encrypted Secrets.date_modified].
    now rewrite Htext1, Htext4, Hcol2, Hcol3. }
  assert (Hshown : forall m, decryptObject_settles secret key m ->
                     SecretsPage.decrypted_row (list_to_map secret) m = shown).
  { intros m Hsettles.
    assert (Hin : forall entry, entry ∈ secret ->
              entry = (js "id", VNumber (Secrets.next_id t))
              \/ entry = (js "secret_name_encrypted", x1)
              \/ entry = (js "description_encrypted", x2)
              \/ entry = (js "account_linked_encrypted", x3)
              \/ entry = (js "value_encrypted", x4)
              \/ entry = (js "date_modified", VString timestamp)).
    { intros entry. rewrite Hsecret, !elem_of_cons, elem_of_nil. tauto. }
    assert (Hfield : forall name x,
               (name, x) ∈ secret -> forall k, target name = Some k ->
               (forall entry, entry ∈ secret -> target (fst entry) = Some k ->
                              entry = (name, x)) ->
               m !! k = Some (written_value key (name, x))).
    { intros name x Hx k Ht Hunique.
      assert (Hproto : k <> js "__proto__").
      { destruct (Hin _ Hx) as [Heq | [Heq | [Heq | [Heq | [Heq | Heq]]]]];
          injection Heq as -> _; vm_compute in Ht; injection Ht as <-;
          intros H; vm_compute in H; discriminate H. }
      rewrite (decryptObject_lookup key secret m (name, x) k Hsettles Hproto Hx Ht);
        [reflexivity|].
      intros entry' Hin' Ht'. now rewrite (Hunique entry' Hin' Ht'). }
    assert (Hlook : forall name x k,
               (name, x) ∈ secret -> target name = Some k ->
               (forall entry, entry ∈ secret -> target (fst entry) = Some k ->
                              fst entry = name) ->
               m !! k = Some (written_value key (name, x))).
    { intros name x k Hx Ht Hunique. apply Hfield; [exact Hx|exact Ht|].
      intros [name' x'] Hin' Ht'. specialize (Hunique _ Hin' Ht'). cbn in Hunique.
      subst name'. f_equal.
      apply (elem_of_list_to_map_1 (M := gmap jsstring)) in Hin', Hx;
        try apply listed_columns_NoDup.
      congruence. }
    unfold SecretsPage.decrypted_row, shown. f_equal.
    - unfold member.
      rewrite (Hlook (js "secret_name_encrypted") x1 (js "secret_name"));
        [now apply Hback1| |reflexivity|].
      + rewrite Hsecret, !elem_of_cons. repeat (first [left; reflexivity | right]).
      + intros entry Hentry Ht.
        destruct (Hin entry Hentry) as [-> | [-> | [-> | [-> | [-> | ->]]]]];
          try reflexivity; vm_compute in Ht; discriminate.
    - unfold member.
      rewrite (Hlook (js "description_encrypted") x2 (js "description"));
        [now apply Hback2| |reflexivity|].
      + rewrite Hsecret, !elem_of_cons. repeat (first [left; reflexivity | right]).
      + intros entry Hentry Ht.
        destruct (Hin entry Hentry) as [-> | [-> | [-> | [-> | [-> | ->]]]]];
          try reflexivity; vm_compute in Ht; discriminate.
    - unfold member.
      rewrite (Hlook (js "account_linked_encrypted") x3 (js "account_linked"));
        [now apply Hback3| |reflexivity|].
      + rewrite Hsecret, !elem_of_cons. repeat (first [left; reflexivity | right]).
      + intros entry Hentry Ht.
        destruct (Hin entry Hentry) as [-> | [-> | [-> | [-> | [-> | ->]]]]];
          try reflexivity; vm_compute in Ht; discriminate.
    - unfold member.
      rewrite (Hlook (js "value_encrypted") x4 (js "value"));
        [now apply Hback4| |reflexivity|].
      + rewrite Hsecret, !elem_of_cons. repeat (first [left; reflexivity | right]).
      + intros entry Hentry Ht.
        destruct (Hin entry Hentry) as [-> | [-> | [-> | [-> | [-> | ->]]]]];
          try reflexivity; vm_compute in Ht; discriminate.
    - unfold member.
      rewrite (Hlook (js "date_modified") (VString timestamp) (js "date_modified"));
        [reflexivity| |reflexivity|].
      + rewrite Hsecret, !elem_of_cons. repeat (first [left; reflexivity | right]).
      + intros entry Hentry Ht.
        destruct (Hin entry Hentry) as [-> | [-> | [-> | [-> | [-> | ->]]]]];
          try reflexivity; vm_compute in Ht; discriminate. }
  exists payload, e', t'.
  eexists (map Secrets.listed_columns
               (ordered (map_to_list
                           (filter (fun ir => Secrets.user_id (snd ir) = u)
                                   (Secrets.rows t'))))), secret.
  assert (Hlisted : secret ∈ map Secrets.listed_columns
                               (ordered (map_to_list
                                  (filter (fun ir => Secrets.user_id (snd ir) = u)
                                          (Secrets.rows t'))))).
  { apply (SecretsFacts.getSecrets_lists ordered Hordered).
    exists (Secrets.next_id t), row. split; [apply lookup_insert_eq|]. auto. }
  split; [|split; [|split; [reflexivity|split; [exact Hlisted|split; [exact Hshown|]]]]].
  - unfold SecretsPage.onSubmit. unfold encryptObject. now rewrite Hrun.
  - unfold Secrets.createSecret, Secrets.createSecretSchema.
    rewrite Hm1, Hm2, Hm3, Hm4, Hok1, Hok2, Hok3, Hok4. reflexivity.
  - unfold SecretsPage.decryptSecrets. apply list_elem_of_fmap.
    exists secret. split; [|exact Hlisted].
    symmetry. apply Hshown, decryptObject_does_settle.
Qed.

End SavedSecret.

(** ** The vault session, and what ends it *)

Lemma checkUnlockStatus_without_expiry (now now' : Z) (t : Tab) :
  unlockExpiry (vault t) = None ->
  fst (checkUnlockStatus now now' t) = false
  /\ unlockExpiry (vault (snd (checkUnlockStatus now now' t))) = None.
Proof.
  intros Hexp. unfold checkUnlockStatus, still_unlocked. rewrite Hexp.
  destruct (masterKey (vault t));
    destruct (retrieveVaultSession now' (storage t)) as [[key|] stored];
    cbn; auto.
Qed.

(** X13. After a reload of the page [checkUnlockStatus] never reports an
    unlocked vault: whatever [sessionStorage] holds, and however many
    calls are made at whatever times, each returns [false], and
    [unlockExpiry] stays [null]. *)
Theorem checkUnlockStatus_after_reload (times : list (Z * Z)) (t : Tab) :
  Forall (fun unlocked => unlocked = false)
         (fst (checkUnlockStatus_all times (reload t)))
  /\ unlockExpiry (vault (snd (checkUnlockStatus_all times (reload t)))) = None.
Proof.
  assert (H : forall t0, unlockExpiry (vault t0) = None ->
            Forall (fun unlocked => unlocked = false) (fst (checkUnlockStatus_all times t0))
            /\ unlockExpiry (vault (snd (checkUnlockStatus_all times t0))) = None).
  { induction times as [|[now now'] rest IH]; intros t0 Hexp.
    - split; [constructor|exact Hexp].
    - cbn [checkUnlockStatus_all].
      destruct (checkUnlockStatus_without_expiry now now' t0 Hexp) as [Hfalse Hexp'].
      destruct (checkUnlockStatus now now' t0) as [unlocked t1]. cbn [fst snd] in *.
      destruct (IH t1 Hexp') as [Hall Hlast].
      destruct (checkUnlockStatus_all rest t1) as [answers t2]. cbn [fst snd] in *.
      split; [constructor; assumption|exact Hlast]. }
  apply H. reflexivity.
Qed.

(** A session that was stored comes back until it expires. *)
Lemma retrieveVaultSession_storeVaultSession (key : CryptoKey) (duration now now' : Z)
    (stored : option StoredSession) :
  extractable key = true ->
  length (key_bytes key) = 16%nat \/ length (key_bytes key) = 24%nat
  \/ length (key_bytes key) = 32%nat ->
  retrieveVaultSession now' (storeVaultSession key duration now stored)
  = if now + duration <? now' then (None, None)
    else (Some {| key_bytes := key_bytes key; extractable := false |},
          storeVaultSession key duration now stored).
Proof.
  intros Hext Hlen. unfold storeVaultSession, subtle_exportKey. rewrite Hext.
  unfold retrieveVaultSession. cbn [stored_expiry stored_key].
  destruct (now + duration <? now'); [reflexivity|].
  rewrite map_byte_of_Z_of_byte. unfold subtle_importKey_aes.
  destruct Hlen as [-> | [-> | ->]]; reflexivity.
Qed.

(** X14. The vault session round trip. For a 256-bit key that can be
    exported, [retrieveVaultSession] returns the key [storeVaultSession]
    stored, as one that cannot be exported, as long as the expiry has not
    passed, and leaves the storage as it is; after the expiry it returns
    nothing and clears the storage. A key that came back cannot be stored
    again, and after [clearVaultSession] nothing comes back. *)
Theorem vault_session_round_trip (key : CryptoKey) (duration now now' : Z)
    (stored : option StoredSession) :
  extractable key = true ->
  length (key_bytes key) = 32%nat ->
  let kept := storeVaultSession key duration now stored in
  (now' <= now + duration ->
     retrieveVaultSession now' kept
     = (Some {| key_bytes := key_bytes key; extractable := false |}, kept))
  /\ (now + duration < now' ->
      retrieveVaultSession now' kept = (None, None))
  /\ (forall k, fst (retrieveVaultSession now' kept) = Some k ->
                subtle_exportKey k = Throw InvalidAccessError
                /\ storeVaultSession k duration now' kept = kept)
  /\ retrieveVaultSession now' (clearVaultSession kept) = (None, None).
Proof.
  intros Hext Hlen kept.
  pose proof (retrieveVaultSession_storeVaultSession key duration now now' stored Hext
                (or_intror (or_intror Hlen))) as Hback.
  fold kept in Hback. split; [|split; [|split]].
  - intros Hnow. rewrite Hback. destruct (Z.ltb_spec (now + duration) now'); [lia|].
    reflexivity.
  - intros Hnow. rewrite Hback. destruct (Z.ltb_spec (now + duration) now'); [|lia].
    reflexivity.
  - intros k. rewrite Hback. destruct (now + duration <? now'); [discriminate|].
    intros [= <-]. split; reflexivity.
  - reflexivity.
Qed.

Lemma checkUnlockStatus_locked (now now' : Z) (t : Tab) :
  masterKey (vault t) = None -> storage t = None ->
  checkUnlockStatus now now' t = (false, t).
Proof.
  intros Hkey Hst. unfold checkUnlockStatus, still_unlocked.
  rewrite Hkey, Hst. cbn. destruct t as [v s]. cbn in *. now subst s.
Qed.

(** X15. [handleLogout] locks the vault whether [api.logout()] is
    fulfilled or not: the authentication state is cleared, the vault is
    back in its initial state, [sessionStorage] is empty, and every later
    [checkUnlockStatus] returns [false] and changes nothing. *)
Theorem handleLogout_locks_the_vault (logout : bool) (a : AuthStore.AuthState)
    (t : Tab) (times : list (Z * Z)) :
  let '(fulfilled, a', t') := handleLogout logout a t in
  fulfilled = logout
  /\ a' = {| AuthStore.user := None; AuthStore.token := None;
             AuthStore.isAuthenticated := false |}
  /\ t' = {| vault := initial_vault; storage := None |}
  /\ checkUnlockStatus_all times t' = (map (fun _ => false) times, t').
Proof.
  unfold handleLogout. repeat split.
  set (t' := setUserSalt None (clearMasterKey t)).
  assert (Hkey : masterKey (vault t') = None) by reflexivity.
  assert (Hst : storage t' = None) by reflexivity.
  clearbody t'. induction times as [|[now now'] rest IH]; [reflexivity|].
  cbn [checkUnlockStatus_all map]. rewrite (checkUnlockStatus_locked now now' t' Hkey Hst).
  now rewrite IH.
Qed.

(** ** Unlocking *)

Lemma trimStart_nil (s : jsstring) :
  UnlockVaultModal.trimStart s = []
  <-> Forall (fun c => UnlockVaultModal.is_whitespace c = true) s.
Proof.
  induction s as [|c s IH]; cbn; [split; [constructor|reflexivity]|].
  destruct (UnlockVaultModal.is_whitespace c) eqn:Hc.
  - rewrite IH. split; [now constructor|]. intros H. now inversion H.
  - split; [discriminate|]. intros H. inversion H. congruence.
Qed.

Lemma trimStart_Forall (s : jsstring) :
  Forall (fun c => UnlockVaultModal.is_whitespace c = true) (UnlockVaultModal.trimStart s)
  -> Forall (fun c => UnlockVaultModal.is_whitespace c = true) s.
Proof.
  induction s as [|c s IH]; cbn; [auto|].
  destruct (UnlockVaultModal.is_whitespace c) eqn:Hc; [|auto].
  intros H. constructor; auto.
Qed.

Lemma trim_nil (s : jsstring) :
  UnlockVaultModal.trim s = []
  <-> Forall (fun c => UnlockVaultModal.is_whitespace c = true) s.
Proof.
  unfold UnlockVaultModal.trim. split.
  - intros H. apply (f_equal (@rev Z)) in H. rewrite rev_involutive in H. cbn in H.
    apply trimStart_nil, Forall_rev in H. rewrite rev_involutive in H.
    now apply trimStart_Forall.
  - intros H. apply trimStart_nil in H. rewrite H. reflexivity.
Qed.

Section Unlock.

Context {P : Primitives} {L : PrimitivesLaws P}.

(** X16. [handleSubmit] of the unlock dialog. A master password of
    whitespace only sets the error "Master password is required." and
    leaves the vault alone. Any other password unlocks the vault, with the
    key derived from it and the salt, for 15 minutes, clears the field and
    the error, and writes nothing to [sessionStorage]; no password is
    refused. What is encrypted under that key is decrypted by the key of
    any later unlock with the same password and salt. *)
Theorem handleSubmit_unlocks (st : UnlockVaultModal.State) (salt : jsstring)
    (now now' : Z) (t : Tab) :
  let key := {| key_bytes := pbkdf2_sha256
                               (TextEncoder_encode (UnlockVaultModal.masterPassword st))
                               (TextEncoder_encode salt) PBKDF2_ITERATIONS;
                extractable := false |} in
  let '(st', t') := UnlockVaultModal.handleSubmit st salt now now' t in
  (Forall (fun c => UnlockVaultModal.is_whitespace c = true)
          (UnlockVaultModal.masterPassword st) ->
     st' = {| UnlockVaultModal.masterPassword := UnlockVaultModal.masterPassword st;
              UnlockVaultModal.error := Some "Master password is required."%string;
              UnlockVaultModal.isSubmitting := UnlockVaultModal.isSubmitting st |}
     /\ t' = t)
  /\ (Exists (fun c => UnlockVaultModal.is_whitespace c = false)
             (UnlockVaultModal.masterPassword st) ->
      st' = {| UnlockVaultModal.masterPassword := [];
               UnlockVaultModal.error := None;
               UnlockVaultModal.isSubmitting := false |}
      /\ vault t' = {| masterKey := Some key;
                       userSalt := userSalt (vault t);
                       isUnlocked := true;
                       unlockExpiry := Some (now + 15 * 60 * 1000) |}
      /\ storage t' = storage t
      /\ forall (plaintext : jsstring) (e : entropy) st2 t2 now2 now2',
           Utf8.well_formed plaintext = true -> starts_with_bom plaintext = false ->
           UnlockVaultModal.masterPassword st2 = UnlockVaultModal.masterPassword st ->
           exists w key2,
             fst (fst (encryptData plaintext key e)) = Return w
             /\ masterKey (vault (snd (UnlockVaultModal.handleSubmit
                                         st2 salt now2 now2' t2))) = Some key2
             /\ fst (decryptData w key2) = Return plaintext).
Proof.
  intros key. unfold UnlockVaultModal.handleSubmit.
  destruct (UnlockVaultModal.trim (UnlockVaultModal.masterPassword st))
    as [|c r] eqn:Htrim.
  - split; [auto|]. intros Hex. apply trim_nil in Htrim.
    apply Exists_exists in Hex as (x & Hin & Hx).
    rewrite Forall_forall in Htrim. specialize (Htrim x Hin). congruence.
  - split.
    { intros Hall. apply trim_nil in Hall. congruence. }
    intros _. fold key.
    repeat split.
    intros plaintext e st2 t2 now2 now2' Hwf Hbom Hsame.
    destruct (decrypt_encrypt_gen key plaintext e) as (w & Hw & Hdec).
    exists w, key. split; [now rewrite encryptData_encrypt|]. split.
    + rewrite Hsame, Htrim. reflexivity.
    + now rewrite decryptData_decrypt, Hdec, TextDecoder_TextEncoder.
Qed.

End Unlock.

(** ** The countdown *)

(** X17. The countdown of [updateCode]. At a time [now >= 0] the seconds
    shown lie between 1 and 30; one second less than that many seconds
    later the 30-second period of the code is still the same, that many
    seconds later it is the next one; and a second later the display shows
    one less, or 30 after 1. *)
Theorem timeLeft_counts_down (now : Z) :
  0 <= now ->
  1 <= TOTPDisplay.timeLeft now <= 30
  /\ (now + 1000 * (TOTPDisplay.timeLeft now - 1)) / 30000 = now / 30000
  /\ (now + 1000 * TOTPDisplay.timeLeft now) / 30000 = now / 30000 + 1
  /\ TOTPDisplay.timeLeft (now + 1000)
     = (if TOTPDisplay.timeLeft now =? 1 then 30 else TOTPDisplay.timeLeft now - 1).
Proof.
  intros Hnow. unfold TOTPDisplay.timeLeft, TOTPDisplay.ceil_div.
  rewrite !Z.rem_mod_nonneg by lia.
  assert (Hstep : forall x, 0 <= x ->
            exists q r, x = 30000 * q + r /\ 0 <= r < 30000
                        /\ x / 30000 = q /\ x mod 30000 = r).
  { intros x Hx. exists (x / 30000), (x mod 30000).
    pose proof (Z.div_mod x 30000 ltac:(lia)).
    pose proof (Z.mod_pos_bound x 30000 ltac:(lia)). auto. }
  destruct (Hstep now Hnow) as (q & r & Hqr & Hr & Hdiv & Hmod).
  rewrite Hmod, Hdiv.
  set (l := - (- (30000 - r) / 1000)).
  assert (Hl : 1000 * (l - 1) < 30000 - r <= 1000 * l).
  { subst l. pose proof (Z.div_mod (- (30000 - r)) 1000 ltac:(lia)).
    pose proof (Z.mod_pos_bound (- (30000 - r)) 1000 ltac:(lia)). lia. }
  split; [lia|]. split; [|split].
  - symmetry. apply Z.div_unique with (r := r + 1000 * (l - 1)); lia.
  - symmetry. apply Z.div_unique with (r := r + 1000 * l - 30000); lia.
  - destruct (Hstep (now + 1000) ltac:(lia)) as (q' & r' & Hqr' & Hr' & _ & Hmod').
    rewrite Hmod'.
    set (l' := - (- (30000 - r') / 1000)).
    assert (Hl' : 1000 * (l' - 1) < 30000 - r' <= 1000 * l').
    { subst l'. pose proof (Z.div_mod (- (30000 - r')) 1000 ltac:(lia)).
      pose proof (Z.mod_pos_bound (- (30000 - r')) 1000 ltac:(lia)). lia. }
    destruct (Z.eqb_spec l 1) as [Hone | Hmore].
    + assert (q' = q + 1) by lia. lia.
    + assert (q' = q) by lia. lia.
Qed.

(** ** The administrator's routes *)

Lemma strip_slash_cases (s : jsstring) :
  (s = Admin.strip_slash s ++ js "/")
  \/ (Admin.strip_slash s = s /\ endsWith s (js "/") = false).
Proof.
  unfold Admin.strip_slash, endsWith. change (js "/") with [47].
  destruct (rev s) as [|c r] eqn:Hrev.
  - right. split; reflexivity.
  - destruct (Z.eqb_spec c 47) as [-> | Hc].
    + left. rewrite <- (rev_involutive s), Hrev. reflexivity.
    + right. split; [reflexivity|]. cbn [rev app startsWith].
      destruct (Z.eqb_spec 47 c); [congruence|reflexivity].
Qed.

(** X18. [resolveBaseUrl] returns [APP_BASE_URL] if that is set and not
    empty, else the request's origin if that is there and not empty, in
    either case without one trailing slash, and [null] only when neither
    is there. *)
Theorem resolveBaseUrl_cases (env : Env) (requestOrigin : option jsstring) :
  match Admin.resolveBaseUrl env requestOrigin with
  | None =>
      (APP_BASE_URL env = None \/ APP_BASE_URL env = Some [])
      /\ (requestOrigin = None \/ requestOrigin = Some [])
  | Some url =>
      exists source,
        source <> []
        /\ (APP_BASE_URL env = Some source
            \/ ((APP_BASE_URL env = None \/ APP_BASE_URL env = Some [])
                /\ requestOrigin = Some source))
        /\ (source = url ++ js "/"
            \/ (source = url /\ endsWith source (js "/") = false))
  end.
Proof.
  unfold Admin.resolveBaseUrl.
  destruct (APP_BASE_URL env) as [[|c u]|] eqn:Hbase; cbn [Email.truthy_string].
  - destruct requestOrigin as [[|d o]|]; cbn [Email.truthy_string]; auto.
    exists (d :: o). split; [discriminate|]. split; [auto|].
    destruct (strip_slash_cases (d :: o)) as [H | [H1 H2]]; [now left|right].
    now rewrite H1.
  - exists (c :: u). split; [discriminate|]. split; [auto|].
    destruct (strip_slash_cases (c :: u)) as [H | [H1 H2]]; [now left|right].
    now rewrite H1.
  - destruct requestOrigin as [[|d o]|]; cbn [Email.truthy_string]; auto.
    exists (d :: o). split; [discriminate|]. split; [auto|].
    destruct (strip_slash_cases (d :: o)) as [H | [H1 H2]]; [now left|right].
    now rewrite H1.
Qed.

Section AdminFacts.

Context {P : Primitives} {L : PrimitivesLaws P}.

(** [verifyPassword] accepts the password for the hash string made from it. *)
Lemma verifyPassword_hash_of (password : jsstring) (e : entropy) :
  verifyPassword password (hash_of password e) = Return true.
Proof.
  unfold hash_of. rewrite hashPassword_returns.
  set (salt := fst (getRandomValues SALT_BYTES e)).
  set (hashBytes := pbkdf2_sha256 (TextEncoder_encode password) salt
                                  PBKDF2_ITERATIONS_DEFAULT).
  assert (Hback : forall bs, fromBase64 (Base64.encode (map Z_of_byte bs)) = Return bs).
  { intros bs. unfold fromBase64, atob.
    rewrite Base64Facts.decode_encode by apply Forall_octet.
    cbn [cbind]. now rewrite map_byte_of_Z_of_byte. }
  destruct (match_pbkdf2_format (Base64.encode (map Z_of_byte salt))
              (Base64.encode (map Z_of_byte hashBytes))) as [Hprefix Hmatch].
  - apply encode_not_dollar, Forall_octet.
  - apply encode_nonempty. intros Hnil. apply (f_equal length) in Hnil.
    rewrite length_map in Hnil. unfold salt in Hnil.
    rewrite length_getRandomValues in Hnil. discriminate.
  - apply encode_not_dollar, Forall_octet.
  - apply encode_nonempty. intros Hnil. apply (f_equal length) in Hnil.
    rewrite length_map in Hnil. unfold hashBytes in Hnil.
    rewrite pbkdf2_sha256_length in Hnil. discriminate.
  - unfold verifyPassword. rewrite Hprefix, Hmatch. cbn [negb].
    rewrite !Hback. cbn [cbind].
    change (Number_of_digits (js "100")) with PBKDF2_ITERATIONS_DEFAULT.
    unfold subtle_deriveBits.
    change (PBKDF2_ITERATIONS_DEFAULT <? 0) with false.
    change (4294967295 <? PBKDF2_ITERATIONS_DEFAULT) with false.
    change (PBKDF2_ITERATIONS_DEFAULT =? 0) with false. cbn [orb cbind].
    fold hashBytes. now rewrite timingSafeEqual_refl.
Qed.

(** X19. [forceResetPassword], for a user id that is a number and a
    password of at least 12 code units, answers 200; after it
    [verifyPassword] accepts the new password for the hash stored for that
    user, if the user exists, no other user's hash has changed, the
    sessions and the reset tokens of that user are gone and those of other
    users are kept, and a reset token the user held is answered "Invalid or
    expired token". *)
Theorem forceResetPassword_effects (uid : Z) (newPassword : jsstring)
    (db : Database) (e : entropy) :
  (12 <= length newPassword)%nat ->
  exists db',
    Admin.forceResetPassword (Some uid) newPassword db e
    = ({| status := 200; body := "Password reset successfully" |}, db',
       snd (hashPassword newPassword e))
    /\ (forall h0, users db !! uid = Some h0 ->
          exists h, users db' !! uid = Some h
                    /\ verifyPassword newPassword h = Return true)
    /\ (users db !! uid = None -> users db' = users db)
    /\ (forall id, id <> uid -> users db' !! id = users db !! id)
    /\ (forall s owner, sessions db' !! s = Some owner
                        <-> sessions db !! s = Some owner /\ owner <> uid)
    /\ (forall h row, password_reset_tokens db' !! h = Some row
                      <-> password_reset_tokens db !! h = Some row
                          /\ row_user_id row <> uid)
    /\ (forall now token pw row e2,
          password_reset_tokens db !! hashToken token = Some row ->
          row_user_id row = uid ->
          (10 <= length token)%nat -> (12 <= length pw)%nat ->
          resetPassword now token pw db' e2
          = (Responded {| status := 400; body := "Invalid or expired token" |}, db', e2)).
Proof.
  intros Hlen. unfold Admin.forceResetPassword.
  destruct (Nat.ltb_spec (length newPassword) 12) as [Hshort | _]; [lia|].
  rewrite hashPassword_total. eexists. split; [reflexivity|].
  cbn [users sessions password_reset_tokens].
  assert (Htokens : forall h row,
             filter (fun r => row_user_id (snd r) <> uid) (password_reset_tokens db) !! h
             = Some row
             <-> password_reset_tokens db !! h = Some row /\ row_user_id row <> uid)
    by (intros h row; apply map_lookup_filter_Some).
  split; [|split; [|split; [|split; [|split; [exact Htokens|]]]]].
  - intros h0 Hh0. exists (hash_of newPassword e). split.
    + now rewrite lookup_alter_eq, Hh0.
    + apply verifyPassword_hash_of.
  - intros Hnone. apply map_eq. intros id.
    destruct (decide (id = uid)) as [-> | Hne].
    + now rewrite lookup_alter_eq, Hnone.
    + now rewrite lookup_alter_ne by congruence.
  - intros id Hne. now rewrite lookup_alter_ne by congruence.
  - intros s owner. apply map_lookup_filter_Some.
  - intros now token pw row e2 Hrow Huid Htoken Hpw.
    unfold resetPassword, resetPassword_step.
    destruct (Nat.ltb_spec (length token) 10); [lia|].
    destruct (Nat.ltb_spec (length pw) 12); [lia|]. cbn [orb].
    cbn [password_reset_tokens].
    replace (filter _ (password_reset_tokens db) !! hashToken token)
      with (@None TokenRow); [reflexivity|].
    symmetry. apply eq_None_not_Some. intros [row' Hrow'].
    apply Htokens in Hrow' as [Hrow' Hne]. congruence.
Qed.


Lemma generateToken_length (len : nat) (e : entropy) :
  length (fst (generateToken len e)) = (2 * len)%nat.
Proof.
  unfold generateToken, getRandomValues. cbn [fst].
  now rewrite hex_bytes_length, length_map, length_seq.
Qed.

(** What [sendResetLink] leaves in [password_reset_tokens] once its batch
    has run. *)
Lemma reset_row_replaces (uid : Z) (hash : jsstring) (expires : Z)
    (tokens : gmap jsstring TokenRow) (h : jsstring) (row : TokenRow) :
  <[hash := {| row_user_id := uid; row_expires_at := Some expires; row_used := 0 |}]>
    (filter (fun r => row_user_id (snd r) <> uid) tokens) !! h = Some row ->
  row_user_id row = uid -> h = hash.
Proof.
  intros Hrow Huid. destruct (decide (h = hash)) as [|Hne]; [assumption|].
  rewrite lookup_insert_ne in Hrow by congruence.
  apply map_lookup_filter_Some in Hrow as [_ Hother]. cbn in Hother. congruence.
Qed.

(** X20. The reset link redeems. When the user exists, [SMTP_FROM] and a
    base URL are there, the mail service accepts the request and the hash
    of the new token is not held by another user, [sendResetLink] answers
    200 after one request to the mail service, addressed to the user, whose
    two bodies hold the link with the token of [generateToken(48)], 96
    code units long; that
    token is then the only one of the user, and within the hour
    [resetPassword] redeems it: the new password verifies, the user has no
    session left, and the token is refused a second time. *)
Theorem reset_link_redeems (fetch : Email.Payload -> option bool) (env : Env)
    (uid : Z) (origin referer : option jsstring) (now now' : Z)
    (contacts : gmap Z Admin.Contact) (db : Database) (e : entropy)
    (user : Admin.Contact) (from baseUrl newPassword : jsstring) :
  contacts !! uid = Some user ->
  Email.truthy_string (SMTP_FROM env) = Some from ->
  Email.truthy_string
    (Admin.resolveBaseUrl env (match origin with Some _ => origin | None => referer end))
  = Some baseUrl ->
  (forall payload, fetch payload = Some true) ->
  (forall row, password_reset_tokens db !! hashToken (fst (generateToken 48 e)) = Some row ->
               row_user_id row = uid) ->
  now' <= now + 60 * 60 * 1000 ->
  (12 <= length newPassword)%nat ->
  let resetToken := fst (generateToken 48 e) in
  let link := Admin.resetLink baseUrl resetToken in
  exists db1 e1 db2 e2,
    Admin.sendResetLink fetch env (Some uid) origin referer now contacts db e
    = ({| status := 200; body := "Reset link sent successfully." |}, db1, e1,
       [{| Email.personalizations_to := Admin.email user;
           Email.from_email := from;
           Email.payload_subject := js "AccManager Password Reset";
           Email.content :=
             [{| Email.part_type := "text/plain";
                 Email.part_value := Admin.textBody user link |};
              {| Email.part_type := "text/html";
                 Email.part_value := Admin.htmlBody user link |}];
           Email.reply_to := None |}])
    /\ length resetToken = 96%nat
    /\ (forall h row, password_reset_tokens db1 !! h = Some row ->
                      row_user_id row = uid -> h = hashToken resetToken)
    /\ resetPassword now' resetToken newPassword db1 e1
       = (Responded {| status := 200; body := "Password reset successfully." |}, db2, e2)
    /\ (forall h0, users db !! uid = Some h0 ->
          exists h, users db2 !! uid = Some h
                    /\ verifyPassword newPassword h = Return true)
    /\ (forall s, sessions db2 !! s <> Some uid)
    /\ (forall pw2, (12 <= length pw2)%nat ->
          resetPassword now' resetToken pw2 db2 e2
          = (Responded {| status := 400; body := "Token already used" |}, db2, e2)).
Proof.
  intros Huser Hfrom Hbase Hfetch Hfree Hnow Hpw resetToken link.
  pose proof (generateToken_length 48 e) as Hlen. fold resetToken in Hlen.
  set (newrow := {| row_user_id := uid;
                    row_expires_at := Some (now + 60 * 60 * 1000);
                    row_used := 0 |}).
  set (others := filter (fun r => row_user_id (snd r) <> uid) (password_reset_tokens db)).
  set (db1 := {| users := users db; sessions := sessions db;
                 password_reset_tokens := <[hashToken resetToken := newrow]> others |}).
  assert (Hothers : others !! hashToken resetToken = None).
  { apply eq_None_not_Some. intros [row Hrow].
    apply map_lookup_filter_Some in Hrow as [Hrow Hne]. cbn in Hne.
    apply Hne. now apply Hfree. }
  destruct (resetPassword_twice_in_sequence now' resetToken db1 newrow
              (now + 60 * 60 * 1000)) with (pw1 := newPassword) (pw2 := newPassword)
                                           (e := snd (generateToken 48 e))
    as (Hfirst & Husers & Hsessions & _); try assumption; try reflexivity;
    try (rewrite Hlen; lia); try apply lookup_insert_eq.
  exists db1, (snd (generateToken 48 e)).
  eexists _, _. split; [|split; [exact Hlen|split; [|split; [exact Hfirst|split; [|split]]]]].
  - unfold Admin.sendResetLink. rewrite Huser.
    destruct (generateToken 48 e) as [tok e'] eqn:Hgen.
    unfold resetToken in *. cbn [fst snd] in *.
    fold others. rewrite Hothers, Hbase.
    unfold Email.sendEmail. rewrite Hfrom, Hfetch. reflexivity.
  - intros h row. cbn [password_reset_tokens db1]. apply reset_row_replaces.
  - intros h0 Hh0. exists (hash_of newPassword (snd (generateToken 48 e))).
    split; [apply (Husers h0 Hh0)|apply verifyPassword_hash_of].
  - exact Hsessions.
  - intros pw2 Hpw2.
    destruct (resetPassword_twice_in_sequence now' resetToken db1 newrow
                (now + 60 * 60 * 1000)) with (pw1 := newPassword) (pw2 := pw2)
                                             (e := snd (generateToken 48 e))
      as (_ & _ & _ & Hsecond); try assumption; try reflexivity;
      try (rewrite Hlen; lia); try apply lookup_insert_eq.
Qed.

(** X21. [sendResetLink] stores the token before it sends the mail. For
    an existing user it answers 200 or 500, and 200 exactly when it made
    one request to the mail service and that was accepted; without
    [SMTP_FROM] it makes no request; users and sessions are as they were.
    When the hash of the new token is that of a token of another user, it
    answers 500, makes no request and leaves the database as it was. In
    every other case, also when the mail was not sent, the user's earlier
    tokens are replaced by the new one, valid for an hour. *)
Theorem sendResetLink_stores_before_it_sends
    (fetch : Email.Payload -> option bool) (env : Env)
    (uid : Z) (origin referer : option jsstring) (now : Z)
    (contacts : gmap Z Admin.Contact) (db : Database) (e : entropy)
    (user : Admin.Contact) :
  contacts !! uid = Some user ->
  let '(r, db1, e1, requests) :=
    Admin.sendResetLink fetch env (Some uid) origin referer now contacts db e in
  (status r = 200 \/ status r = 500)
  /\ (status r = 200 <->
      exists payload, requests = [payload] /\ fetch payload = Some true)
  /\ (SMTP_FROM env = None \/ SMTP_FROM env = Some [] -> status r = 500 /\ requests = [])
  /\ users db1 = users db /\ sessions db1 = sessions db
  /\ ((exists row, password_reset_tokens db !! hashToken (fst (generateToken 48 e))
                   = Some row
                   /\ row_user_id row <> uid) ->
      status r = 500 /\ requests = [] /\ db1 = db)
  /\ ((forall row, password_reset_tokens db !! hashToken (fst (generateToken 48 e))
                   = Some row ->
                   row_user_id row = uid) ->
      password_reset_tokens db1 !! hashToken (fst (generateToken 48 e))
      = Some {| row_user_id := uid;
                row_expires_at := Some (now + 60 * 60 * 1000);
                row_used := 0 |}
      /\ (forall h row, password_reset_tokens db1 !! h = Some row ->
                        row_user_id row = uid ->
                        h = hashToken (fst (generateToken 48 e)))).
Proof.
  intros Huser.
  set (others := filter (fun r => row_user_id (snd r) <> uid) (password_reset_tokens db)).
  unfold Admin.sendResetLink. rewrite Huser.
  destruct (generateToken 48 e) as [tok e'] eqn:Hgen. cbn [fst] in *.
  fold others.
  destruct (others !! hashToken tok) as [taken|] eqn:Hothers.
  - (* the hash is that of a token of another user *)
    apply map_lookup_filter_Some in Hothers as [Htaken Hne]. cbn in Hne.
    cbn [status].
    split; [now right|]. split; [|split; [auto|split; [reflexivity|split;
      [reflexivity|split; [auto|]]]]].
    + split; [discriminate|]. intros (payload & [=] & _).
    + intros Hfree. now apply Hfree in Htaken.
  - assert (Hfree : (exists row, password_reset_tokens db !! hashToken tok = Some row
                                 /\ row_user_id row <> uid) -> False).
    { intros (row & Hrow & Hne).
      assert (Hin : others !! hashToken tok = Some row)
        by (apply map_lookup_filter_Some; auto).
      congruence. }
    destruct (Email.truthy_string (Admin.resolveBaseUrl env _)) as [baseUrl|].
    + unfold Email.sendEmail.
      destruct (SMTP_FROM env) as [[|c from]|] eqn:Hfrom; cbn [Email.truthy_string].
      * cbn [status password_reset_tokens users sessions].
        split; [now right|]. split; [|split; [auto|split; [reflexivity|split;
          [reflexivity|split; [intros H; now apply Hfree in H|]]]]].
        -- split; [discriminate|]. intros (payload & [=] & _).
        -- intros _. split; [apply lookup_insert_eq | apply reset_row_replaces].
      * destruct (fetch _) as [[|]|] eqn:Hf;
          cbn [status password_reset_tokens users sessions];
          (split; [auto|split; [|split; [|split; [reflexivity|split;
             [reflexivity|split; [intros H; now apply Hfree in H|]]]]]]);
          try (intros [? | ?]; discriminate);
          try (intros _; split; [apply lookup_insert_eq | apply reset_row_replaces]).
        -- split; [intros _; eexists; split; [reflexivity|exact Hf]|reflexivity].
        -- split; [discriminate|]. intros (payload & [= <-] & Hok). congruence.
        -- split; [discriminate|]. intros (payload & [= <-] & Hok). congruence.
      * cbn [status password_reset_tokens users sessions].
        split; [now right|]. split; [|split; [auto|split; [reflexivity|split;
          [reflexivity|split; [intros H; now apply Hfree in H|]]]]].
        -- split; [discriminate|]. intros (payload & [=] & _).
        -- intros _. split; [apply lookup_insert_eq | apply reset_row_replaces].
    + cbn [status password_reset_tokens users sessions].
      split; [now right|]. split; [|split; [auto|split; [reflexivity|split;
        [reflexivity|split; [intros H; now apply Hfree in H|]]]]].
      * split; [discriminate|]. intros (payload & [=] & _).
      * intros _. split; [apply lookup_insert_eq | apply reset_row_replaces].
Qed.

End AdminFacts.

(** ** Sessions *)

Lemma startsWith_Some (s p : jsstring) :
  startsWith s p = true -> s = p ++ skipn (length p) s.
Proof.
  revert s. induction p as [|a p IH]; intros s; [reflexivity|].
  destruct s as [|b s]; [discriminate|]. cbn [startsWith].
  intros H. apply andb_true_iff in H as [Hab H]. apply Z.eqb_eq in Hab. subst b.
  cbn [length skipn app]. f_equal. now apply IH.
Qed.

Lemma bearer_Some (authHeader : option jsstring) (token : jsstring) :
  Auth.bearer authHeader = Some token <-> authHeader = Some (js "Bearer " ++ token).
Proof.
  unfold Auth.bearer. split.
  - destruct authHeader as [h|]; [|discriminate].
    destruct (startsWith h (js "Bearer ")) eqn:Hh; [|discriminate].
    intros [= <-]. f_equal. now apply startsWith_Some in Hh.
  - intros ->. now rewrite startsWith_app.
Qed.

Lemma by_username_Some (name : jsstring) (us : gmap Z Auth.UserRow) (id : Z)
    (user : Auth.UserRow) :
  Auth.by_username name us = Some (id, user) ->
  us !! id = Some user /\ Auth.username user = name.
Proof.
  unfold Auth.by_username. intros H.
  apply head_Some_elem_of, elem_of_map_to_list, map_lookup_filter_Some in H.
  exact H.
Qed.

(** What [isAuthenticated] lets through. *)
Lemma isAuthenticated_Next (authHeader : option jsstring) (now : Z) (t : Auth.Tables)
    (v : Auth.Variables) (t' : Auth.Tables) :
  Auth.isAuthenticated authHeader now t = (Auth.Next v, t')
  <-> t' = t
      /\ exists token session user,
           authHeader = Some (js "Bearer " ++ token)
           /\ Auth.sessions t !! token = Some session
           /\ Auth.users t !! Auth.user_id session = Some user
           /\ (forall expiresAt, Auth.expires_at session = Some expiresAt ->
                                 now <= expiresAt)
           /\ v = {| Auth.userId := Auth.user_id session;
                     Auth.ctx_username := Auth.username user;
                     Auth.ctx_email := Auth.email user;
                     Auth.ctx_role := Auth.role user |}.
Proof.
  unfold Auth.isAuthenticated. split.
  - destruct (Auth.bearer authHeader) as [token|] eqn:Hb; [|discriminate].
    apply bearer_Some in Hb.
    destruct (Auth.sessions t !! token) as [session|] eqn:Hs; [|discriminate].
    destruct (Auth.users t !! Auth.user_id session) as [user|] eqn:Hu; [|discriminate].
    destruct (Auth.expires_at session) as [x|] eqn:Hx.
    + destruct (Z.ltb_spec x now); [discriminate|].
      intros [= <- <-]. split; [reflexivity|].
      exists token, session, user. repeat split; try assumption.
      intros y Hy. rewrite Hx in Hy. injection Hy as <-. lia.
    + intros [= <- <-]. split; [reflexivity|].
      exists token, session, user. repeat split; try assumption.
      intros y Hy. congruence.
  - intros (-> & token & session & user & -> & Hs & Hu & Hx & ->).
    replace (Auth.bearer (Some (js "Bearer " ++ token))) with (Some token)
      by (symmetry; now apply bearer_Some).
    rewrite Hs, Hu.
    destruct (Auth.expires_at session) as [x|]; [|reflexivity].
    specialize (Hx x eq_refl). destruct (Z.ltb_spec x now); [lia|reflexivity].
Qed.

(** X22. A route of the administrator is reached by exactly the requests
    whose [Authorization] header is ["Bearer "] followed by the token of a
    session that has not expired, of a user whose role is ["admin"]; the
    tables are then unchanged and the context holds that user. *)
Theorem admin_route_passes_only_administrators (authHeader : option jsstring)
    (now : Z) (t : Auth.Tables) (v : Auth.Variables) (t' : Auth.Tables) :
  Auth.admin_route authHeader now t = (Auth.Next v, t')
  <-> t' = t
      /\ exists token session user,
           authHeader = Some (js "Bearer " ++ token)
           /\ Auth.sessions t !! token = Some session
           /\ Auth.users t !! Auth.user_id session = Some user
           /\ Auth.role user = js "admin"
           /\ (forall expiresAt, Auth.expires_at session = Some expiresAt ->
                                 now <= expiresAt)
           /\ v = {| Auth.userId := Auth.user_id session;
                     Auth.ctx_username := Auth.username user;
                     Auth.ctx_email := Auth.email user;
                     Auth.ctx_role := js "admin" |}.
Proof.
  unfold Auth.admin_route. split.
  - destruct (Auth.isAuthenticated authHeader now t) as [[r | v0] t0] eqn:Hauth;
      [discriminate|].
    apply isAuthenticated_Next in Hauth
      as (-> & token & session & user & -> & Hs & Hu & Hx & ->).
    unfold Auth.isAdmin. cbn [Auth.ctx_role].
    destruct (bool_decide_reflect (Auth.role user = js "admin")) as [Hrole | Hrole];
      [|discriminate].
    intros [= <- <-]. split; [reflexivity|].
    exists token, session, user. rewrite Hrole. repeat split; assumption.
  - intros (-> & token & session & user & -> & Hs & Hu & Hrole & Hx & ->).
    assert (Hauth : Auth.isAuthenticated (Some (js "Bearer " ++ token)) now t
                    = (Auth.Next {| Auth.userId := Auth.user_id session;
                                    Auth.ctx_username := Auth.username user;
                                    Auth.ctx_email := Auth.email user;
                                    Auth.ctx_role := Auth.role user |}, t)).
    { apply isAuthenticated_Next. split; [reflexivity|].
      exists token, session, user. auto. }
    rewrite Hauth. unfold Auth.isAdmin. cbn [Auth.ctx_role]. rewrite Hrole.
    reflexivity.
Qed.

Section Sessions.

Context {P : Primitives}.

(** X23. [login] opens a session. When it succeeds, the user of that
    name exists and [verifyPassword] accepted the password; the token is
    that of [generateToken(32)], 64 code units long, and was not a session
    before; with it
    [isAuthenticated] passes the request on, as that user, for seven days,
    and after that answers "Session expired" and deletes the session; and
    [logout] with it, or the expiry, leaves the tables as they were before
    the login, where the token is answered "Invalid or expired session". *)
Theorem login_opens_a_session (name password : jsstring) (now : Z)
    (t : Auth.Tables) (e : entropy) (token : jsstring) (id : Z)
    (name' email' role' : jsstring) (t' : Auth.Tables) (e' : entropy) :
  Auth.login name password now t e = (Auth.LoggedIn token id name' email' role', t', e') ->
  let header := Some (js "Bearer " ++ token) in
  let v := {| Auth.userId := id; Auth.ctx_username := name';
              Auth.ctx_email := email'; Auth.ctx_role := role' |} in
  (exists user,
      Auth.users t !! id = Some user
      /\ Auth.username user = name /\ name' = name
      /\ email' = Auth.email user /\ role' = Auth.role user
      /\ verifyPassword password (Auth.password_hash user) = Return true)
  /\ token = fst (generateToken 32 e) /\ length token = 64%nat
  /\ Auth.sessions t !! token = None
  /\ (forall now', now' <= now + 7 * 24 * 60 * 60 * 1000 ->
        Auth.isAuthenticated header now' t' = (Auth.Next v, t'))
  /\ (forall now', now + 7 * 24 * 60 * 60 * 1000 < now' ->
        Auth.isAuthenticated header now' t'
        = (Auth.Answer {| status := 401; body := "Session expired" |}, t))
  /\ Auth.logout header t'
     = ({| status := 200; body := "Logged out successfully" |}, t)
  /\ (forall now',
        Auth.isAuthenticated header now' t
        = (Auth.Answer {| status := 401; body := "Invalid or expired session" |}, t)).
Proof.
  unfold Auth.login.
  destruct (Auth.by_username name (Auth.users t)) as [[id0 user]|] eqn:Hfind;
    [|discriminate].
  apply by_username_Some in Hfind as [Huser Hname].
  destruct (verifyPassword password (Auth.password_hash user)) as [[|]|] eqn:Hverify;
    try discriminate.
  pose proof (generateToken_length 32 e) as Hlen.
  destruct (generateToken 32 e) as [tok e1] eqn:Hgen. cbn [fst] in Hlen.
  destruct (Auth.sessions t !! tok) eqn:Hfresh; [discriminate|].
  intros H. injection H as <- <- <- <- <- <- <-.
  set (header := Some (js "Bearer " ++ tok)).
  assert (Hbearer : Auth.bearer header = Some tok) by now apply bearer_Some.
  assert (Hback : {| Auth.users := Auth.users t;
                     Auth.sessions :=
                       delete tok (<[tok := {| Auth.user_id := id0;
                                               Auth.expires_at :=
                                                 Some (now + Auth.SESSION_MS) |}]>
                                     (Auth.sessions t)) |} = t).
  { rewrite delete_insert_id by exact Hfresh. now destruct t. }
  split; [exists user; auto 10|].
  split; [reflexivity|]. split; [exact Hlen|]. split; [exact Hfresh|].
  split; [|split; [|split]].
  - intros now' Hnow. unfold Auth.isAuthenticated. rewrite Hbearer.
    cbn [Auth.sessions Auth.users]. rewrite lookup_insert_eq.
    cbn [Auth.user_id Auth.expires_at]. rewrite Huser.
    unfold Auth.SESSION_MS. destruct (Z.ltb_spec (now + 7 * 24 * 60 * 60 * 1000) now');
      [lia|reflexivity].
  - intros now' Hnow. unfold Auth.isAuthenticated. rewrite Hbearer.
    cbn [Auth.sessions Auth.users]. rewrite lookup_insert_eq.
    cbn [Auth.user_id Auth.expires_at]. rewrite Huser.
    unfold Auth.SESSION_MS in *.
    destruct (Z.ltb_spec (now + 7 * 24 * 60 * 60 * 1000) now'); [|lia].
    now rewrite Hback.
  - unfold Auth.logout. rewrite Hbearer. cbn [Auth.sessions Auth.users].
    now rewrite Hback.
  - intros now'. unfold Auth.isAuthenticated. now rewrite Hbearer, Hfresh.
Qed.

End Sessions.

Section MoreExamples.

#[local] Existing Instance Reference.primitives.

Lemma generateToken_hex_witness :
  let token := fst (generateToken 32 Reference.tape) in
  length token = (2 * 32)%nat
  /\ Forall (fun c => is_lower_hex c = true) token
  /\ (forall i, snd (generateToken 32 Reference.tape) i = Reference.tape (32 + i)%nat)
  /\ (fst (generateToken 32 Reference.tape) = token
      <-> forall i, (i < 32)%nat -> Reference.tape i = Reference.tape i).
Proof.
  apply (generateToken_hex 32 Reference.tape Reference.tape). vm_compute. discriminate.
Defined.

Lemma decryptObject_encryptObject_witness :
  exists wire e' calls,
    encryptObject Examples.record Reference.key Reference.tape = (Return wire, e', calls)
    /\ forall (wireEntries : list (jsstring * jsvalue)) (m : jsobject),
         (forall name value, (name, value) ∈ wireEntries <-> wire !! name = Some value) ->
         decryptObject_settles wireEntries Reference.key m ->
         m !! js "name" = Some (VString (js "GitHub"))
         /\ m !! js "note" = Some VNull
         /\ m !! js "issuer" = Some VNull
         /\ m !! js "digits" = Some (VString (js "6"))
         /\ m !! js "serial" = Some (VString (js "1e+21"))
         /\ m !! js "tags" = Some (VString [])
         /\ m !! js "__proto__" = None
         /\ m !! js "owner" = None.
Proof.
  destruct (@decryptObject_encryptObject Reference.primitives Reference_laws
              Examples.record Reference.key Reference.tape)
    as (wire & e' & calls & Hrun & Hback).
  - apply (bool_decide_unpack _). vm_compute. exact I.
  - intros k v Hin. unfold Examples.record in Hin. rewrite !elem_of_cons in Hin.
    repeat (destruct Hin as [[= -> _] | Hin]; [reflexivity|]). inversion Hin.
  - intros k s Hin. unfold Examples.record in Hin.
    rewrite !elem_of_cons, !elem_of_nil in Hin.
    assert (Hs : s = js "GitHub" \/ s = [] \/ s = js "x").
    { destruct Hin as [Hin | Hin];
        repeat (destruct Hin as [Hin | Hin];
                [first [discriminate Hin | injection Hin as _ ->; auto]|]);
        contradiction. }
    destruct Hs as [-> | [-> | ->]]; split; reflexivity.
  - exists wire, e', calls. split; [exact Hrun|].
    intros wireEntries m Hentries Hsettles.
    repeat split; rewrite (Hback wireEntries m Hentries Hsettles); reflexivity.
Defined.

Lemma saved_secret_is_shown_witness :
  let shown :=
    {| SecretsPage.id := VNumber (Secrets.next_id Examples.secrets);
       SecretsPage.secret_name := SecretsPage.form_secret_name Examples.form;
       SecretsPage.description := SecretsPage.form_description Examples.form;
       SecretsPage.account_linked := SecretsPage.form_account_linked Examples.form;
       SecretsPage.value := SecretsPage.form_value Examples.form;
       SecretsPage.date_modified := js "2024-05-02 09:30:00" |} in
  exists payload e' t' secrets secret,
    SecretsPage.onSubmit Examples.form (Some Reference.key) Reference.tape
    = (Some (Return payload), e')
    /\ Secrets.createSecret (Some 7) (Some payload) (js "2024-05-02 09:30:00")
         Examples.secrets
       = (Secrets.Created (Secrets.next_id Examples.secrets), t')
    /\ Secrets.getSecrets (fun l => l) (Some 7) t' = Secrets.Listed secrets
    /\ secret ∈ secrets
    /\ (forall m, decryptObject_settles secret Reference.key m ->
                  SecretsPage.decrypted_row (list_to_map secret) m = shown)
    /\ shown ∈ SecretsPage.decryptSecrets (Some Reference.key) secrets.
Proof.
  apply (@saved_secret_is_shown Reference.primitives Reference_laws (fun l => l)).
  - intros l. apply Permutation_refl.
  - repeat constructor; vm_compute; discriminate.
  - discriminate.
  - discriminate.
Defined.

Lemma vault_session_round_trip_witness :
  let kept := storeVaultSession Examples.exportable_key 900000 1000 None in
  (2000 <= 1000 + 900000 ->
     retrieveVaultSession 2000 kept
     = (Some {| key_bytes := key_bytes Examples.exportable_key; extractable := false |},
        kept))
  /\ (1000 + 900000 < 2000 ->
      retrieveVaultSession 2000 kept = (None, None))
  /\ (forall k, fst (retrieveVaultSession 2000 kept) = Some k ->
                subtle_exportKey k = Throw InvalidAccessError
                /\ storeVaultSession k 900000 2000 kept = kept)
  /\ retrieveVaultSession 2000 (clearVaultSession kept) = (None, None).
Proof.
  apply (vault_session_round_trip Examples.exportable_key 900000 1000 2000 None);
    reflexivity.
Defined.

Lemma timeLeft_counts_down_witness :
  1 <= TOTPDisplay.timeLeft 1700000012345 <= 30
  /\ (1700000012345 + 1000 * (TOTPDisplay.timeLeft 1700000012345 - 1)) / 30000
     = 1700000012345 / 30000
  /\ (1700000012345 + 1000 * TOTPDisplay.timeLeft 1700000012345) / 30000
     = 1700000012345 / 30000 + 1
  /\ TOTPDisplay.timeLeft (1700000012345 + 1000)
     = (if TOTPDisplay.timeLeft 1700000012345 =? 1 then 30
        else TOTPDisplay.timeLeft 1700000012345 - 1).
Proof.
  apply (timeLeft_counts_down 1700000012345). lia.
Defined.

Lemma encryptData_fits_encryptedField_witness :
  exists w,
    fst (fst (encryptData (js "s3cret") Reference.key Reference.tape)) = Return w
    /\ length w = (4 * ((length (TextEncoder_encode (js "s3cret")) + 30) / 3))%nat
    /\ (encryptedField (VString w) = true
        <-> Z.of_nat (length (TextEncoder_encode (js "s3cret"))) <= 6116)
    /\ (Forall (fun c => 0 <= c <= 0xFFFF) (js "s3cret") ->
        Z.of_nat (length (js "s3cret")) <= 2038 ->
        encryptedField (VString w) = true)
    /\ normalizeEncrypted (VString w) = Some w.
Proof.
  apply (@encryptData_fits_encryptedField Reference.primitives Reference_laws
           (js "s3cret") Reference.key Reference.tape).
Defined.

Lemma worker_and_client_interoperate_witness :
  match Worker.deriveKey (js "master password") (js "7") 300000 with
  | Return key =>
      1 <= 300000 <= 4294967295
      /\ key = {| key_bytes := pbkdf2_sha256 (TextEncoder_encode (js "master password"))
                                             (TextEncoder_encode (js "7")) 300000;
                  extractable := false |}
  | Throw err =>
      (300000 = 0 /\ err = OperationError)
      \/ ((300000 < 0 \/ 4294967295 < 300000) /\ err = TypeError)
  end
  /\ Worker.deriveKey (js "master password") (js "7") PBKDF2_ITERATIONS
     = deriveKey (js "master password") (js "7")
  /\ forall (plaintext : jsstring) (e : entropy),
       Utf8.well_formed plaintext = true -> starts_with_bom plaintext = false ->
       exists kw kc w,
         Worker.deriveKey (js "master password") (js "7") PBKDF2_ITERATIONS = Return kw
         /\ deriveKey (js "master password") (js "7") = Return kc
         /\ fst (fst (encryptData plaintext kc e)) = Return w
         /\ fst (encrypt kw plaintext e) = Return w
         /\ decrypt kw w = Return plaintext
         /\ fst (decryptData w kc) = Return plaintext.
Proof.
  apply (@worker_and_client_interoperate Reference.primitives Reference_laws
           (js "master password") (js "7") 300000).
Defined.

Lemma handleSubmit_unlocks_witness :
  let st := {| UnlockVaultModal.masterPassword := js "master password";
               UnlockVaultModal.error := None;
               UnlockVaultModal.isSubmitting := false |} in
  let t := {| vault := initial_vault; storage := None |} in
  let key := {| key_bytes := pbkdf2_sha256
                               (TextEncoder_encode (UnlockVaultModal.masterPassword st))
                               (TextEncoder_encode (js "7")) PBKDF2_ITERATIONS;
                extractable := false |} in
  let '(st', t') := UnlockVaultModal.handleSubmit st (js "7") 1000 1001 t in
  (Forall (fun c => UnlockVaultModal.is_whitespace c = true)
          (UnlockVaultModal.masterPassword st) ->
     st' = {| UnlockVaultModal.masterPassword := UnlockVaultModal.masterPassword st;
              UnlockVaultModal.error := Some "Master password is required."%string;
              UnlockVaultModal.isSubmitting := UnlockVaultModal.isSubmitting st |}
     /\ t' = t)
  /\ (Exists (fun c => UnlockVaultModal.is_whitespace c = false)
             (UnlockVaultModal.masterPassword st) ->
      st' = {| UnlockVaultModal.masterPassword := [];
               UnlockVaultModal.error := None;
               UnlockVaultModal.isSubmitting := false |}
      /\ vault t' = {| masterKey := Some key;
                       userSalt := userSalt (vault t);
                       isUnlocked := true;
                       unlockExpiry := Some (1000 + 15 * 60 * 1000) |}
      /\ storage t' = storage t
      /\ forall (plaintext : jsstring) (e : entropy) st2 t2 now2 now2',
           Utf8.well_formed plaintext = true -> starts_with_bom plaintext = false ->
           UnlockVaultModal.masterPassword st2 = UnlockVaultModal.masterPassword st ->
           exists w key2,
             fst (fst (encryptData plaintext key e)) = Return w
             /\ masterKey (vault (snd (UnlockVaultModal.handleSubmit
                                         st2 (js "7") now2 now2' t2))) = Some key2
             /\ fst (decryptData w key2) = Return plaintext).
Proof.
  apply (@handleSubmit_unlocks Reference.primitives Reference_laws
           {| UnlockVaultModal.masterPassword := js "master password";
              UnlockVaultModal.error := None;
              UnlockVaultModal.isSubmitting := false |}
           (js "7") 1000 1001 {| vault := initial_vault; storage := None |}).
Defined.

End MoreExamples.

Section RouteExamples.

#[local] Existing Instance Reference.primitives.

Lemma secrets_of_other_users_are_out_of_reach_witness :
  (forall secrets secret,
      Secrets.getSecrets (fun l => l) (Some 7) Examples.secrets = Secrets.Listed secrets ->
      secret ∈ secrets ->
      exists id r, Secrets.rows Examples.secrets !! id = Some r /\ Secrets.user_id r = 7
                   /\ secret = Secrets.listed_columns (id, r))
  /\ (forall secret,
        Secrets.getSecret Examples.id_of_param (Some 7) (js "1") Examples.secrets
        = Secrets.Found secret ->
        exists id r, Secrets.rows Examples.secrets !! id = Some r /\ Secrets.user_id r = 7
                     /\ secret = Secrets.all_columns id r)
  /\ (forall id r,
        Secrets.rows Examples.secrets !! id = Some r -> Secrets.user_id r <> 7 ->
        Secrets.rows (snd (Secrets.createSecret (Some 7) None [] Examples.secrets)) !! id
        = Some r
        /\ Secrets.rows (snd (Secrets.updateSecret Examples.id_of_param (Some 7) (js "1")
                                None [] Examples.secrets)) !! id
           = Some r
        /\ Secrets.rows (snd (Secrets.deleteSecret Examples.id_of_param (Some 7) (js "1")
                                Examples.secrets)) !! id = Some r)
  /\ (Secrets.getSecrets (fun l => l) None Examples.secrets = Secrets.Failure 401 "Unauthorized"
      /\ Secrets.getSecret Examples.id_of_param None (js "1") Examples.secrets
         = Secrets.Failure 401 "Unauthorized"
      /\ snd (Secrets.createSecret None None [] Examples.secrets) = Examples.secrets
      /\ snd (Secrets.updateSecret Examples.id_of_param None (js "1") None []
                Examples.secrets) = Examples.secrets
      /\ Secrets.deleteSecret Examples.id_of_param None (js "1") Examples.secrets
         = (Secrets.Failure 401 "Unauthorized", Examples.secrets)).
Proof.
  apply (SecretsFacts.secrets_of_other_users_are_out_of_reach
           Examples.id_of_param (fun l => l)).
  intros l. apply Permutation_refl.
Defined.

Lemma forceResetPassword_effects_witness :
  exists db',
    Admin.forceResetPassword (Some 7) Examples.password Reference.database Reference.tape
    = ({| status := 200; body := "Password reset successfully" |}, db',
       snd (hashPassword Examples.password Reference.tape))
    /\ (forall h0, users Reference.database !! 7 = Some h0 ->
          exists h, users db' !! 7 = Some h
                    /\ verifyPassword Examples.password h = Return true)
    /\ (users Reference.database !! 7 = None -> users db' = users Reference.database)
    /\ (forall id, id <> 7 -> users db' !! id = users Reference.database !! id)
    /\ (forall s owner, sessions db' !! s = Some owner
                        <-> sessions Reference.database !! s = Some owner /\ owner <> 7)
    /\ (forall h row, password_reset_tokens db' !! h = Some row
                      <-> password_reset_tokens Reference.database !! h = Some row
                          /\ row_user_id row <> 7)
    /\ (forall now token pw row e2,
          password_reset_tokens Reference.database !! hashToken token = Some row ->
          row_user_id row = 7 ->
          (10 <= length token)%nat -> (12 <= length pw)%nat ->
          resetPassword now token pw db' e2
          = (Responded {| status := 400; body := "Invalid or expired token" |}, db', e2)).
Proof.
  apply (@forceResetPassword_effects Reference.primitives Reference_laws
           7 Examples.password Reference.database Reference.tape).
  vm_compute. lia.
Defined.

Lemma reset_link_redeems_witness :
  let user := {| Admin.email := js "root@example.org"; Admin.username := js "root" |} in
  let resetToken := fst (generateToken 48 Reference.tape) in
  let link := Admin.resetLink (js "https://vault.example.org") resetToken in
  exists db1 e1 db2 e2,
    Admin.sendResetLink (fun _ => Some true) Examples.env (Some 7) None None 1000
      Examples.contacts Reference.database Reference.tape
    = ({| status := 200; body := "Reset link sent successfully." |}, db1, e1,
       [{| Email.personalizations_to := Admin.email user;
           Email.from_email := js "vault@example.org";
           Email.payload_subject := js "AccManager Password Reset";
           Email.content :=
             [{| Email.part_type := "text/plain";
                 Email.part_value := Admin.textBody user link |};
              {| Email.part_type := "text/html";
                 Email.part_value := Admin.htmlBody user link |}];
           Email.reply_to := None |}])
    /\ length resetToken = 96%nat
    /\ (forall h row, password_reset_tokens db1 !! h = Some row ->
                      row_user_id row = 7 -> h = hashToken resetToken)
    /\ resetPassword 2000 resetToken Examples.password db1 e1
       = (Responded {| status := 200; body := "Password reset successfully." |}, db2, e2)
    /\ (forall h0, users Reference.database !! 7 = Some h0 ->
          exists h, users db2 !! 7 = Some h
                    /\ verifyPassword Examples.password h = Return true)
    /\ (forall s, sessions db2 !! s <> Some 7)
    /\ (forall pw2, (12 <= length pw2)%nat ->
          resetPassword 2000 resetToken pw2 db2 e2
          = (Responded {| status := 400; body := "Token already used" |}, db2, e2)).
Proof.
  apply (@reset_link_redeems Reference.primitives Reference_laws
           (fun _ => Some true) Examples.env 7 None None 1000 2000
           Examples.contacts Reference.database Reference.tape).
  - reflexivity.
  - reflexivity.
  - reflexivity.
  - reflexivity.
  - intros row Hrow. vm_compute in Hrow. discriminate.
  - lia.
  - vm_compute. lia.
Defined.

Lemma sendResetLink_stores_before_it_sends_witness :
  let '(r, db1, e1, requests) :=
    Admin.sendResetLink (fun _ => None) Examples.env (Some 7) None None 1000
      Examples.contacts Reference.database Reference.tape in
  (status r = 200 \/ status r = 500)
  /\ (status r = 200 <->
      exists payload, requests = [payload] /\ (fun _ => @None bool) payload = Some true)
  /\ (SMTP_FROM Examples.env = None \/ SMTP_FROM Examples.env = Some [] ->
      status r = 500 /\ requests = [])
  /\ users db1 = users Reference.database /\ sessions db1 = sessions Reference.database
  /\ ((exists row, password_reset_tokens Reference.database
                     !! hashToken (fst (generateToken 48 Reference.tape)) = Some row
                   /\ row_user_id row <> 7) ->
      status r = 500 /\ requests = [] /\ db1 = Reference.database)
  /\ ((forall row, password_reset_tokens Reference.database
                     !! hashToken (fst (generateToken 48 Reference.tape)) = Some row ->
                   row_user_id row = 7) ->
      password_reset_tokens db1 !! hashToken (fst (generateToken 48 Reference.tape))
      = Some {| row_user_id := 7;
                row_expires_at := Some (1000 + 60 * 60 * 1000);
                row_used := 0 |}
      /\ (forall h row, password_reset_tokens db1 !! h = Some row ->
                        row_user_id row = 7 ->
                        h = hashToken (fst (generateToken 48 Reference.tape)))).
Proof.
  apply (@sendResetLink_stores_before_it_sends Reference.primitives
           (fun _ => None) Examples.env 7 None None 1000
           Examples.contacts Reference.database Reference.tape
           {| Admin.email := js "root@example.org"; Admin.username := js "root" |}).
  reflexivity.
Defined.

Lemma login_opens_a_session_witness :
  let token := fst (generateToken 32 Reference.tape) in
  let t' :=
    {| Auth.users := Auth.users Examples.tables;
       Auth.sessions :=
         <[token := {| Auth.user_id := 7;
                       Auth.expires_at := Some (1000 + Auth.SESSION_MS) |}]>
           (Auth.sessions Examples.tables) |} in
  let header := Some (js "Bearer " ++ token) in
  let v := {| Auth.userId := 7; Auth.ctx_username := js "root";
              Auth.ctx_email := js "root@example.org"; Auth.ctx_role := js "admin" |} in
  (exists user,
      Auth.users Examples.tables !! 7 = Some user
      /\ Auth.username user = js "root" /\ js "root" = js "root"
      /\ js "root@example.org" = Auth.email user /\ js "admin" = Auth.role user
      /\ verifyPassword Examples.password (Auth.password_hash user) = Return true)
  /\ token = fst (generateToken 32 Reference.tape) /\ length token = 64%nat
  /\ Auth.sessions Examples.tables !! token = None
  /\ (forall now', now' <= 1000 + 7 * 24 * 60 * 60 * 1000 ->
        Auth.isAuthenticated header now' t' = (Auth.Next v, t'))
  /\ (forall now', 1000 + 7 * 24 * 60 * 60 * 1000 < now' ->
        Auth.isAuthenticated header now' t'
        = (Auth.Answer {| status := 401; body := "Session expired" |}, Examples.tables))
  /\ Auth.logout header t'
     = ({| status := 200; body := "Logged out successfully" |}, Examples.tables)
  /\ (forall now',
        Auth.isAuthenticated header now' Examples.tables
        = (Auth.Answer {| status := 401; body := "Invalid or expired session" |},
           Examples.tables)).
Proof.
  apply (@login_opens_a_session Reference.primitives
           (js "root") Examples.password 1000 Examples.tables Reference.tape
           (fst (generateToken 32 Reference.tape)) 7
           (js "root") (js "root@example.org") (js "admin")
           _ (snd (generateToken 32 Reference.tape))).
  vm_compute. reflexivity.
Defined.

End RouteExamples.
